(** * Markdown exporters (TXT, PDF, DOCX): a shallow embedding

    The TypeScript sources [products/PDFExporter.ts], [products/DOCXExporter.ts],
    [products/TXTExporter.ts] and [main.ts] are embedded as Rocq functions.

    Strings are lists of 8-bit code units ([ascii]); a JavaScript string whose
    code units are all below 256 is represented exactly.  The regular
    expressions of the sources are written as data ([regex]) and executed by
    a small backtracking matcher that follows the ECMAScript matching order
    for the constructs the sources use.  Loops are folds or fixpoints with
    the state they update as an argument; the documents that the libraries
    build (jsPDF, docx) are records of what the sources hand to them.
    Numbers are rationals: the vertical cursor of the paged renderer only
    takes the values 20 + 14 a + 10.5 b + 3.5 c + 7 d, which doubles hold
    exactly. *)

From Stdlib Require Import Ascii String Bool Arith Lia Lqa QArith List.
Import ListNotations.

Close Scope Q_scope.
Open Scope nat_scope.
Open Scope list_scope.

(** ** Strings *)

Definition jsstring := list ascii.

Definition str (s : string) : jsstring := list_ascii_of_string s.

Definition nl : ascii := "010"%char.
Definition cr : ascii := "013"%char.
Definition star : ascii := "*"%char.
Definition hash : ascii := "#"%char.
Definition space : ascii := " "%char.

(** ECMAScript line terminators among the 8-bit code units: LF and CR (the
    two others, U+2028 and U+2029, are not 8-bit code units and do not occur
    in a [jsstring]). *)
Definition isLineTerminator (c : ascii) : bool :=
  Ascii.eqb c nl || Ascii.eqb c cr.

(** ECMAScript white space and line terminators (what [trim] removes and what
    [\s] matches) among the 8-bit code units: TAB, LF, VT, FF, CR, SP, NBSP. *)
Definition isWhiteSpace (c : ascii) : bool :=
  let n := nat_of_ascii c in
  ((9 <=? n) && (n <=? 13)) || (n =? 32) || (n =? 160).

Fixpoint trimStart (s : jsstring) : jsstring :=
  match s with
  | c :: s' => if isWhiteSpace c then trimStart s' else s
  | [] => []
  end.

Definition trimEnd (s : jsstring) : jsstring := rev (trimStart (rev s)).

(** [String.prototype.trim] *)
Definition trim (s : jsstring) : jsstring := trimEnd (trimStart s).

(** [s.split(sep)] for a one-character separator: the pieces between the
    separators; never an empty array. *)
Fixpoint split (sep : ascii) (s : jsstring) : list jsstring :=
  match s with
  | [] => [[]]
  | c :: s' =>
      if Ascii.eqb c sep then [] :: split sep s'
      else match split sep s' with
           | l :: ls => (c :: l) :: ls
           | [] => [[c]]
           end
  end.

(** [s.toLowerCase()] on 8-bit code units: A-Z and the Latin-1 capitals
    (U+00C0..U+00DE but the multiplication sign U+00D7) move up by 32. *)
Definition lowerChar (c : ascii) : ascii :=
  let n := nat_of_ascii c in
  if ((65 <=? n) && (n <=? 90))
     || ((192 <=? n) && (n <=? 222) && negb (n =? 215))
  then ascii_of_nat (n + 32) else c.

Definition toLowerCase (s : jsstring) : jsstring := map lowerChar s.

(** [s.startsWith(p)] *)
Fixpoint startsWith (p s : jsstring) : bool :=
  match p, s with
  | [], _ => true
  | a :: p', b :: s' => Ascii.eqb a b && startsWith p' s'
  | _ :: _, [] => false
  end.

(** [s.substring(n)] for [n] within bounds or beyond the end. *)
Definition substring_from (n : nat) (s : jsstring) : jsstring := skipn n s.

(** [s.substring(0, n)] *)
Definition substring_to (n : nat) (s : jsstring) : jsstring := firstn n s.

(** ** Regular expressions of the sources *)

Inductive charClass : Type :=
| AnyChar            (* .  : any code unit but a line terminator *)
| WhiteSpace         (* \s *)
| OneChar (c : ascii).

Definition classMatches (k : charClass) (c : ascii) : bool :=
  match k with
  | AnyChar => negb (isLineTerminator c)
  | WhiteSpace => isWhiteSpace c
  | OneChar d => Ascii.eqb c d
  end.

Inductive node : Type :=
| Lit (c : ascii)                          (* an escaped literal such as \* *)
| NotBehind (c : ascii)                    (* negative lookbehind  (?<! c ) *)
| NotAhead (c : ascii)                     (* negative lookahead  (?! c ) *)
| LineStart                                (* ^ under the m flag *)
| GroupLazy (min : nat) (k : charClass)    (* group 1 around k*? (min 0) or k+? (min 1) *)
| Greedy (min : nat) (max : option nat) (k : charClass). (* k+ and k{1,2} *)

Definition regex := list node.

Definition belowMax (max : option nat) (count : nat) : bool :=
  match max with
  | Some m => count <? m
  | None => true
  end.

Definition attempt := option (option jsstring * nat).

(** A lazy quantifier over a character class, inside group 1: the
    continuation [cont] is tried before one more repetition, once [need]
    repetitions are done; [taken] holds the repetitions so far, last first. *)
Fixpoint lazyLoop (k : charClass) (cont : jsstring -> jsstring -> attempt)
    (taken : jsstring) (need : nat) (prev rest : jsstring) {struct rest}
  : attempt :=
  match (match need with
         | 0 => cont prev rest
         | S _ => None
         end) with
  | Some (_, n) => Some (Some (rev taken), length taken + n)
  | None =>
      match rest with
      | x :: rest' =>
          if classMatches k x
          then lazyLoop k cont (x :: taken) (pred need) (x :: prev) rest'
          else None
      | [] => None
      end
  end.

(** A greedy quantifier over a character class: one more repetition is tried
    first (while fewer than [max] are done), the continuation after, once
    [min] repetitions are done. *)
Fixpoint greedyLoop (k : charClass) (min : nat) (max : option nat)
    (cont : jsstring -> jsstring -> attempt)
    (count : nat) (prev rest : jsstring) {struct rest} : attempt :=
  let stop := if min <=? count then cont prev rest else None in
  match rest with
  | x :: rest' =>
      if classMatches k x && belowMax max count then
        match greedyLoop k min max cont (S count) (x :: prev) rest' with
        | Some (cap, n) => Some (cap, S n)
        | None => stop
        end
      else stop
  | [] => stop
  end.

(** One match attempt at a fixed position.  [prev] holds the code units before
    the position, nearest first; [rest] those from the position on.  The
    result is the capture of group 1 (if the group took part) and the number
    of code units matched. *)
Fixpoint matchHere (r : regex) (prev rest : jsstring) {struct r} : attempt :=
  match r with
  | [] => Some (None, 0)
  | Lit c :: r' =>
      match rest with
      | x :: rest' =>
          if Ascii.eqb x c then
            match matchHere r' (x :: prev) rest' with
            | Some (cap, n) => Some (cap, S n)
            | None => None
            end
          else None
      | [] => None
      end
  | NotBehind c :: r' =>
      match prev with
      | p :: _ => if Ascii.eqb p c then None else matchHere r' prev rest
      | [] => matchHere r' prev rest
      end
  | NotAhead c :: r' =>
      match rest with
      | x :: _ => if Ascii.eqb x c then None else matchHere r' prev rest
      | [] => matchHere r' prev rest
      end
  | LineStart :: r' =>
      match prev with
      | p :: _ => if isLineTerminator p then matchHere r' prev rest else None
      | [] => matchHere r' prev rest
      end
  | GroupLazy min k :: r' => lazyLoop k (matchHere r') [] min prev rest
  | Greedy min max k :: r' => greedyLoop k min max (matchHere r') 0 prev rest
  end.

(** The match object of [String.prototype.match] for a regex without the g
    flag: [index], the matched text [m0] and group 1 [m1]. *)
Record MatchResult : Type := mkMatch
  { index : nat; m0 : jsstring; m1 : option jsstring }.

(** Leftmost match: the attempt is made at each position in turn, the end of
    the string included. *)
Fixpoint searchFrom (r : regex) (prev rest : jsstring) (idx : nat)
  : option MatchResult :=
  match matchHere r prev rest with
  | Some (cap, n) => Some (mkMatch idx (firstn n rest) cap)
  | None =>
      match rest with
      | x :: rest' => searchFrom r (x :: prev) rest' (S idx)
      | [] => None
      end
  end.

(** [s.match(r)] *)
Definition js_match (r : regex) (s : jsstring) : option MatchResult :=
  searchFrom r [] s 0.

(** The replacement patterns the sources use: ['$1'] and ['']. *)
Inductive replacement : Type := Group1 | Nothing.

Definition substitute (p : replacement) (m : MatchResult) : jsstring :=
  match p with
  | Group1 => match m1 m with Some c => c | None => [] end
  | Nothing => []
  end.

(** [s.replace(r, p)] for a regex with the g flag: matches are looked for one
    after the other, each search starting where the previous match ended (one
    code unit further after an empty match); the text between matches is
    kept.  [fuel] bounds the number of searches. *)
Fixpoint replaceLoop (fuel : nat) (r : regex) (p : replacement)
    (prev rest : jsstring) : jsstring :=
  match fuel with
  | 0 => rest
  | S fuel' =>
      match searchFrom r prev rest 0 with
      | None => rest
      | Some m =>
          let stop := index m + length (m0 m) in
          let before := firstn (index m) rest in
          match m0 m with
          | _ :: _ =>
              before ++ substitute p m
                ++ replaceLoop fuel' r p (rev (firstn stop rest) ++ prev)
                     (skipn stop rest)
          | [] =>
              match skipn stop rest with
              | x :: rest' =>
                  before ++ substitute p m
                    ++ x :: replaceLoop fuel' r p
                              (x :: rev (firstn stop rest) ++ prev) rest'
              | [] => before ++ substitute p m
              end
          end
      end
  end.

Definition replaceAll (r : regex) (p : replacement) (s : jsstring) : jsstring :=
  replaceLoop (S (length s)) r p [] s.

(** The bold pattern of both parsers, [/ \*\* (.+?) \*\* /] (the patterns are
    quoted with blanks between their parts). *)
Definition reBold : regex :=
  [Lit star; Lit star; GroupLazy 1 AnyChar; Lit star; Lit star].

(** The italic pattern of both parsers,
    [/ (?<! \* ) \* (?! \* ) (.+?) (?<! \* ) \* (?! \* ) /]. *)
Definition reItalic : regex :=
  [NotBehind star; Lit star; NotAhead star; GroupLazy 1 AnyChar;
   NotBehind star; Lit star; NotAhead star].

(** [/ \*\* (.*?) \*\* /g] *)
Definition reStripBold : regex :=
  [Lit star; Lit star; GroupLazy 0 AnyChar; Lit star; Lit star].

(** [/ \* (.*?) \* /g] *)
Definition reStripItalic : regex :=
  [Lit star; GroupLazy 0 AnyChar; Lit star].

(** [/ ^ #{1,2} \s+ /gm] *)
Definition reHeadingMarker : regex :=
  [LineStart; Greedy 1 (Some 2) (OneChar hash); Greedy 1 None WhiteSpace].

(** ** The inline-emphasis parser (PDFExporter.ts and DOCXExporter.ts) *)

(** The choice between the two matches, as both parsers write it: bold when
    there is a bold match and either no italic one or the bold one starts at
    or before it; else italic when there is an italic match; else null.  The
    boolean is [isBold]. *)
Definition chooseMatch (boldMatch italicMatch : option MatchResult)
  : option (MatchResult * bool) :=
  match boldMatch with
  | Some b =>
      match italicMatch with
      | None => Some (b, true)
      | Some i => if index b <=? index i then Some (b, true) else Some (i, false)
      end
  | None =>
      match italicMatch with
      | Some i => Some (i, false)
      | None => None
      end
  end.

(** Truthiness of [nextMatch[1]]: a captured, non-empty string. *)
Definition truthy (c : option jsstring) : bool :=
  match c with
  | Some (_ :: _) => true
  | _ => false
  end.

Definition group1 (m : MatchResult) : jsstring :=
  match m1 m with Some c => c | None => [] end.

Module PDF.

(** [{ text: string; bold?: boolean; italic?: boolean }] *)
Record Segment : Type := mkSegment
  { text : jsstring; bold : option bool; italic : option bool }.

Definition plainSegment (t : jsstring) : Segment := mkSegment t None None.
Definition boldSegment (t : jsstring) : Segment := mkSegment t (Some true) None.
Definition italicSegment (t : jsstring) : Segment := mkSegment t None (Some true).

(** The while loop of [parseInlineFormatting]; one unit of [fuel] per
    iteration. *)
Fixpoint parseLoop (fuel : nat) (segments : list Segment) (remaining : jsstring)
  : list Segment :=
  match fuel with
  | 0 => segments
  | S fuel' =>
      match remaining with
      | [] => segments
      | _ :: _ =>
          let boldMatch := js_match reBold remaining in
          let italicMatch := js_match reItalic remaining in
          match chooseMatch boldMatch italicMatch with
          | Some (nextMatch, isBold) =>
              if truthy (m1 nextMatch) then
                let segments1 :=
                  if 0 <? index nextMatch
                  then segments ++ [plainSegment (substring_to (index nextMatch) remaining)]
                  else segments in
                let segments2 :=
                  if isBold
                  then segments1 ++ [boldSegment (group1 nextMatch)]
                  else segments1 ++ [italicSegment (group1 nextMatch)] in
                parseLoop fuel' segments2
                  (substring_from (index nextMatch + length (m0 nextMatch)) remaining)
              else
                if 0 <? length remaining
                then segments ++ [plainSegment remaining]
                else segments
          | None =>
              if 0 <? length remaining
              then segments ++ [plainSegment remaining]
              else segments
          end
      end
  end.

(** Every iteration but the last shortens [remaining], so its length bounds
    the number of iterations. *)
Definition parseInlineFormatting (text : jsstring) : list Segment :=
  parseLoop (length text) [] text.

(** The values of [type] in [{ type: string; text: string }]. *)
Inductive LineType : Type := h1 | h2 | paragraph | empty.

Record Line : Type := mkLine { type : LineType; ltext : jsstring }.

(** [text.replace(bold, '$1').replace(italic, '$1')] of the heading branches *)
Definition stripFormatting (t : jsstring) : jsstring :=
  replaceAll reStripItalic Group1 (replaceAll reStripBold Group1 t).

(** The body of [lines.forEach] in [parseMarkdown]. *)
Definition parseLine (parsed : list Line) (line : jsstring) : list Line :=
  let trimmed := trim line in
  match trimmed with
  | [] => parsed ++ [mkLine empty []]
  | _ :: _ =>
      if startsWith (str "# ") trimmed then
        let t := substring_from 2 trimmed in
        parsed ++ [mkLine h1 (stripFormatting t)]
      else if startsWith (str "## ") trimmed then
        let t := substring_from 3 trimmed in
        parsed ++ [mkLine h2 (stripFormatting t)]
      else parsed ++ [mkLine paragraph trimmed]
  end.

Definition parseMarkdown (content : jsstring) : list Line :=
  fold_left parseLine (split nl content) [].

(** *** The jsPDF document, as far as [export] drives it *)

Inductive FontStyle : Type := fontNormal | fontBold | fontItalic.

(** One call of [doc.text(t, x, y)], with the page and font in force. *)
Record TextOp : Type := mkTextOp
  { onPage : nat; size : nat; style : FontStyle;
    content : jsstring; atX : Q; atY : Q }.

Record Doc : Type := mkDoc
  { pages : nat; fontSize : nat; fontStyle : FontStyle; drawn : list TextOp }.

(** [new jsPDF()]: one page, helvetica normal at 16pt. *)
Definition newDoc : Doc := mkDoc 1 16 fontNormal [].

Definition addPage (d : Doc) : Doc :=
  mkDoc (S (pages d)) (fontSize d) (fontStyle d) (drawn d).

Definition setFontSize (n : nat) (d : Doc) : Doc :=
  mkDoc (pages d) n (fontStyle d) (drawn d).

Definition setFont (f : FontStyle) (d : Doc) : Doc :=
  mkDoc (pages d) (fontSize d) f (drawn d).

Definition drawText (t : jsstring) (x y : Q) (d : Doc) : Doc :=
  mkDoc (pages d) (fontSize d) (fontStyle d)
    (drawn d ++ [mkTextOp (pages d) (fontSize d) (fontStyle d) t x y]).

(** [a > b] on numbers *)
Definition gt (a b : Q) : bool := negb (Qle_bool a b).

Section Rendering.

(** [doc.internal.pageSize.height] and [doc.getTextWidth], which jsPDF
    provides; the width depends on the font in force. *)
Variable pageHeight : Q.
Variable getTextWidth : FontStyle -> nat -> jsstring -> Q.

Definition maxWidth : Q := 170%Q.

(** The body of [words.forEach((word, index) => ...)]; the state is the
    document and [currentX], [currentY]. *)
Definition renderWord (x lineHeight : Q) (nwords : nat)
    (st : Doc * Q * Q) (iw : nat * jsstring) : Doc * Q * Q :=
  let '(doc, currentX, currentY) := st in
  let '(index, word) := iw in
  let wordWithSpace := if index <? nwords - 1 then word ++ [space] else word in
  let wordWidth := getTextWidth (fontStyle doc) (fontSize doc) wordWithSpace in
  let '(currentX1, currentY1) :=
    if gt (currentX + wordWidth)%Q (x + maxWidth)%Q
    then (x, (currentY + lineHeight)%Q)
    else (currentX, currentY) in
  (drawText wordWithSpace currentX1 currentY1 doc,
   (currentX1 + wordWidth)%Q, currentY1).

(** The body of [segments.forEach(segment => ...)]. *)
Definition renderSegment (x lineHeight : Q)
    (st : Doc * Q * Q) (segment : Segment) : Doc * Q * Q :=
  let '(doc, currentX, currentY) := st in
  let doc1 :=
    match bold segment with
    | Some true => setFont fontBold doc
    | _ =>
        match italic segment with
        | Some true => setFont fontItalic doc
        | _ => setFont fontNormal doc
        end
    end in
  let words := split space (text segment) in
  fold_left (renderWord x lineHeight (length words))
    (combine (seq 0 (length words)) words) (doc1, currentX, currentY).

Definition renderParagraphWithFormatting (doc : Doc) (t : jsstring)
    (x y lineHeight : Q) : Doc * Q :=
  let segments := parseInlineFormatting t in
  let '(doc', _, currentY) :=
    fold_left (renderSegment x lineHeight) segments (doc, x, y) in
  (doc', (currentY + lineHeight)%Q).

Definition lineHeight : Q := 7%Q.

(** The page-break test at the head of the body of [lines.forEach]. *)
Definition pageBreak (st : Doc * Q) : Doc * Q :=
  let '(doc, yPosition) := st in
  if gt yPosition (pageHeight - 20)%Q then (addPage doc, 20%Q)
  else (doc, yPosition).

(** The styling part of the body of [lines.forEach]. *)
Definition renderLine (st : Doc * Q) (line : Line) : Doc * Q :=
  let '(doc, yPosition) := st in
  match type line with
  | h1 =>
      let doc := setFont fontBold (setFontSize 20 doc) in
      (drawText (ltext line) 20%Q yPosition doc, (yPosition + lineHeight * 2)%Q)
  | h2 =>
      let doc := setFont fontBold (setFontSize 16 doc) in
      (drawText (ltext line) 20%Q yPosition doc, (yPosition + lineHeight * 1.5)%Q)
  | paragraph =>
      let doc := setFontSize 12 doc in
      renderParagraphWithFormatting doc (ltext line) 20%Q yPosition lineHeight
  | empty => (doc, (yPosition + lineHeight / 2)%Q)
  end.

Definition exportLine (st : Doc * Q) (line : Line) : Doc * Q :=
  renderLine (pageBreak st) line.

(** [export]: the document handed to [doc.save('document.pdf')]. *)
Definition export (c : jsstring) : Doc :=
  fst (fold_left exportLine (parseMarkdown c) (newDoc, 20%Q)).

End Rendering.

End PDF.

Module DOCX.

Inductive HeadingLevel : Type := HEADING_1 | HEADING_2.

(** The options a [TextRun] is built from. *)
Record TextRun : Type := mkTextRun
  { text : jsstring; bold : option bool; italics : option bool }.

Definition plainRun (t : jsstring) : TextRun := mkTextRun t None None.
Definition boldRun (t : jsstring) : TextRun := mkTextRun t (Some true) None.
Definition italicRun (t : jsstring) : TextRun := mkTextRun t None (Some true).

(** The options a [Paragraph] is built from: [{ text }], [{ text, heading }]
    or [{ children }]. *)
Inductive Paragraph : Type :=
| ParagraphText (t : jsstring) (heading : option HeadingLevel)
| ParagraphChildren (children : list TextRun).

(** The while loop of [parseInlineFormatting]. *)
Fixpoint parseLoop (fuel : nat) (runs : list TextRun) (remaining : jsstring)
  : list TextRun :=
  match fuel with
  | 0 => runs
  | S fuel' =>
      match remaining with
      | [] => runs
      | _ :: _ =>
          let boldMatch := js_match reBold remaining in
          let italicMatch := js_match reItalic remaining in
          match chooseMatch boldMatch italicMatch with
          | Some (nextMatch, isBold) =>
              if truthy (m1 nextMatch) then
                let runs1 :=
                  if 0 <? index nextMatch
                  then runs ++ [plainRun (substring_to (index nextMatch) remaining)]
                  else runs in
                let runs2 :=
                  if isBold
                  then runs1 ++ [boldRun (group1 nextMatch)]
                  else runs1 ++ [italicRun (group1 nextMatch)] in
                parseLoop fuel' runs2
                  (substring_from (index nextMatch + length (m0 nextMatch)) remaining)
              else
                if 0 <? length remaining
                then runs ++ [plainRun remaining]
                else runs
          | None =>
              if 0 <? length remaining
              then runs ++ [plainRun remaining]
              else runs
          end
      end
  end.

Definition parseInlineFormatting (t : jsstring) : list TextRun :=
  let runs := parseLoop (length t) [] t in
  if 0 <? length runs then runs else [plainRun []].

(** The body of [lines.forEach] in [parseMarkdownToDocx]. *)
Definition parseLine (paragraphs : list Paragraph) (line : jsstring)
  : list Paragraph :=
  let trimmed := trim line in
  match trimmed with
  | [] => paragraphs ++ [ParagraphText [] None]
  | _ :: _ =>
      if startsWith (str "# ") trimmed then
        let t := substring_from 2 trimmed in
        paragraphs ++ [ParagraphText t (Some HEADING_1)]
      else if startsWith (str "## ") trimmed then
        let t := substring_from 3 trimmed in
        paragraphs ++ [ParagraphText t (Some HEADING_2)]
      else
        let textRuns := parseInlineFormatting trimmed in
        paragraphs ++ [ParagraphChildren textRuns]
  end.

Definition parseMarkdownToDocx (c : jsstring) : list Paragraph :=
  fold_left parseLine (split nl c) [].

(** [export]: the children of the one section of the [Document] that is
    packed into document.docx. *)
Definition export (c : jsstring) : list Paragraph := parseMarkdownToDocx c.

End DOCX.

Module TXT.

Definition stripMarkdown (c : jsstring) : jsstring :=
  let t := c in
  let t := replaceAll reHeadingMarker Nothing t in
  let t := replaceAll reStripBold Group1 t in
  let t := replaceAll reStripItalic Group1 t in
  trim t.

(** [export]: the text of document.txt. *)
Definition export (c : jsstring) : jsstring := stripMarkdown c.

End TXT.

(** ** main.ts *)

Module Main.

(** The three implementations of the interface [ExporterFactory], and of the
    interface [DocumentExporter]. *)
Inductive ExporterFactory : Type :=
| TXTExporterFactory | PDFExporterFactory | DOCXExporterFactory.

Inductive DocumentExporter : Type :=
| TXTExporter | PDFExporter | DOCXExporter.

(** The factory method, class by class. *)
Definition createExporter (f : ExporterFactory) : DocumentExporter :=
  match f with
  | TXTExporterFactory => TXTExporter
  | PDFExporterFactory => PDFExporter
  | DOCXExporterFactory => DOCXExporter
  end.

(** [getFactory]: the factory, and what was written with [console.error]. *)
Definition getFactory (format : jsstring) : ExporterFactory * list jsstring :=
  let f := toLowerCase format in
  if list_eq_dec ascii_dec f (str "txt") then (TXTExporterFactory, [])
  else if list_eq_dec ascii_dec f (str "pdf") then (PDFExporterFactory, [])
  else if list_eq_dec ascii_dec f (str "docx") then (DOCXExporterFactory, [])
  else (TXTExporterFactory,
        [str "Unknown format: " ++ format ++ str ". Defaulting to TXT."]).

(** What an export hands to the download. *)
Inductive Artifact : Type :=
| TxtFile (t : jsstring)
| PdfFile (d : PDF.Doc)
| DocxFile (ps : list DOCX.Paragraph).

Section HandleExport.

Variable pageHeight : Q.
Variable getTextWidth : PDF.FontStyle -> nat -> jsstring -> Q.

(** [exporter.export(content)] *)
Definition export (e : DocumentExporter) (c : jsstring) : Artifact :=
  match e with
  | TXTExporter => TxtFile (TXT.export c)
  | PDFExporter => PdfFile (PDF.export pageHeight getTextWidth c)
  | DOCXExporter => DocxFile (DOCX.export c)
  end.

(** What a run of [handleExport] leaves behind: the artifact handed to the
    download, what was written with [console.error], and what was shown
    with [alert].  The progress lines written with [console.log] are not
    part of it. *)
Record Outcome : Type := mkOutcome
  { artifact : option Artifact;
    consoleErrors : list jsstring;
    alerts : list jsstring }.

(** [handleExport] once the two form values are read: when the content is
    empty or blank the alert is shown and nothing is exported; else the
    trimmed content is exported by the exporter that the selected factory
    creates. *)
Definition handleExport (c format : jsstring) : Outcome :=
  match trim c with
  | [] => mkOutcome None [] [str "Please enter some content to export."]
  | _ :: _ =>
      let '(factory, errors) := getFactory format in
      let exporter := createExporter factory in
      mkOutcome (Some (export exporter (trim c))) errors []
  end.

End HandleExport.

End Main.

(** * Vocabulary of the properties

    What follows is not in the sources: the notions the properties are
    stated with, and the wording of the specification where a property
    compares the code with it. *)

(** ** Matches and segments *)

(** A match of a pattern that wraps a non-empty captured text between two
    copies of the delimiter [d]. *)
Definition delimited (d s : jsstring) (m : MatchResult) : Prop :=
  exists pre mid post,
    s = pre ++ d ++ mid ++ d ++ post /\ index m = length pre /\
    m0 m = d ++ mid ++ d /\ m1 m = Some mid /\ mid <> [].

Definition pdfStyled (isBold : bool) (t : jsstring) : PDF.Segment :=
  if isBold then PDF.boldSegment t else PDF.italicSegment t.

(** The run with the text and flags of a segment. *)
Definition runOfSegment (g : PDF.Segment) : DOCX.TextRun :=
  DOCX.mkTextRun (PDF.text g) (PDF.bold g) (PDF.italic g).

(** The emphasis a segment or a run carries. *)
Inductive Emphasis : Type := NoEmphasis | Bold | Italic.

Definition emphasisOf (b i : option bool) : Emphasis :=
  match b with
  | Some true => Bold
  | _ => match i with
         | Some true => Italic
         | _ => NoEmphasis
         end
  end.

Definition pdfView (g : PDF.Segment) : jsstring * Emphasis :=
  (PDF.text g, emphasisOf (PDF.bold g) (PDF.italic g)).

Definition docxView (t : DOCX.TextRun) : jsstring * Emphasis :=
  (DOCX.text t, emphasisOf (DOCX.bold t) (DOCX.italics t)).

(** The unstyled segment for the text before a match, when there is any. *)
Definition literalBefore (m : MatchResult) (s : jsstring) : list PDF.Segment :=
  if 0 <? index m then [PDF.plainSegment (substring_to (index m) s)] else [].

Definition afterMatch (m : MatchResult) (s : jsstring) : jsstring :=
  substring_from (index m + length (m0 m)) s.

(** ** Lines and nodes *)

(** A paragraph node with children has at least one. *)
Definition hasRun (p : DOCX.Paragraph) : Prop :=
  match p with
  | DOCX.ParagraphChildren children => children <> []
  | DOCX.ParagraphText _ _ => True
  end.

(** A trimmed line that is a Paragraph line: neither empty nor a heading. *)
Definition paragraphLine (t : jsstring) : Prop :=
  t <> [] /\ startsWith (str "# ") t = false
  /\ startsWith (str "## ") t = false.

(** The node of a line: a Paragraph line gives a node with children, which
    are the runs of the trimmed line, at least one; any other line gives a
    node without children. *)
Definition nodeOfLine (raw : jsstring) (p : DOCX.Paragraph) : Prop :=
  (paragraphLine (trim raw) ->
   p = DOCX.ParagraphChildren (DOCX.parseInlineFormatting (trim raw))
   /\ DOCX.parseInlineFormatting (trim raw) <> [])
  /\ (~ paragraphLine (trim raw) -> exists t heading, p = DOCX.ParagraphText t heading).

(** ** Marker characters *)

Definition notStar (c : ascii) : bool := negb (Ascii.eqb c star).

Definition starFree (s : jsstring) : Prop := forallb notStar s = true.

(** A pattern that opens with the marker (after a lookbehind or not) has no
    match at a position where no marker stands. *)
Definition opensWithStar (r : regex) : Prop :=
  exists r', r = Lit star :: r' \/ r = NotBehind star :: Lit star :: r'.

(** What the paged renderer's line parser makes of a trimmed line. *)
Definition classified (t : jsstring) (line : PDF.Line) : Prop :=
  (t = [] /\ line = PDF.mkLine PDF.empty [])
  \/ (exists rest, t = str "# " ++ rest
                   /\ line = PDF.mkLine PDF.h1 (PDF.stripFormatting rest))
  \/ (exists rest, t = str "## " ++ rest
                   /\ line = PDF.mkLine PDF.h2 (PDF.stripFormatting rest))
  \/ (t <> [] /\ startsWith (str "# ") t = false
      /\ startsWith (str "## ") t = false
      /\ line = PDF.mkLine PDF.paragraph t).

(** The node kinds of the structured renderer follow the same classes. *)
Definition sameKind (line : PDF.Line) (p : DOCX.Paragraph) : Prop :=
  match PDF.type line, p with
  | PDF.empty, DOCX.ParagraphText [] None => True
  | PDF.h1, DOCX.ParagraphText _ (Some DOCX.HEADING_1) => True
  | PDF.h2, DOCX.ParagraphText _ (Some DOCX.HEADING_2) => True
  | PDF.paragraph, DOCX.ParagraphChildren _ => True
  | _, _ => False
  end.

(** The classification in the words of the specification: the heading text
    is the remainder after the prefix. *)
Definition specLine (t : jsstring) : PDF.Line :=
  match t with
  | [] => PDF.mkLine PDF.empty []
  | _ :: _ =>
      if startsWith (str "# ") t then PDF.mkLine PDF.h1 (skipn 2 t)
      else if startsWith (str "## ") t then PDF.mkLine PDF.h2 (skipn 3 t)
      else PDF.mkLine PDF.paragraph t
  end.

Definition specParseLines (c : jsstring) : list PDF.Line :=
  map (fun l => specLine (trim l)) (split nl c).

(** ** Segments against their input *)

(** The stretch of input a segment stands for: its text, between the
    delimiters of its style. *)
Definition sourceOf (g : PDF.Segment) : jsstring :=
  match PDF.bold g with
  | Some true => [star; star] ++ PDF.text g ++ [star; star]
  | _ =>
      match PDF.italic g with
      | Some true => [star] ++ PDF.text g ++ [star]
      | _ => PDF.text g
      end
  end.

Definition reassemble (segments : list PDF.Segment) : jsstring :=
  concat (map sourceOf segments).

Definition textOf (segments : list PDF.Segment) : jsstring :=
  concat (map PDF.text segments).

(** The input with all marker characters removed. *)
Definition withoutMarkers (s : jsstring) : jsstring := filter notStar s.

Definition noLineTerminator (s : jsstring) : Prop :=
  forallb (fun c => negb (isLineTerminator c)) s = true.

Definition headNotStar (s : jsstring) : Prop :=
  match s with
  | x :: _ => Ascii.eqb x star = false
  | [] => True
  end.

(** Inputs with balanced markers: a sequence of plain texts, bold spans and
    italic spans. *)
Inductive Item : Type :=
| PlainText (t : jsstring)
| BoldSpan (t : jsstring)
| ItalicSpan (t : jsstring).

Definition itemSource (i : Item) : jsstring :=
  match i with
  | PlainText t => t
  | BoldSpan t => [star; star] ++ t ++ [star; star]
  | ItalicSpan t => [star] ++ t ++ [star]
  end.

Definition itemSegment (i : Item) : PDF.Segment :=
  match i with
  | PlainText t => PDF.plainSegment t
  | BoldSpan t => PDF.boldSegment t
  | ItalicSpan t => PDF.italicSegment t
  end.

Definition itemsSource (items : list Item) : jsstring :=
  concat (map itemSource items).

Definition nonEmpty (t : jsstring) : bool :=
  match t with
  | [] => false
  | _ :: _ => true
  end.

(** Every text is non-empty and free of markers. *)
Definition balancedItem (i : Item) : bool :=
  match i with
  | PlainText t | BoldSpan t | ItalicSpan t => nonEmpty t && forallb notStar t
  end.

Definition balanced (items : list Item) : bool := forallb balancedItem items.

(** Balanced, and moreover: the text of a span holds no line terminator, an
    italic span is followed by plain text or by nothing, and plain texts do
    not follow one another. *)
Fixpoint separated (items : list Item) : bool :=
  match items with
  | [] => true
  | PlainText t :: rest =>
      nonEmpty t && forallb notStar t
      && match rest with
         | PlainText _ :: _ => false
         | _ => true
         end
      && separated rest
  | BoldSpan t :: rest =>
      nonEmpty t && forallb notStar t
      && forallb (fun c => negb (isLineTerminator c)) t
      && separated rest
  | ItalicSpan t :: rest =>
      nonEmpty t && forallb notStar t
      && forallb (fun c => negb (isLineTerminator c)) t
      && match rest with
         | [] | PlainText _ :: _ => true
         | _ => false
         end
      && separated rest
  end.

(** The run of the while loop of [parseInlineFormatting], as a relation
    between the segments and the remaining text at the head of the loop
    and the segments it ends with: the guard fails, or the round breaks out
    with the rest as one unstyled segment, or the round consumes a match and
    the loop goes on. *)
Inductive Loops : list PDF.Segment -> jsstring -> list PDF.Segment -> Prop :=
| Loops_done (segments : list PDF.Segment) :
    Loops segments [] segments
| Loops_break (segments : list PDF.Segment) (remaining : jsstring) :
    remaining <> [] ->
    match chooseMatch (js_match reBold remaining) (js_match reItalic remaining) with
    | Some (nextMatch, _) => truthy (m1 nextMatch) = false
    | None => True
    end ->
    Loops segments remaining (segments ++ [PDF.plainSegment remaining])
| Loops_next (segments : list PDF.Segment) (remaining : jsstring)
    (nextMatch : MatchResult) (isBold : bool) (result : list PDF.Segment) :
    remaining <> [] ->
    chooseMatch (js_match reBold remaining) (js_match reItalic remaining)
    = Some (nextMatch, isBold) ->
    truthy (m1 nextMatch) = true ->
    Loops ((segments ++ literalBefore nextMatch remaining)
             ++ [pdfStyled isBold (group1 nextMatch)])
      (afterMatch nextMatch remaining) result ->
    Loops segments remaining result.

(** ** The paged document *)

(** A drawing in one of the heading sizes (paragraph text is set in 12). *)
Definition headingDraw (op : PDF.TextOp) : Prop := PDF.size op <> 12.

(** Drawn at or above the bottom margin of a page of the given height. *)
Definition aboveBottomMargin (pageHeight : Q) (op : PDF.TextOp) : Prop :=
  (PDF.atY op <= pageHeight - 20)%Q.

(** The stand-in for the font metrics in the examples: two units a character. *)
Definition twoPerChar (f : PDF.FontStyle) (size : nat) (t : jsstring) : Q :=
  inject_Z (Z.of_nat (2 * length t)).

(** Eighteen first-level headings, then a paragraph of one long word. *)
Definition longWordAtPageEnd : jsstring :=
  concat (repeat (str "# h" ++ [nl]) 18) ++ repeat "W"%char 100.

(** What a piece of rendering adds to the document: the pages and the font
    size stay, and the new drawings are in that size, on the last page. *)
Definition draws (d d' : PDF.Doc) (new : list PDF.TextOp) : Prop :=
  PDF.pages d' = PDF.pages d /\ PDF.fontSize d' = PDF.fontSize d
  /\ PDF.drawn d' = PDF.drawn d ++ new
  /\ Forall (fun op => PDF.size op = PDF.fontSize d
                       /\ PDF.onPage op = PDF.pages d) new.

(** ** Global replacement and lines *)

(** Lines put together again, as [a.join(sep)] does. *)
Fixpoint join (sep : ascii) (a : list jsstring) : jsstring :=
  match a with
  | [] => []
  | [l] => l
  | l :: a' => l ++ sep :: join sep a'
  end.

(** [replaceAll], started in the middle of a string: [prev] is what lies
    before the position, nearest first. *)
Definition replaceFrom (r : regex) (p : replacement) (prev rest : jsstring)
  : jsstring :=
  replaceLoop (S (length rest)) r p prev rest.

Definition shiftMatch (k : nat) (m : MatchResult) : MatchResult :=
  mkMatch (k + index m) (m0 m) (m1 m).

Definition substituteCapture (p : replacement) (c : option jsstring) : jsstring :=
  substitute p (mkMatch 0 [] c).

Definition noNewline (s : jsstring) : Prop :=
  forallb (fun c => negb (Ascii.eqb c nl)) s = true.

(** An attempt that does not look beyond the end of the line. *)
Definition lineLocal (f : jsstring -> jsstring -> attempt) : Prop :=
  forall prev l tail, noNewline l -> f prev (l ++ nl :: tail) = f prev l.

(** An attempt that does not look at what lies before the position. *)
Definition contextFree (f : jsstring -> jsstring -> attempt) : Prop :=
  forall prev prev' rest, f prev rest = f prev' rest.

(** A pattern whose matches are a captured text between two copies of [d]. *)
Definition wraps (d : jsstring) (r : regex) : Prop :=
  forall prev rest c n,
    matchHere r prev rest = Some (c, n) ->
    exists mid post,
      rest = d ++ mid ++ d ++ post /\ c = Some mid
      /\ n = length mid + 2 * length d.

(** A position at the start of a line, for the m flag. *)
Definition atLineStart (prev : jsstring) : Prop :=
  match prev with
  | [] => True
  | p :: _ => isLineTerminator p = true
  end.

Definition insideLine (prev : jsstring) : Prop :=
  match prev with
  | [] => False
  | p :: _ => isLineTerminator p = false
  end.

(** The plain-text pipeline in the words of the specification: split at line
    feeds, trim each line, drop the prefix of a heading line, remove the bold
    and italic markers, join again, trim the whole. *)
Definition specPlainText (c : jsstring) : jsstring :=
  trim (join nl
          (map (fun raw => PDF.stripFormatting (PDF.ltext (specLine (trim raw))))
             (split nl c))).

(** What may follow a "#" or "##" that starts a clean line: a character
    that is not white space, or one space and then such a character. *)
Definition afterMarker (t : jsstring) : bool :=
  match t with
  | [] => false
  | c :: t' =>
      if isWhiteSpace c
      then Ascii.eqb c space
           && match t' with
              | d :: _ => negb (isWhiteSpace d)
              | [] => false
              end
      else true
  end.

Definition headingShape (l : jsstring) : bool :=
  match l with
  | [] => true
  | h :: t =>
      if Ascii.eqb h hash then
        match t with
        | c :: t' => if Ascii.eqb c hash then afterMarker t' else afterMarker t
        | [] => false
        end
      else true
  end.

Definition startsBlank (l : jsstring) : bool :=
  match l with
  | c :: _ => isWhiteSpace c
  | [] => false
  end.

(** A line that is already trimmed, holds no line terminator, and whose "#"
    or "##" at the start, if any, is followed as [afterMarker] says. *)
Definition cleanLine (l : jsstring) : bool :=
  negb (startsBlank l) && negb (startsBlank (rev l))
  && forallb (fun c => negb (isLineTerminator c)) l
  && headingShape l.

(** ** Letter case *)

(** A character and a lower-case letter that differ at most by case. *)
Definition sameLetter (c d : ascii) : Prop :=
  c = d \/ nat_of_ascii c + 32 = nat_of_ascii d.

Definition lowerLetter (d : ascii) : Prop :=
  97 <= nat_of_ascii d <= 122.

(** ** Vocabulary of the further properties *)

(** A segment without emphasis. *)
Definition unstyled (g : PDF.Segment) : Prop :=
  emphasisOf (PDF.bold g) (PDF.italic g) = NoEmphasis.

(** No two unstyled segments next to each other. *)
Fixpoint unstyledApart (segments : list PDF.Segment) : Prop :=
  match segments with
  | g :: rest =>
      match rest with
      | g' :: _ => ~ (unstyled g /\ unstyled g')
      | [] => True
      end /\ unstyledApart rest
  | [] => True
  end.

(** The text of a styled segment: no line terminator in it, and for an
    italic one no marker at either end. *)
Definition capturedShape (g : PDF.Segment) : Prop :=
  match emphasisOf (PDF.bold g) (PDF.italic g) with
  | NoEmphasis => True
  | Bold => noLineTerminator (PDF.text g)
  | Italic =>
      noLineTerminator (PDF.text g)
      /\ headNotStar (PDF.text g) /\ headNotStar (rev (PDF.text g))
  end.

(** A string of white space only. *)
Definition blank (s : jsstring) : Prop := forallb isWhiteSpace s = true.

(** The stretch of a line a run stands for, and the line a paragraph node
    stands for. *)
Definition runSource (t : DOCX.TextRun) : jsstring :=
  match DOCX.bold t with
  | Some true => [star; star] ++ DOCX.text t ++ [star; star]
  | _ =>
      match DOCX.italics t with
      | Some true => [star] ++ DOCX.text t ++ [star]
      | _ => DOCX.text t
      end
  end.

Definition paragraphSource (p : DOCX.Paragraph) : jsstring :=
  match p with
  | DOCX.ParagraphText t None => t
  | DOCX.ParagraphText t (Some DOCX.HEADING_1) => str "# " ++ t
  | DOCX.ParagraphText t (Some DOCX.HEADING_2) => str "## " ++ t
  | DOCX.ParagraphChildren children => concat (map runSource children)
  end.

(** What a node of a Word document looks like: a spacing paragraph is empty,
    a heading has text that does not end in white space, a body paragraph
    has runs and none of them is empty. *)
Definition wellFormedNode (p : DOCX.Paragraph) : Prop :=
  match p with
  | DOCX.ParagraphText t None => t = []
  | DOCX.ParagraphText t (Some _) => t <> [] /\ startsBlank (rev t) = false
  | DOCX.ParagraphChildren children =>
      children <> [] /\ Forall (fun r => DOCX.text r <> []) children
  end.

(** [a] is what is left of [b] after deleting some of its characters. *)
Inductive Subseq : jsstring -> jsstring -> Prop :=
| subseq_nil : Subseq [] []
| subseq_keep (x : ascii) (a b : jsstring) : Subseq a b -> Subseq (x :: a) (x :: b)
| subseq_drop (x : ascii) (a b : jsstring) : Subseq a b -> Subseq a (x :: b).

(** A replacement that only deletes: a match is not empty and what is put in
    its place is left of it after deleting characters. *)
Definition deletes (r : regex) (p : replacement) : Prop :=
  forall prev rest c n,
    matchHere r prev rest = Some (c, n) ->
    1 <= n <= length rest /\ Subseq (substituteCapture p c) (firstn n rest).

Definition hashFree (s : jsstring) : Prop :=
  forallb (fun c => negb (Ascii.eqb c hash)) s = true.

(** What the line parsers make of a line without markers. *)
Definition plainLine (l : jsstring) : PDF.Line :=
  match trim l with
  | [] => PDF.mkLine PDF.empty []
  | _ :: _ => PDF.mkLine PDF.paragraph (trim l)
  end.

Definition plainNode (l : jsstring) : DOCX.Paragraph :=
  match trim l with
  | [] => DOCX.ParagraphText [] None
  | _ :: _ => DOCX.ParagraphChildren [DOCX.plainRun (trim l)]
  end.

(** The two emphasis passes of the plain-text exporter. *)
Definition stripEmphasis (t : jsstring) : jsstring :=
  replaceAll reStripItalic Group1 (replaceAll reStripBold Group1 t).

(** The number of marker characters in a text. *)
Definition stars (s : jsstring) : nat := count_occ ascii_dec s star.

(** What is on the pages: a character with the font and the size it is
    drawn in. *)
Definition Glyph : Type := (PDF.FontStyle * nat * ascii)%type.

Definition inkOf (op : PDF.TextOp) : list Glyph :=
  map (fun c => (PDF.style op, PDF.size op, c)) (PDF.content op).

Definition segmentStyle (g : PDF.Segment) : PDF.FontStyle :=
  match emphasisOf (PDF.bold g) (PDF.italic g) with
  | Bold => PDF.fontBold
  | Italic => PDF.fontItalic
  | NoEmphasis => PDF.fontNormal
  end.

Definition segmentInk (size : nat) (g : PDF.Segment) : list Glyph :=
  map (fun c => (segmentStyle g, size, c)) (PDF.text g).

(** What a line of the document is to show: a heading bold in 20 or 16, a
    paragraph in 12 with each segment in the font of its emphasis. *)
Definition lineInk (line : PDF.Line) : list Glyph :=
  match PDF.type line with
  | PDF.h1 => map (fun c => (PDF.fontBold, 20, c)) (PDF.ltext line)
  | PDF.h2 => map (fun c => (PDF.fontBold, 16, c)) (PDF.ltext line)
  | PDF.paragraph =>
      flat_map (segmentInk 12) (PDF.parseInlineFormatting (PDF.ltext line))
  | PDF.empty => []
  end.

(** Where a drawing may stand: at or below the line [y], and either at the
    left margin [x] or so that it ends at or before the right margin. *)
Definition placed (getTextWidth : PDF.FontStyle -> nat -> jsstring -> Q)
    (x y : Q) (op : PDF.TextOp) : Prop :=
  (y <= PDF.atY op)%Q
  /\ (PDF.atX op = x
      \/ (PDF.atX op
          + getTextWidth (PDF.style op) (PDF.size op) (PDF.content op)
          <= x + PDF.maxWidth)%Q).

(** Drawings in the order of the pages, none before page [last]. *)
Fixpoint inPageOrder (last : nat) (ops : list PDF.TextOp) : Prop :=
  match ops with
  | [] => True
  | op :: rest => last <= PDF.onPage op /\ inPageOrder (PDF.onPage op) rest
  end.

(** The widths the wrap test adds up: a word as it is drawn (with the blank
    after it, but for the last word of its segment), the words of a segment
    in the font of the segment, the segments of a paragraph. *)
Definition wordWithSpace (n : nat) (iw : nat * jsstring) : jsstring :=
  if fst iw <? n - 1 then snd iw ++ [space] else snd iw.

Definition wordsWidth (getTextWidth : PDF.FontStyle -> nat -> jsstring -> Q)
    (f : PDF.FontStyle) (size n : nat) (iws : list (nat * jsstring)) : Q :=
  fold_right (fun iw acc => (getTextWidth f size (wordWithSpace n iw) + acc)%Q)
    0%Q iws.

Definition segmentWidth (getTextWidth : PDF.FontStyle -> nat -> jsstring -> Q)
    (size : nat) (g : PDF.Segment) : Q :=
  let words := split space (PDF.text g) in
  wordsWidth getTextWidth (segmentStyle g) size (length words)
    (combine (seq 0 (length words)) words).

Definition paragraphWidth (getTextWidth : PDF.FontStyle -> nat -> jsstring -> Q)
    (size : nat) (t : jsstring) : Q :=
  fold_right (fun g acc => (segmentWidth getTextWidth size g + acc)%Q) 0%Q
    (PDF.parseInlineFormatting t).

(** A line whose paragraph text, if it is one, is no wider than a row. *)
Definition fitsRow (getTextWidth : PDF.FontStyle -> nat -> jsstring -> Q)
    (line : PDF.Line) : Prop :=
  PDF.type line = PDF.paragraph ->
  (paragraphWidth getTextWidth 12 (PDF.ltext line) <= PDF.maxWidth)%Q.

(** The state of the word loop keeps to the right of [x]. *)
Definition keepsLeft (x : Q) (st : PDF.Doc * Q * Q) : Prop :=
  (x <= snd (fst st))%Q
  /\ Forall (fun op => (x <= PDF.atX op)%Q) (PDF.drawn (fst (fst st))).

(** The line of the paged document that a node of the Word document stands
    for. *)
Definition lineOfNode (p : DOCX.Paragraph) : PDF.Line :=
  match p with
  | DOCX.ParagraphText _ None => PDF.mkLine PDF.empty []
  | DOCX.ParagraphText t (Some DOCX.HEADING_1) =>
      PDF.mkLine PDF.h1 (PDF.stripFormatting t)
  | DOCX.ParagraphText t (Some DOCX.HEADING_2) =>
      PDF.mkLine PDF.h2 (PDF.stripFormatting t)
  | DOCX.ParagraphChildren children =>
      PDF.mkLine PDF.paragraph (concat (map runSource children))
  end.

(** Reading order: a place (page [p], height [y]) is not after another when
    it is on an earlier page, or on the same page and not below it. *)
Definition notAfter (p : nat) (y : Q) (q : nat) (z : Q) : Prop :=
  p < q \/ (p = q /\ (y <= z)%Q).

Fixpoint inReadingOrder (p : nat) (y : Q) (ops : list PDF.TextOp) : Prop :=
  match ops with
  | [] => True
  | op :: rest =>
      notAfter p y (PDF.onPage op) (PDF.atY op)
      /\ inReadingOrder (PDF.onPage op) (PDF.atY op) rest
  end.

(** A piece of rendering that takes the document and the cursor from [s] to
    [s']: it only adds drawings, in reading order, between the two places. *)
Definition advances (s s' : PDF.Doc * Q) : Prop :=
  exists new,
    PDF.drawn (fst s') = PDF.drawn (fst s) ++ new
    /\ notAfter (PDF.pages (fst s)) (snd s) (PDF.pages (fst s')) (snd s')
    /\ Forall (fun op => notAfter (PDF.onPage op) (PDF.atY op)
                           (PDF.pages (fst s')) (snd s')) new
    /\ inReadingOrder (PDF.pages (fst s)) (snd s) new.

(** The document and the height of the cursor in the state of the word
    loop. *)
Definition docAndHeight (st : PDF.Doc * Q * Q) : PDF.Doc * Q :=
  (fst (fst st), snd st).

(** ** Rows of a paragraph *)

(** The width of a drawing in the font it is drawn in. *)
Definition opWidth (getTextWidth : PDF.FontStyle -> nat -> jsstring -> Q)
    (op : PDF.TextOp) : Q :=
  getTextWidth (PDF.style op) (PDF.size op) (PDF.content op).

(** The words of a paragraph, row after row, from the cursor ([cx], [cy]):
    a word that would end beyond the right margin goes to the left margin
    [x] of the next row, [lh] lower; any other word is drawn at the cursor;
    the cursor then stands at the end of the word. *)
Fixpoint rowChain (getTextWidth : PDF.FontStyle -> nat -> jsstring -> Q)
    (x lh cx cy : Q) (ops : list PDF.TextOp) : Prop :=
  match ops with
  | [] => True
  | op :: rest =>
      (if PDF.gt (cx + opWidth getTextWidth op) (x + PDF.maxWidth)
       then PDF.atX op = x /\ PDF.atY op = (cy + lh)%Q
       else PDF.atX op = cx /\ PDF.atY op = cy)
      /\ rowChain getTextWidth x lh
           (PDF.atX op + opWidth getTextWidth op)%Q (PDF.atY op) rest
  end.

(** Where the cursor stands after the words. *)
Fixpoint chainEnd (getTextWidth : PDF.FontStyle -> nat -> jsstring -> Q)
    (cx cy : Q) (ops : list PDF.TextOp) : Q * Q :=
  match ops with
  | [] => (cx, cy)
  | op :: rest =>
      chainEnd getTextWidth (PDF.atX op + opWidth getTextWidth op)%Q
        (PDF.atY op) rest
  end.

(** The words up to the first one that the wrap test moves. *)
Fixpoint beforeWrap (getTextWidth : PDF.FontStyle -> nat -> jsstring -> Q)
    (x cx : Q) (ops : list PDF.TextOp) : list PDF.TextOp :=
  match ops with
  | [] => []
  | op :: rest =>
      if PDF.gt (cx + opWidth getTextWidth op) (x + PDF.maxWidth) then []
      else op :: beforeWrap getTextWidth x
                   (cx + opWidth getTextWidth op)%Q rest
  end.

(** What a line draws when its rendering starts with the cursor at height
    [y]: a heading one text at the left margin and at [y], a paragraph its
    words row after row from there, an empty line nothing. *)
Definition lineRows (getTextWidth : PDF.FontStyle -> nat -> jsstring -> Q)
    (y : Q) (line : PDF.Line) (new : list PDF.TextOp) : Prop :=
  match PDF.type line with
  | PDF.h1 | PDF.h2 =>
      exists op, new = [op] /\ PDF.atX op = 20%Q /\ PDF.atY op = y
  | PDF.paragraph => rowChain getTextWidth 20 PDF.lineHeight 20 y new
  | PDF.empty => new = []
  end.

(** The drawings of a line that no wrap has moved: all of a heading, and of
    a paragraph the words up to its first wrap. *)
Definition unwrapped (getTextWidth : PDF.FontStyle -> nat -> jsstring -> Q)
    (line : PDF.Line) (new : list PDF.TextOp) : list PDF.TextOp :=
  match PDF.type line with
  | PDF.paragraph => beforeWrap getTextWidth 20 20 new
  | _ => new
  end.

(** The drawings of a line of a document: laid out from a cursor between the
    top and the bottom margin, those that no wrap has moved at that
    cursor. *)
Definition lineDrawings (pageHeight : Q)
    (getTextWidth : PDF.FontStyle -> nat -> jsstring -> Q)
    (line : PDF.Line) (new : list PDF.TextOp) : Prop :=
  exists y,
    (20 <= y)%Q /\ (y <= pageHeight - 20)%Q
    /\ lineRows getTextWidth y line new
    /\ Forall (fun op => PDF.atY op = y /\ aboveBottomMargin pageHeight op)
         (unwrapped getTextWidth line new).

(** Nineteen first-level headings, which take the cursor beyond the bottom
    margin of a page of height 297, then a paragraph. *)
Definition twoPageDocument : jsstring :=
  concat (repeat (str "# h" ++ [nl]) 19) ++ str "some **bold** words".

(** * Properties *)

(** ** The matcher *)

Lemma lazyLoop_sound (k : charClass) (cont : jsstring -> jsstring -> attempt) :
  forall rest taken need prev c n,
    lazyLoop k cont taken need prev rest = Some (c, n) ->
    exists mid post c' n',
      rest = mid ++ post /\ c = Some (rev taken ++ mid) /\
      need <= length mid /\ forallb (classMatches k) mid = true /\
      cont (rev mid ++ prev) post = Some (c', n') /\
      n = length taken + length mid + n'.
Proof.
  induction rest as [|x rest IH]; intros taken need prev c n H; simpl in H.
  - destruct need; [|discriminate].
    destruct (cont prev []) as [[c' n']|] eqn:E; [|discriminate].
    inversion H; subst.
    exists [], [], c', n'. simpl. rewrite !app_nil_r. repeat split; auto; lia.
  - destruct (match need with 0 => cont prev (x :: rest) | S _ => None end)
      as [[c' n']|] eqn:E.
    + destruct need; [|discriminate]. inversion H; subst.
      exists [], (x :: rest), c', n'. simpl. rewrite !app_nil_r.
      repeat split; auto; lia.
    + destruct (classMatches k x) eqn:Ek; [|discriminate].
      apply IH in H. destruct H as (mid & post & c' & n' & -> & -> & Hn & Hall & Hc & ->).
      exists (x :: mid), post, c', n'. simpl. rewrite Ek, Hall.
      rewrite <- !app_assoc. simpl.
      repeat split; auto; lia.
Qed.

Lemma searchFrom_spec (r : regex) :
  forall rest prev idx m,
    searchFrom r prev rest idx = Some m ->
    exists pre post n,
      rest = pre ++ post /\ index m = idx + length pre /\
      matchHere r (rev pre ++ prev) post = Some (m1 m, n) /\
      m0 m = firstn n post.
Proof.
  induction rest as [|x rest IH]; intros prev idx m H; simpl in H.
  - destruct (matchHere r prev []) as [[c n]|] eqn:E; [|discriminate].
    inversion H; subst; simpl.
    exists [], [], n. simpl. repeat split; auto.
  - destruct (matchHere r prev (x :: rest)) as [[c n]|] eqn:E.
    + inversion H; subst; simpl.
      exists [], (x :: rest), n. simpl. repeat split; auto.
    + apply IH in H. destruct H as (pre & post & n & -> & Hi & Hm & H0).
      exists (x :: pre), post, n. simpl. rewrite <- app_assoc. simpl.
      repeat split; auto. lia.
Qed.

(** The attempts before the leftmost match all fail. *)
Lemma searchFrom_leftmost (r : regex) :
  forall pre post prev idx c n,
    (forall a b, pre = a ++ b -> b <> [] ->
                 matchHere r (rev a ++ prev) (b ++ post) = None) ->
    matchHere r (rev pre ++ prev) post = Some (c, n) ->
    searchFrom r prev (pre ++ post) idx
    = Some (mkMatch (idx + length pre) (firstn n post) c).
Proof.
  induction pre as [|x pre IH]; intros post prev idx c n Hfail Hm; simpl in *.
  - destruct post; simpl; rewrite Hm; rewrite Nat.add_0_r; reflexivity.
  - assert (H0 := Hfail [] (x :: pre) eq_refl). simpl in H0.
    rewrite H0 by discriminate.
    rewrite <- app_assoc in Hm. simpl in Hm.
    rewrite (IH post (x :: prev) (S idx) c n); auto.
    + f_equal. f_equal. lia.
    + intros a b -> Hb. specialize (Hfail (x :: a) b eq_refl Hb).
      simpl in Hfail. rewrite <- app_assoc in Hfail. exact Hfail.
Qed.

(** No match at all when every attempt fails. *)
Lemma searchFrom_none (r : regex) :
  forall rest prev idx,
    (forall a b, rest = a ++ b -> matchHere r (rev a ++ prev) b = None) ->
    searchFrom r prev rest idx = None.
Proof.
  induction rest as [|x rest IH]; intros prev idx Hfail; simpl.
  - assert (H0 := Hfail [] [] eq_refl). simpl in H0. rewrite H0. reflexivity.
  - assert (H0 := Hfail [] (x :: rest) eq_refl). simpl in H0. rewrite H0.
    apply IH. intros a b ->. specialize (Hfail (x :: a) b eq_refl).
    simpl in Hfail. rewrite <- app_assoc in Hfail. exact Hfail.
Qed.

Lemma searchFrom_index_ge (r : regex) :
  forall rest prev idx m,
    searchFrom r prev rest idx = Some m -> idx <= index m.
Proof.
  intros rest prev idx m H. apply searchFrom_spec in H.
  destruct H as (pre & post & n & _ & Hi & _). lia.
Qed.

Lemma eqb_star (x : ascii) : Ascii.eqb x star = true -> x = star.
Proof. apply Ascii.eqb_eq. Qed.

(** The shape of a successful attempt of the bold pattern. *)
Lemma reBold_here (prev rest : jsstring) (c : option jsstring) (n : nat) :
  matchHere reBold prev rest = Some (c, n) ->
  exists mid post,
    rest = star :: star :: mid ++ star :: star :: post /\
    c = Some mid /\ mid <> [] /\ n = length mid + 4.
Proof.
  unfold reBold. intros H. simpl in H.
  destruct rest as [|a rest]; [discriminate|].
  destruct (Ascii.eqb a star) eqn:Ea; [|discriminate].
  destruct rest as [|b rest]; [discriminate|].
  destruct (Ascii.eqb b star) eqn:Eb; [|discriminate].
  apply eqb_star in Ea, Eb. subst a b.
  match type of H with
  | match match ?L with _ => _ end with _ => _ end = _ =>
      destruct L as [[c1 n1]|] eqn:EL; [|discriminate]
  end.
  inversion H; subst; clear H.
  apply lazyLoop_sound in EL.
  destruct EL as (mid & post & c' & n' & -> & -> & Hn & _ & Hc & ->).
  simpl in Hc.
  destruct post as [|p post]; [discriminate|].
  destruct (Ascii.eqb p star) eqn:Ep; [|discriminate].
  destruct post as [|q post]; [discriminate|].
  destruct (Ascii.eqb q star) eqn:Eq; [|discriminate].
  apply eqb_star in Ep, Eq. subst p q. inversion Hc; subst.
  exists mid, post. simpl.
  repeat split; auto; try lia; intros ->; simpl in Hn; lia.
Qed.

(** The shape of a successful attempt of the italic pattern. *)
Lemma reItalic_here (prev rest : jsstring) (c : option jsstring) (n : nat) :
  matchHere reItalic prev rest = Some (c, n) ->
  exists mid post,
    rest = star :: mid ++ star :: post /\
    c = Some mid /\ mid <> [] /\ n = length mid + 2.
Proof.
  unfold reItalic. intros H.
  assert (H' : matchHere [Lit star; NotAhead star; GroupLazy 1 AnyChar;
                          NotBehind star; Lit star; NotAhead star] prev rest
               = Some (c, n)).
  { simpl in H. destruct prev as [|p prev].
    - exact H.
    - destruct (Ascii.eqb p star); [discriminate|exact H]. }
  clear H. simpl in H'.
  destruct rest as [|a rest]; [discriminate|].
  destruct (Ascii.eqb a star) eqn:Ea; [|discriminate].
  apply eqb_star in Ea. subst a.
  match type of H' with
  | match ?L with _ => _ end = _ =>
      destruct L as [[c1 n1]|] eqn:EL; [|discriminate]
  end.
  inversion H'; subst; clear H'.
  assert (EL' : lazyLoop AnyChar
                  (matchHere [NotBehind star; Lit star; NotAhead star])
                  [] 1 (star :: prev) rest = Some (c, n1)).
  { destruct rest as [|b rest].
    - exact EL.
    - destruct (Ascii.eqb b star); [discriminate|exact EL]. }
  clear EL. apply lazyLoop_sound in EL'.
  destruct EL' as (mid & post & c' & n' & -> & -> & Hn & _ & Hc & ->).
  assert (Hc' : matchHere [Lit star; NotAhead star] (rev mid ++ star :: prev) post
                = Some (c', n')).
  { simpl in Hc. destruct (rev mid ++ star :: prev) as [|p l].
    - exact Hc.
    - destruct (Ascii.eqb p star); [discriminate|exact Hc]. }
  clear Hc. simpl in Hc'.
  destruct post as [|p post]; [discriminate|].
  destruct (Ascii.eqb p star) eqn:Ep; [|discriminate].
  apply eqb_star in Ep. subst p.
  assert (n' = 1).
  { destruct post as [|q post].
    - inversion Hc'; reflexivity.
    - destruct (Ascii.eqb q star); [discriminate|]. inversion Hc'; reflexivity. }
  subst n'.
  exists mid, post. simpl.
  repeat split; auto; try lia; intros ->; simpl in Hn; lia.
Qed.

Lemma firstn_app_exact {A : Type} (l1 l2 : list A) (n : nat) :
  n = length l1 -> firstn n (l1 ++ l2) = l1.
Proof.
  intros ->. rewrite firstn_app, Nat.sub_diag, firstn_all. simpl.
  apply app_nil_r.
Qed.

Lemma skipn_app_exact {A : Type} (l1 l2 : list A) (n : nat) :
  n = length l1 -> skipn n (l1 ++ l2) = l2.
Proof.
  intros ->. rewrite skipn_app, Nat.sub_diag, skipn_all. reflexivity.
Qed.

Lemma js_match_reBold_shape (s : jsstring) (m : MatchResult) :
  js_match reBold s = Some m -> delimited [star; star] s m.
Proof.
  unfold js_match. intros H. apply searchFrom_spec in H.
  destruct H as (pre & post & n & -> & Hi & Hm & H0).
  apply reBold_here in Hm. destruct Hm as (mid & post' & -> & Hc & Hne & ->).
  exists pre, mid, post'. simpl. repeat split; auto.
  rewrite H0.
  change (star :: star :: mid ++ star :: star :: post')
    with ([star; star] ++ mid ++ [star; star] ++ post').
  rewrite 2 app_assoc. rewrite firstn_app_exact.
  - rewrite <- app_assoc. reflexivity.
  - rewrite !length_app. simpl. lia.
Qed.

Lemma js_match_reItalic_shape (s : jsstring) (m : MatchResult) :
  js_match reItalic s = Some m -> delimited [star] s m.
Proof.
  unfold js_match. intros H. apply searchFrom_spec in H.
  destruct H as (pre & post & n & -> & Hi & Hm & H0).
  apply reItalic_here in Hm. destruct Hm as (mid & post' & -> & Hc & Hne & ->).
  exists pre, mid, post'. simpl. repeat split; auto.
  rewrite H0.
  change (star :: mid ++ star :: post') with ([star] ++ mid ++ [star] ++ post').
  rewrite 2 app_assoc. rewrite firstn_app_exact.
  - rewrite <- app_assoc. reflexivity.
  - rewrite !length_app. simpl. lia.
Qed.

(** What the parsers read off a delimited match. *)
Lemma delimited_parts (d s : jsstring) (m : MatchResult) :
  delimited d s m ->
  exists pre mid post,
    s = pre ++ d ++ mid ++ d ++ post /\ mid <> [] /\
    truthy (m1 m) = true /\ group1 m = mid /\
    index m = length pre /\
    substring_to (index m) s = pre /\
    substring_from (index m + length (m0 m)) s = post.
Proof.
  intros (pre & mid & post & Hs & Hi & H0 & H1 & Hne).
  exists pre, mid, post. unfold group1, substring_to, substring_from.
  rewrite H1, H0, Hi. subst s.
  repeat split; auto.
  - destruct mid; [contradiction|reflexivity].
  - apply firstn_app_exact. reflexivity.
  - replace (pre ++ d ++ mid ++ d ++ post)
      with ((pre ++ d ++ mid ++ d) ++ post)
      by (rewrite <- !app_assoc; reflexivity).
    apply skipn_app_exact. rewrite !length_app. lia.
Qed.

(** The match an iteration works on, and the delimiter it was found with. *)
Lemma chooseMatch_shape (s : jsstring) (m : MatchResult) (isBold : bool) :
  chooseMatch (js_match reBold s) (js_match reItalic s) = Some (m, isBold) ->
  delimited (if isBold then [star; star] else [star]) s m.
Proof.
  unfold chooseMatch.
  destruct (js_match reBold s) as [b|] eqn:Eb;
    destruct (js_match reItalic s) as [i|] eqn:Ei; intros H.
  - destruct (index b <=? index i); inversion H; subst.
    + apply js_match_reBold_shape; assumption.
    + apply js_match_reItalic_shape; assumption.
  - inversion H; subst. apply js_match_reBold_shape; assumption.
  - inversion H; subst. apply js_match_reItalic_shape; assumption.
  - discriminate.
Qed.

(** ** The inline-emphasis parser of the paged renderer *)

Lemma pdf_parseLoop_acc :
  forall fuel acc rem,
    PDF.parseLoop fuel acc rem = acc ++ PDF.parseLoop fuel [] rem.
Proof.
  induction fuel as [|fuel IH]; intros acc rem; simpl.
  - rewrite app_nil_r. reflexivity.
  - destruct rem as [|x rem]; [rewrite app_nil_r; reflexivity|].
    destruct (chooseMatch _ _) as [[m b]|].
    + destruct (truthy (m1 m)).
      * rewrite IH. symmetry. rewrite IH. symmetry.
        destruct (0 <? index m), b; simpl; rewrite <- ?app_assoc; reflexivity.
      * reflexivity.
    + reflexivity.
Qed.

Lemma pdf_parseLoop_fuel :
  forall f1 f2 acc rem,
    length rem <= f1 -> length rem <= f2 ->
    PDF.parseLoop f1 acc rem = PDF.parseLoop f2 acc rem.
Proof.
  induction f1 as [|f1 IH]; intros f2 acc rem H1 H2.
  - destruct rem; [|simpl in H1; lia]. destruct f2; reflexivity.
  - destruct rem as [|x rem]; [destruct f2; reflexivity|].
    destruct f2 as [|f2]; [simpl in H2; lia|].
    cbn [PDF.parseLoop].
    destruct (chooseMatch _ _) as [[m b]|] eqn:E; [|reflexivity].
    destruct (truthy (m1 m)); [|reflexivity].
    apply chooseMatch_shape, delimited_parts in E.
    destruct E as (pre & mid & post & Hs & Hne & _ & _ & _ & _ & ->).
    assert (length post < length (x :: rem)).
    { rewrite Hs, !length_app. destruct mid; [contradiction|].
      destruct b; simpl; lia. }
    simpl in *. apply IH; lia.
Qed.

(** One iteration that finds a match: the literal text before it (if any),
    the captured text in its style, then the parse of what follows. *)
Lemma pdf_parse_step (s : jsstring) (m : MatchResult) (isBold : bool) :
  chooseMatch (js_match reBold s) (js_match reItalic s) = Some (m, isBold) ->
  PDF.parseInlineFormatting s
  = (if 0 <? index m
     then [PDF.plainSegment (substring_to (index m) s)] else [])
    ++ pdfStyled isBold (group1 m)
    :: PDF.parseInlineFormatting
         (substring_from (index m + length (m0 m)) s).
Proof.
  intros E. unfold PDF.parseInlineFormatting.
  pose proof (chooseMatch_shape _ _ _ E) as Hd.
  apply delimited_parts in Hd.
  destruct Hd as (pre & mid & post & Hs & Hne & Ht & Hg & Hi & Hpre & Hpost).
  destruct s as [|x s].
  { destruct pre; [destruct isBold|]; discriminate. }
  cbn [length PDF.parseLoop]. rewrite E, Ht.
  rewrite pdf_parseLoop_acc.
  rewrite (pdf_parseLoop_fuel (length s) (length (substring_from
             (index m + length (m0 m)) (x :: s)))); auto.
  - destruct (0 <? index m), isBold; simpl; reflexivity.
  - rewrite Hpost. apply (f_equal (@length ascii)) in Hs.
    rewrite !length_app in Hs. destruct mid; [contradiction|].
    destruct isBold; simpl in Hs; lia.
Qed.

(** The last iteration: no match, and the rest is one unstyled segment. *)
Lemma pdf_parse_nomatch (s : jsstring) :
  s <> [] ->
  chooseMatch (js_match reBold s) (js_match reItalic s) = None ->
  PDF.parseInlineFormatting s = [PDF.plainSegment s].
Proof.
  intros Hne E. unfold PDF.parseInlineFormatting.
  destruct s as [|x s]; [contradiction|].
  cbn [length PDF.parseLoop]. rewrite E. reflexivity.
Qed.

(** The attempts at the positions before a match all fail: the match is the
    earliest one. *)
Lemma searchFrom_earliest (r : regex) :
  forall rest prev idx m,
    searchFrom r prev rest idx = Some m ->
    forall j, idx + j < index m ->
      matchHere r (rev (firstn j rest) ++ prev) (skipn j rest) = None.
Proof.
  induction rest as [|x rest IH]; intros prev idx m H j Hj; simpl in H.
  - destruct (matchHere r prev []) as [[c n]|] eqn:E; [|discriminate].
    inversion H; subst; simpl in Hj. lia.
  - destruct (matchHere r prev (x :: rest)) as [[c n]|] eqn:E.
    + inversion H; subst; simpl in Hj. lia.
    + destruct j as [|j]; [exact E|].
      simpl. rewrite <- app_assoc. simpl.
      apply (IH (x :: prev) (S idx) m H). lia.
Qed.

Lemma js_match_earliest (r : regex) (s : jsstring) (m : MatchResult) :
  js_match r s = Some m ->
  forall j, j < index m ->
    matchHere r (rev (firstn j s)) (skipn j s) = None.
Proof.
  intros H j Hj. rewrite <- (app_nil_r (rev (firstn j s))).
  apply (searchFrom_earliest r s [] 0 m H). simpl. exact Hj.
Qed.

(** ** The two inline-emphasis parsers side by side *)

Lemma docx_parseLoop_pdf :
  forall fuel acc rem,
    DOCX.parseLoop fuel (map runOfSegment acc) rem
    = map runOfSegment (PDF.parseLoop fuel acc rem).
Proof.
  induction fuel as [|fuel IH]; intros acc rem; simpl; [reflexivity|].
  destruct rem as [|x rem]; [reflexivity|].
  destruct (chooseMatch _ _) as [[m b]|].
  - destruct (truthy (m1 m)).
    + rewrite <- IH. f_equal.
      destruct (0 <? index m), b; rewrite ?map_app; reflexivity.
    + destruct (0 <? _); rewrite ?map_app; reflexivity.
  - destruct (0 <? _); rewrite ?map_app; reflexivity.
Qed.

Lemma pdf_parse_nonempty (s : jsstring) :
  s <> [] -> PDF.parseInlineFormatting s <> [].
Proof.
  intros Hne.
  destruct (chooseMatch (js_match reBold s) (js_match reItalic s))
    as [[m b]|] eqn:E.
  - rewrite (pdf_parse_step s m b E).
    destruct (0 <? index m); simpl; discriminate.
  - rewrite (pdf_parse_nomatch s Hne E). discriminate.
Qed.

Lemma docx_parse_pdf (s : jsstring) :
  s <> [] ->
  DOCX.parseInlineFormatting s = map runOfSegment (PDF.parseInlineFormatting s).
Proof.
  intros Hne. unfold DOCX.parseInlineFormatting.
  change (DOCX.parseLoop (length s) [] s)
    with (DOCX.parseLoop (length s) (map runOfSegment []) s).
  rewrite docx_parseLoop_pdf.
  fold (PDF.parseInlineFormatting s).
  pose proof (pdf_parse_nonempty s Hne) as H.
  destruct (PDF.parseInlineFormatting s); [contradiction|reflexivity].
Qed.

(** C10: on every non-empty input the parser of PDFExporter and the parser of
    DOCXExporter produce the same sequence: the runs are the segments, text
    by text and flag by flag (bold for bold, italics for italic), and so the
    same (text, emphasis) pairs in the same order. *)
Theorem parsers_equivalent (s : jsstring) :
  s <> [] ->
  DOCX.parseInlineFormatting s = map runOfSegment (PDF.parseInlineFormatting s)
  /\ map docxView (DOCX.parseInlineFormatting s)
     = map pdfView (PDF.parseInlineFormatting s).
Proof.
  intros Hne. split.
  - apply docx_parse_pdf; assumption.
  - rewrite (docx_parse_pdf s Hne), map_map. apply map_ext.
    intros g. reflexivity.
Qed.

Lemma parsers_equivalent_witness :
  DOCX.parseInlineFormatting (str "**a** and *b*")
  = map runOfSegment (PDF.parseInlineFormatting (str "**a** and *b*"))
  /\ map docxView (DOCX.parseInlineFormatting (str "**a** and *b*"))
     = map pdfView (PDF.parseInlineFormatting (str "**a** and *b*")).
Proof.
  apply (parsers_equivalent (str "**a** and *b*")). discriminate.
Defined.

(** C4: each round of the inline-emphasis parser takes the earliest bold
    match and the earliest italic match of the unconsumed text; the bold one
    is the token when it exists and starts at or before the italic one, the
    italic one otherwise; the text before the token becomes an unstyled
    segment, the captured text a bold or italic one, and the parser goes on
    after the token; without a match the rest is one unstyled segment.  On
    "**a** and *b*" the segments are bold "a", unstyled " and ", italic "b". *)
Theorem emphasis_algorithm :
  (forall r s m, js_match r s = Some m ->
     forall j, j < index m ->
       matchHere r (rev (firstn j s)) (skipn j s) = None)
  /\ (forall s b, js_match reBold s = Some b ->
        (forall i, js_match reItalic s = Some i -> index b <= index i) ->
        PDF.parseInlineFormatting s
        = literalBefore b s ++ PDF.boldSegment (group1 b)
            :: PDF.parseInlineFormatting (afterMatch b s))
  /\ (forall s i, js_match reItalic s = Some i ->
        (forall b, js_match reBold s = Some b -> index i < index b) ->
        PDF.parseInlineFormatting s
        = literalBefore i s ++ PDF.italicSegment (group1 i)
            :: PDF.parseInlineFormatting (afterMatch i s))
  /\ (forall s, s <> [] ->
        js_match reBold s = None -> js_match reItalic s = None ->
        PDF.parseInlineFormatting s = [PDF.plainSegment s])
  /\ PDF.parseInlineFormatting [] = []
  /\ PDF.parseInlineFormatting (str "**a** and *b*")
     = [PDF.boldSegment (str "a"); PDF.plainSegment (str " and ");
        PDF.italicSegment (str "b")]
  /\ DOCX.parseInlineFormatting (str "**a** and *b*")
     = [DOCX.boldRun (str "a"); DOCX.plainRun (str " and ");
        DOCX.italicRun (str "b")].
Proof.
  split; [exact js_match_earliest|].
  split.
  { intros s b Hb Hi.
    apply (pdf_parse_step s b true). unfold chooseMatch. rewrite Hb.
    destruct (js_match reItalic s) as [i|]; [|reflexivity].
    specialize (Hi i eq_refl). apply Nat.leb_le in Hi. rewrite Hi. reflexivity. }
  split.
  { intros s i Hi Hb.
    apply (pdf_parse_step s i false). unfold chooseMatch. rewrite Hi.
    destruct (js_match reBold s) as [b|]; [|reflexivity].
    specialize (Hb b eq_refl).
    apply Nat.leb_gt in Hb. rewrite Hb. reflexivity. }
  split.
  { intros s Hne Hb Hi. apply pdf_parse_nomatch; [assumption|].
    rewrite Hb, Hi. reflexivity. }
  repeat split; reflexivity.
Qed.

Lemma emphasis_algorithm_witness :
  PDF.parseInlineFormatting (str "x**a**")
  = [PDF.plainSegment (str "x"); PDF.boldSegment (str "a")].
Proof.
  destruct emphasis_algorithm as (_ & Hbold & _).
  exact (Hbold (str "x**a**") (mkMatch 1 (str "**a**") (Some (str "a")))
           eq_refl (fun i H => False_ind _ (eq_ind None
              (fun o => match o with Some _ => False | None => True end)
              I _ H))).
Defined.

(** ** The structured renderer: paragraph nodes *)

Lemma docx_parseLine_acc (acc : list DOCX.Paragraph) (line : jsstring) :
  DOCX.parseLine acc line = acc ++ DOCX.parseLine [] line.
Proof.
  unfold DOCX.parseLine. destruct (trim line); [reflexivity|].
  destruct (startsWith _ _); [reflexivity|].
  destruct (startsWith _ _); reflexivity.
Qed.

Lemma docx_parseMarkdown_lines :
  forall lines acc,
    fold_left DOCX.parseLine lines acc
    = acc ++ flat_map (DOCX.parseLine []) lines.
Proof.
  induction lines as [|l lines IH]; intros acc; simpl.
  - rewrite app_nil_r. reflexivity.
  - rewrite IH, docx_parseLine_acc, <- app_assoc. reflexivity.
Qed.

Lemma docx_parse_has_run (t : jsstring) : DOCX.parseInlineFormatting t <> [].
Proof.
  unfold DOCX.parseInlineFormatting.
  destruct (DOCX.parseLoop (length t) [] t); simpl; discriminate.
Qed.

Lemma docx_parseLine_node (l : jsstring) :
  exists p, DOCX.parseLine [] l = [p] /\ nodeOfLine l p.
Proof.
  unfold DOCX.parseLine, nodeOfLine, paragraphLine.
  destruct (trim l) as [|a t].
  { eexists. split; [reflexivity|]. split.
    - intros [H _]. contradiction.
    - intros _. eexists. eexists. reflexivity. }
  destruct (startsWith (str "# ") (a :: t)) eqn:E1.
  { eexists. split; [reflexivity|]. split.
    - intros (_ & H & _). discriminate.
    - intros _. eexists. eexists. reflexivity. }
  destruct (startsWith (str "## ") (a :: t)) eqn:E2.
  { eexists. split; [reflexivity|]. split.
    - intros (_ & _ & H). discriminate.
    - intros _. eexists. eexists. reflexivity. }
  eexists. split; [reflexivity|]. split.
  - intros _. split; [reflexivity|apply docx_parse_has_run].
  - intros H. exfalso. apply H. repeat split; discriminate.
Qed.

(** C9: a paragraph node built from a Paragraph line always holds a run.  A
    line that after trimming is neither empty nor a heading becomes a node
    with children, the children being what the inline parser returns for
    the trimmed line; the inline parser never returns an empty list, and
    when its loop leaves no run it returns the single run with the empty
    text.  So in every document the node of each Paragraph line has a run
    list that is not empty (the other lines give nodes without children),
    and no node of a document has an empty run list. *)
Theorem paragraph_has_run :
  (forall t, DOCX.parseInlineFormatting t <> [])
  /\ (forall t, DOCX.parseLoop (length t) [] t = [] ->
                DOCX.parseInlineFormatting t = [DOCX.plainRun []])
  /\ DOCX.parseInlineFormatting [] = [DOCX.plainRun []]
  /\ (forall paragraphs l, paragraphLine (trim l) ->
        DOCX.parseLine paragraphs l
        = paragraphs
          ++ [DOCX.ParagraphChildren (DOCX.parseInlineFormatting (trim l))])
  /\ (forall c,
        Forall2 nodeOfLine (split nl c) (DOCX.parseMarkdownToDocx c))
  /\ (forall c, Forall hasRun (DOCX.parseMarkdownToDocx c)).
Proof.
  split; [exact docx_parse_has_run|].
  split.
  { intros t H. unfold DOCX.parseInlineFormatting. rewrite H. reflexivity. }
  split; [reflexivity|].
  split.
  { intros paragraphs l (Hne & H1 & H2). unfold DOCX.parseLine.
    destruct (trim l) as [|a t]; [contradiction|].
    rewrite H1, H2. reflexivity. }
  split.
  { intros c. unfold DOCX.parseMarkdownToDocx.
    rewrite docx_parseMarkdown_lines. cbn [app].
    induction (split nl c) as [|l lines IH]; [constructor|].
    cbn [flat_map]. destruct (docx_parseLine_node l) as (p & -> & Hp).
    constructor; assumption. }
  intros c. unfold DOCX.parseMarkdownToDocx.
  rewrite docx_parseMarkdown_lines. simpl.
  induction (split nl c) as [|l lines IH]; simpl; [constructor|].
  apply Forall_app. split; [|exact IH].
  unfold DOCX.parseLine. destruct (trim l) as [|a t].
  - repeat constructor.
  - destruct (startsWith (str "# ") (a :: t)); [repeat constructor|].
    destruct (startsWith (str "## ") (a :: t)); [repeat constructor|].
    constructor; [|constructor]. apply docx_parse_has_run.
Qed.

Lemma paragraph_has_run_witness :
  DOCX.parseInlineFormatting [] = [DOCX.plainRun []]
  /\ DOCX.parseLine [] (str "  some *text* ")
     = [DOCX.ParagraphChildren
          [DOCX.plainRun (str "some "); DOCX.italicRun (str "text")]].
Proof.
  destruct paragraph_has_run as (_ & H & _ & L & _). split.
  - exact (H [] eq_refl).
  - apply (L [] (str "  some *text* ")).
    repeat split; (discriminate || reflexivity).
Defined.

(** ** Text without markers *)

Lemma starFree_app (a b : jsstring) :
  starFree (a ++ b) <-> starFree a /\ starFree b.
Proof.
  unfold starFree. rewrite forallb_app, andb_true_iff. reflexivity.
Qed.

Lemma starFree_cons (x : ascii) (s : jsstring) :
  starFree (x :: s) <-> Ascii.eqb x star = false /\ starFree s.
Proof.
  unfold starFree, notStar. simpl.
  rewrite andb_true_iff, negb_true_iff. reflexivity.
Qed.

Lemma opensWithStar_fail (r : regex) (prev rest : jsstring) :
  opensWithStar r ->
  match rest with
  | x :: _ => Ascii.eqb x star = false
  | [] => True
  end ->
  matchHere r prev rest = None.
Proof.
  intros [r' [-> | ->]] H; simpl.
  - destruct rest as [|x rest]; [reflexivity|]. rewrite H. reflexivity.
  - assert (E : match rest with
                | x :: rest' =>
                    if Ascii.eqb x star
                    then match matchHere r' (x :: prev) rest' with
                         | Some (cap, n) => Some (cap, S n)
                         | None => None
                         end
                    else None
                | [] => None
                end = None).
    { destruct rest as [|x rest]; [reflexivity|]. rewrite H. reflexivity. }
    destruct prev as [|p prev]; [exact E|].
    destruct (Ascii.eqb p star); [reflexivity|exact E].
Qed.

Lemma opensWithStar_starFree (r : regex) (prev rest : jsstring) :
  opensWithStar r -> starFree rest -> matchHere r prev rest = None.
Proof.
  intros Hr Hs. apply opensWithStar_fail; [assumption|].
  destruct rest as [|x rest]; [exact I|].
  apply starFree_cons in Hs. tauto.
Qed.

Lemma reBold_opens : opensWithStar reBold.
Proof. eexists; left; reflexivity. Qed.

Lemma reItalic_opens : opensWithStar reItalic.
Proof. eexists; right; reflexivity. Qed.

Lemma reStripBold_opens : opensWithStar reStripBold.
Proof. eexists; left; reflexivity. Qed.

Lemma reStripItalic_opens : opensWithStar reStripItalic.
Proof. eexists; left; reflexivity. Qed.

Create HintDb markers discriminated.
#[local] Hint Resolve reBold_opens reItalic_opens reStripBold_opens
  reStripItalic_opens : markers.

Lemma searchFrom_starFree (r : regex) (prev s : jsstring) (idx : nat) :
  opensWithStar r -> starFree s -> searchFrom r prev s idx = None.
Proof.
  intros Hr Hs. apply searchFrom_none. intros a b ->.
  apply opensWithStar_starFree; [assumption|].
  apply starFree_app in Hs. tauto.
Qed.

Lemma replaceAll_starFree (r : regex) (p : replacement) (s : jsstring) :
  opensWithStar r -> starFree s -> replaceAll r p s = s.
Proof.
  intros Hr Hs. unfold replaceAll. simpl.
  rewrite searchFrom_starFree by assumption. reflexivity.
Qed.

(** A heading text without markers goes through the paged renderer's
    stripping unchanged. *)
Lemma stripFormatting_starFree (t : jsstring) :
  starFree t -> PDF.stripFormatting t = t.
Proof.
  intros H. unfold PDF.stripFormatting.
  rewrite (replaceAll_starFree reStripBold) by auto with markers.
  apply replaceAll_starFree; auto with markers.
Qed.

(** ** The line parser *)

Lemma pdf_parseLine_acc (acc : list PDF.Line) (line : jsstring) :
  PDF.parseLine acc line = acc ++ PDF.parseLine [] line.
Proof.
  unfold PDF.parseLine. destruct (trim line) as [|a t]; [reflexivity|].
  destruct (startsWith (str "# ") (a :: t)); [reflexivity|].
  destruct (startsWith (str "## ") (a :: t)); reflexivity.
Qed.

Lemma pdf_parseMarkdown_lines :
  forall lines acc,
    fold_left PDF.parseLine lines acc
    = acc ++ flat_map (PDF.parseLine []) lines.
Proof.
  induction lines as [|l lines IH]; intros acc; simpl.
  - rewrite app_nil_r. reflexivity.
  - rewrite IH, pdf_parseLine_acc, <- app_assoc. reflexivity.
Qed.

Lemma startsWith_app (p s : jsstring) :
  startsWith p s = true <-> exists rest, s = p ++ rest.
Proof.
  revert s. induction p as [|a p IH]; intros s; simpl.
  - split; [intros _; exists s; reflexivity|reflexivity].
  - destruct s as [|b s].
    + split; [discriminate|intros [rest H]; discriminate].
    + rewrite andb_true_iff, Ascii.eqb_eq, IH. split.
      * intros [-> [rest ->]]. exists rest. reflexivity.
      * intros [rest H]. inversion H; subst. split; [reflexivity|].
        exists rest. reflexivity.
Qed.

Lemma pdf_parseLine_classified (l : jsstring) :
  exists line, PDF.parseLine [] l = [line] /\ classified (trim l) line.
Proof.
  unfold PDF.parseLine, classified. destruct (trim l) as [|a t] eqn:Et.
  - eexists; split; [reflexivity|]. left. auto.
  - destruct (startsWith (str "# ") (a :: t)) eqn:E1.
    + eexists; split; [reflexivity|]. right; left.
      apply startsWith_app in E1. destruct E1 as [rest E1].
      exists rest. split; [assumption|]. rewrite E1. reflexivity.
    + destruct (startsWith (str "## ") (a :: t)) eqn:E2.
      * eexists; split; [reflexivity|]. right; right; left.
        apply startsWith_app in E2. destruct E2 as [rest E2].
        exists rest. split; [assumption|]. rewrite E2. reflexivity.
      * eexists; split; [reflexivity|]. right; right; right.
        repeat split; auto. discriminate.
Qed.

Lemma parseLine_sameKind (l : jsstring) :
  Forall2 sameKind (PDF.parseLine [] l) (DOCX.parseLine [] l).
Proof.
  unfold PDF.parseLine, DOCX.parseLine. destruct (trim l) as [|a t].
  - repeat constructor.
  - destruct (startsWith (str "# ") (a :: t)); [repeat constructor|].
    destruct (startsWith (str "## ") (a :: t)); repeat constructor.
Qed.

(** C5, as amended: the paged renderer's line parser splits the content at
    line feeds, trims each line and makes one Line of each, in order: Empty
    with empty text for an empty line; Heading1 for a line starting with "# "
    and Heading2 for one starting with "## ", the text being the remainder
    after the prefix with its bold and italic marker pairs replaced by their
    inner text (hence the remainder itself when it holds no marker); and
    Paragraph with the trimmed line otherwise.  The structured renderer's
    nodes follow the same classes line by line. *)
Theorem line_parser_classification :
  (forall c,
     Forall2 (fun raw line => classified (trim raw) line)
       (split nl c) (PDF.parseMarkdown c))
  /\ (forall rest, starFree rest -> PDF.stripFormatting rest = rest)
  /\ (forall c,
        Forall2 sameKind (PDF.parseMarkdown c) (DOCX.parseMarkdownToDocx c))
  /\ PDF.parseMarkdown (str "# Title") = [PDF.mkLine PDF.h1 (str "Title")]
  /\ PDF.parseMarkdown (str "## Sub") = [PDF.mkLine PDF.h2 (str "Sub")]
  /\ PDF.parseMarkdown (str "### X") = [PDF.mkLine PDF.paragraph (str "### X")].
Proof.
  split.
  { intros c. unfold PDF.parseMarkdown. rewrite pdf_parseMarkdown_lines. simpl.
    induction (split nl c) as [|l lines IH]; simpl; [constructor|].
    destruct (pdf_parseLine_classified l) as (line & -> & Hc).
    simpl. constructor; assumption. }
  split; [exact stripFormatting_starFree|].
  split.
  { intros c. unfold PDF.parseMarkdown, DOCX.parseMarkdownToDocx.
    rewrite pdf_parseMarkdown_lines, docx_parseMarkdown_lines. simpl.
    induction (split nl c) as [|l lines IH]; simpl; [constructor|].
    apply Forall2_app; [apply parseLine_sameKind|exact IH]. }
  repeat split; reflexivity.
Qed.

Lemma line_parser_classification_witness :
  PDF.stripFormatting (str "Title") = str "Title".
Proof.
  destruct line_parser_classification as (_ & H & _).
  exact (H (str "Title") eq_refl).
Defined.

(** Against C5 as it was stated: the text of a heading line is not always the
    remainder after the prefix. *)
Lemma line_parser_heading_text_differs :
  PDF.parseMarkdown (str "# **T**") = [PDF.mkLine PDF.h1 (str "T")]
  /\ specParseLines (str "# **T**") = [PDF.mkLine PDF.h1 (str "**T**")]
  /\ PDF.parseMarkdown (str "# **T**") <> specParseLines (str "# **T**").
Proof.
  repeat split; try reflexivity. vm_compute. discriminate.
Qed.

(** C1: the heading text that reaches the output.  The paged renderer puts
    the stripped text on the page; the structured renderer puts the text
    after the prefix into the heading node as it is, markers included. *)
Theorem heading_markers_by_renderer :
  (forall l rest, trim l = str "# " ++ rest ->
     PDF.parseLine [] l = [PDF.mkLine PDF.h1 (PDF.stripFormatting rest)]
     /\ DOCX.parseLine [] l
        = [DOCX.ParagraphText rest (Some DOCX.HEADING_1)])
  /\ PDF.parseMarkdown (str "# **Bold** title")
     = [PDF.mkLine PDF.h1 (str "Bold title")]
  /\ DOCX.export (str "# **Bold** title")
     = [DOCX.ParagraphText (str "**Bold** title") (Some DOCX.HEADING_1)]
  /\ DOCX.export (str "## *x*")
     = [DOCX.ParagraphText (str "*x*") (Some DOCX.HEADING_2)]
  /\ PDF.stripFormatting (str "**Bold** title") <> str "**Bold** title".
Proof.
  split.
  { intros l rest H. unfold PDF.parseLine, DOCX.parseLine. rewrite H.
    split; reflexivity. }
  repeat split; try reflexivity. vm_compute. discriminate.
Qed.

(** ** Exporter selection *)

Lemma lowerChar_letter (c d : ascii) :
  lowerLetter d -> (lowerChar c = d <-> sameLetter c d).
Proof.
  unfold lowerLetter, sameLetter, lowerChar. intros Hd.
  pose proof (nat_ascii_bounded c) as Hc.
  destruct (((65 <=? nat_of_ascii c) && (nat_of_ascii c <=? 90))
            || ((192 <=? nat_of_ascii c) && (nat_of_ascii c <=? 222)
                && negb (nat_of_ascii c =? 215))) eqn:E.
  - split.
    + intros H. right. apply (f_equal nat_of_ascii) in H.
      rewrite nat_ascii_embedding in H; [exact H|].
      rewrite orb_true_iff, !andb_true_iff, !Nat.leb_le in E. lia.
    + intros [H | H].
      * subst d. exfalso.
        rewrite orb_true_iff, !andb_true_iff, !Nat.leb_le in E. lia.
      * rewrite H. apply ascii_nat_embedding.
  - split.
    + intros H. left. exact H.
    + intros [H | H]; [exact H|]. exfalso.
      rewrite orb_false_iff, !andb_false_iff, !Nat.leb_gt in E. lia.
Qed.

(** Lowering gives a word of lower-case letters exactly for its spellings in
    either case. *)
Lemma toLowerCase_letters :
  forall name format,
    Forall lowerLetter name ->
    (toLowerCase format = name <-> Forall2 sameLetter format name).
Proof.
  unfold toLowerCase.
  induction name as [|d name IH]; intros format Hn.
  - destruct format; simpl; split; intros H;
      try constructor; try discriminate; try reflexivity; inversion H.
  - inversion Hn as [|? ? Hd Hn']; subst.
    destruct format as [|c format]; simpl.
    + split; intros H; [discriminate|inversion H].
    + split.
      * intros H. inversion H; subst. constructor.
        -- apply lowerChar_letter; [exact Hd|reflexivity].
        -- apply IH; [exact Hn'|reflexivity].
      * intros H. inversion H; subst. f_equal.
        -- apply lowerChar_letter; assumption.
        -- apply IH; assumption.
Qed.

(** C7: the format name is lowered and compared with txt, pdf and docx, so
    the match does not depend on letter case (the lowered name is one of the
    three exactly when the name spells it, each letter in either case); each
    of the three selects its factory and nothing is reported; any other name
    selects the plain-text factory and one message goes to console.error.  Whatever the name, the
    export of a non-blank content goes through and delivers an artifact,
    and no alert is shown; for an unknown name it is the plain-text one. *)
Theorem exporter_selection (format : jsstring) :
  (toLowerCase format = str "txt" ->
     Main.getFactory format = (Main.TXTExporterFactory, []))
  /\ (toLowerCase format = str "pdf" ->
        Main.getFactory format = (Main.PDFExporterFactory, []))
  /\ (toLowerCase format = str "docx" ->
        Main.getFactory format = (Main.DOCXExporterFactory, []))
  /\ (toLowerCase format <> str "txt" -> toLowerCase format <> str "pdf" ->
      toLowerCase format <> str "docx" ->
        Main.getFactory format
        = (Main.TXTExporterFactory,
           [str "Unknown format: " ++ format ++ str ". Defaulting to TXT."])
        /\ forall pageHeight getTextWidth c, trim c <> [] ->
             Main.handleExport pageHeight getTextWidth c format
             = Main.mkOutcome (Some (Main.TxtFile (TXT.export (trim c))))
                 [str "Unknown format: " ++ format ++ str ". Defaulting to TXT."]
                 [])
  /\ (forall pageHeight getTextWidth c, trim c <> [] ->
        (exists artifact,
           Main.artifact (Main.handleExport pageHeight getTextWidth c format)
           = Some artifact)
        /\ Main.alerts (Main.handleExport pageHeight getTextWidth c format)
           = [])
  /\ (toLowerCase format = str "txt" <-> Forall2 sameLetter format (str "txt"))
  /\ (toLowerCase format = str "pdf" <-> Forall2 sameLetter format (str "pdf"))
  /\ (toLowerCase format = str "docx" <-> Forall2 sameLetter format (str "docx"))
  /\ Main.createExporter (fst (Main.getFactory (str "PDF"))) = Main.PDFExporter
  /\ Main.createExporter (fst (Main.getFactory (str "DocX"))) = Main.DOCXExporter
  /\ Main.createExporter (fst (Main.getFactory (str "Txt"))) = Main.TXTExporter
  /\ Main.getFactory (str "rtf")
     = (Main.TXTExporterFactory,
        [str "Unknown format: rtf. Defaulting to TXT."]).
Proof.
  unfold Main.getFactory.
  split; [intros ->; reflexivity|].
  split; [intros ->; reflexivity|].
  split; [intros ->; reflexivity|].
  split.
  { intros H1 H2 H3.
    assert (E : Main.getFactory format
            = (Main.TXTExporterFactory,
               [str "Unknown format: " ++ format ++ str ". Defaulting to TXT."])).
    { unfold Main.getFactory.
      destruct (list_eq_dec ascii_dec (toLowerCase format) (str "txt"));
        [contradiction|].
      destruct (list_eq_dec ascii_dec (toLowerCase format) (str "pdf"));
        [contradiction|].
      destruct (list_eq_dec ascii_dec (toLowerCase format) (str "docx"));
        [contradiction|].
      reflexivity. }
    split; [exact E|].
    intros pageHeight getTextWidth c Hc. unfold Main.handleExport.
    destruct (trim c) as [|a t]; [contradiction|].
    rewrite E. reflexivity. }
  split.
  { intros pageHeight getTextWidth c Hc. unfold Main.handleExport.
    destruct (trim c) as [|a t]; [contradiction|].
    destruct (Main.getFactory format) as [f errors]. simpl.
    split; [eexists; reflexivity|reflexivity]. }
  assert (Hl : forall name, forallb (fun d => (97 <=? nat_of_ascii d)
                                              && (nat_of_ascii d <=? 122)) name
                            = true -> Forall lowerLetter name).
  { intros name H. apply Forall_forall. intros d Hd.
    rewrite forallb_forall in H. specialize (H d Hd).
    apply andb_true_iff in H. unfold lowerLetter.
    rewrite !Nat.leb_le in H. exact H. }
  split; [apply toLowerCase_letters, Hl; reflexivity|].
  split; [apply toLowerCase_letters, Hl; reflexivity|].
  split; [apply toLowerCase_letters, Hl; reflexivity|].
  repeat split; reflexivity.
Qed.

Lemma exporter_selection_witness :
  Main.getFactory (str "pDf") = (Main.PDFExporterFactory, [])
  /\ Main.getFactory (str "odt")
     = (Main.TXTExporterFactory,
        [str "Unknown format: odt. Defaulting to TXT."]).
Proof.
  split.
  - destruct (exporter_selection (str "pDf")) as (_ & H & _).
    exact (H eq_refl).
  - destruct (exporter_selection (str "odt")) as (_ & _ & _ & H & _).
    apply H; vm_compute; discriminate.
Defined.

(** ** Nothing but the delimiters of a match is dropped *)

Lemma pdf_parse_reassemble_len :
  forall n s, length s <= n -> reassemble (PDF.parseInlineFormatting s) = s.
Proof.
  induction n as [|n IH]; intros s Hn.
  - destruct s; [reflexivity|simpl in Hn; lia].
  - destruct s as [|x s]; [reflexivity|].
    destruct (chooseMatch (js_match reBold (x :: s)) (js_match reItalic (x :: s)))
      as [[m b]|] eqn:E.
    + rewrite (pdf_parse_step _ m b E).
      apply chooseMatch_shape, delimited_parts in E.
      destruct E as (pre & mid & post & Hs & Hne & _ & -> & Hi & -> & ->).
      unfold reassemble. rewrite map_app, concat_app. simpl.
      fold (reassemble (PDF.parseInlineFormatting post)).
      rewrite IH.
      * rewrite Hs, Hi.
        destruct pre as [|p pre]; destruct b; simpl;
          rewrite <- ?app_assoc; simpl; rewrite ?app_nil_r; reflexivity.
      * apply (f_equal (@length ascii)) in Hs. rewrite !length_app in Hs.
        destruct mid; [contradiction|].
        simpl in Hn, Hs. destruct b; simpl in Hs; lia.
    + rewrite pdf_parse_nomatch by (assumption || discriminate).
      unfold reassemble. simpl. rewrite app_nil_r. reflexivity.
Qed.

(** Putting the delimiters back around the styled segments gives the input
    back: the segments are consecutive stretches of the input, in order. *)
Lemma pdf_parse_reassemble (s : jsstring) :
  reassemble (PDF.parseInlineFormatting s) = s.
Proof. apply (pdf_parse_reassemble_len (length s)). apply Nat.le_refl. Qed.

(** ** The parser on balanced input *)

Lemma lazyLoop_complete (k : charClass) (cont : jsstring -> jsstring -> attempt) :
  forall t taken need prev post c' n',
    forallb (classMatches k) t = true -> need <= length t ->
    (forall a b, t = a ++ b -> b <> [] ->
                 cont (rev a ++ prev) (b ++ post) = None) ->
    cont (rev t ++ prev) post = Some (c', n') ->
    lazyLoop k cont taken need prev (t ++ post)
    = Some (Some (rev taken ++ t), length taken + length t + n').
Proof.
  induction t as [|x t IH]; intros taken need prev post c' n' Hk Hn Hfail Hc.
  - simpl in Hn. assert (need = 0) by lia. subst need. simpl in Hc |- *.
    rewrite app_nil_r, Nat.add_0_r.
    destruct post; simpl; rewrite Hc; reflexivity.
  - simpl in Hk. apply andb_true_iff in Hk. destruct Hk as [Hx Hk].
    assert (H0 := Hfail [] (x :: t) eq_refl). simpl in H0.
    cbn [app lazyLoop].
    replace (match need with
             | 0 => cont prev (x :: t ++ post)
             | S _ => None
             end) with (@None (option jsstring * nat))
      by (destruct need; [symmetry; apply H0; discriminate|reflexivity]).
    rewrite Hx.
    rewrite (IH (x :: taken) (pred need) (x :: prev) post c' n'); auto.
    + simpl. rewrite <- app_assoc. simpl. f_equal. f_equal. lia.
    + simpl in Hn. lia.
    + intros a b -> Hb. specialize (Hfail (x :: a) b eq_refl Hb).
      simpl in Hfail. rewrite <- app_assoc in Hfail. exact Hfail.
    + simpl in Hc. rewrite <- app_assoc in Hc. exact Hc.
Qed.

Lemma starFree_headNotStar (s : jsstring) : starFree s -> headNotStar s.
Proof.
  destruct s as [|x s]; [exact (fun _ => I)|].
  intros H. apply starFree_cons in H. simpl. tauto.
Qed.

Lemma starFree_rev (s : jsstring) : starFree s -> starFree (rev s).
Proof.
  unfold starFree. rewrite !forallb_forall. intros H x Hx.
  apply H. apply in_rev. exact Hx.
Qed.

Lemma headNotStar_app (a b : jsstring) :
  a <> [] -> headNotStar a -> headNotStar (a ++ b).
Proof. destruct a; [contradiction|auto]. Qed.

Lemma rev_nonempty {A : Type} (l : list A) : l <> [] -> rev l <> [].
Proof.
  intros H E. apply H. rewrite <- (rev_involutive l), E. reflexivity.
Qed.

Lemma anyChar_noLineTerminator (t : jsstring) :
  noLineTerminator t -> forallb (classMatches AnyChar) t = true.
Proof. exact (fun H => H). Qed.

(** The matcher, one node at a time. *)
Lemma matchHere_Lit (c : ascii) (r : regex) (prev rest : jsstring) :
  matchHere (Lit c :: r) prev (c :: rest)
  = match matchHere r (c :: prev) rest with
    | Some (cap, n) => Some (cap, S n)
    | None => None
    end.
Proof. simpl. rewrite Ascii.eqb_refl. reflexivity. Qed.

Lemma matchHere_Lit_end (c : ascii) (prev rest : jsstring) :
  matchHere [Lit c] prev (c :: rest) = Some (None, 1).
Proof. simpl. rewrite Ascii.eqb_refl. reflexivity. Qed.

Lemma matchHere_NotBehind (r : regex) (prev rest : jsstring) :
  headNotStar prev ->
  matchHere (NotBehind star :: r) prev rest = matchHere r prev rest.
Proof.
  intros H. destruct prev as [|p prev]; [reflexivity|].
  simpl in H. cbn [matchHere]. rewrite H. reflexivity.
Qed.

Lemma matchHere_NotAhead (r : regex) (prev rest : jsstring) :
  headNotStar rest ->
  matchHere (NotAhead star :: r) prev rest = matchHere r prev rest.
Proof.
  intros H. destruct rest as [|x rest]; [reflexivity|].
  simpl in H. cbn [matchHere]. rewrite H. reflexivity.
Qed.

Lemma matchHere_GroupLazy (min : nat) (k : charClass) (r : regex)
    (prev rest : jsstring) :
  matchHere (GroupLazy min k :: r) prev rest
  = lazyLoop k (matchHere r) [] min prev rest.
Proof. reflexivity. Qed.

Lemma reBold_here_complete (prev t post : jsstring) :
  t <> [] -> starFree t -> noLineTerminator t ->
  matchHere reBold prev ([star; star] ++ t ++ [star; star] ++ post)
  = Some (Some t, length t + 4).
Proof.
  intros Hne Hs Hl. unfold reBold. cbn [app].
  rewrite 2 matchHere_Lit, matchHere_GroupLazy.
  rewrite (lazyLoop_complete AnyChar _ t [] 1 _ _ None 2).
  - simpl. f_equal. f_equal. lia.
  - apply anyChar_noLineTerminator; assumption.
  - destruct t; [contradiction|simpl; lia].
  - intros a b -> Hb. apply opensWithStar_fail.
    + eexists; left; reflexivity.
    + apply starFree_app in Hs. destruct Hs as [_ Hs].
      apply starFree_headNotStar in Hs.
      apply (headNotStar_app b _ Hb Hs).
  - rewrite matchHere_Lit, matchHere_Lit_end. reflexivity.
Qed.

Lemma reItalic_here_complete (prev t post : jsstring) :
  t <> [] -> starFree t -> noLineTerminator t ->
  headNotStar prev -> headNotStar post ->
  matchHere reItalic prev ([star] ++ t ++ [star] ++ post)
  = Some (Some t, length t + 2).
Proof.
  intros Hne Hs Hl Hprev Hpost. unfold reItalic. cbn [app].
  rewrite matchHere_NotBehind by assumption.
  rewrite matchHere_Lit.
  rewrite matchHere_NotAhead
    by (apply headNotStar_app;
        [assumption|apply starFree_headNotStar; assumption]).
  rewrite matchHere_GroupLazy.
  rewrite (lazyLoop_complete AnyChar _ t [] 1 _ _ None 1).
  - simpl. f_equal. f_equal. lia.
  - apply anyChar_noLineTerminator; assumption.
  - destruct t; [contradiction|simpl; lia].
  - intros a b -> Hb. apply opensWithStar_fail.
    + eexists; right; reflexivity.
    + apply starFree_app in Hs. destruct Hs as [_ Hs].
      apply starFree_headNotStar in Hs.
      apply (headNotStar_app b _ Hb Hs).
  - rewrite matchHere_NotBehind.
    + rewrite matchHere_Lit, matchHere_NotAhead by assumption. reflexivity.
    + apply headNotStar_app; [apply rev_nonempty; assumption|].
      apply starFree_headNotStar, starFree_rev; assumption.
Qed.

Lemma searchFrom_skip (r : regex) :
  opensWithStar r ->
  forall p prev rest idx,
    starFree p ->
    searchFrom r prev (p ++ rest) idx
    = searchFrom r (rev p ++ prev) rest (idx + length p).
Proof.
  intros Hr. induction p as [|x p IH]; intros prev rest idx Hp; simpl.
  - rewrite Nat.add_0_r. reflexivity.
  - apply starFree_cons in Hp. destruct Hp as [Hx Hp].
    rewrite (opensWithStar_fail r prev (x :: p ++ rest) Hr Hx).
    rewrite IH by assumption. rewrite <- app_assoc. simpl.
    f_equal. lia.
Qed.

Lemma searchFrom_here (r : regex) (prev rest : jsstring) (idx : nat)
    (c : option jsstring) (n : nat) :
  matchHere r prev rest = Some (c, n) ->
  searchFrom r prev rest idx = Some (mkMatch idx (firstn n rest) c).
Proof. intros H. destruct rest; simpl; rewrite H; reflexivity. Qed.

Lemma js_match_bold_span (p t rest : jsstring) :
  starFree p -> t <> [] -> starFree t -> noLineTerminator t ->
  js_match reBold (p ++ [star; star] ++ t ++ [star; star] ++ rest)
  = Some (mkMatch (length p) ([star; star] ++ t ++ [star; star]) (Some t)).
Proof.
  intros Hp Hne Hs Hl. unfold js_match.
  rewrite (searchFrom_skip reBold reBold_opens) by assumption.
  rewrite (searchFrom_here _ _ _ _ _ _
             (reBold_here_complete _ t rest Hne Hs Hl)).
  simpl. f_equal. f_equal.
  change (star :: star :: t ++ star :: star :: rest)
    with ([star; star] ++ t ++ [star; star] ++ rest).
  rewrite 2 app_assoc. rewrite firstn_app_exact.
  - rewrite <- app_assoc. reflexivity.
  - rewrite !length_app. simpl. lia.
Qed.

Lemma js_match_italic_span (p t rest : jsstring) :
  starFree p -> t <> [] -> starFree t -> noLineTerminator t ->
  headNotStar rest ->
  js_match reItalic (p ++ [star] ++ t ++ [star] ++ rest)
  = Some (mkMatch (length p) ([star] ++ t ++ [star]) (Some t)).
Proof.
  intros Hp Hne Hs Hl Hr. unfold js_match.
  rewrite (searchFrom_skip reItalic reItalic_opens) by assumption.
  assert (Hprev : headNotStar (rev p ++ [])).
  { rewrite app_nil_r. apply starFree_headNotStar, starFree_rev; assumption. }
  rewrite (searchFrom_here _ _ _ _ _ _
             (reItalic_here_complete _ t rest Hne Hs Hl Hprev Hr)).
  simpl. f_equal. f_equal.
  change (star :: t ++ star :: rest) with ([star] ++ t ++ [star] ++ rest).
  rewrite 2 app_assoc. rewrite firstn_app_exact.
  - rewrite <- app_assoc. reflexivity.
  - rewrite !length_app. simpl. lia.
Qed.

Lemma literalBefore_prefix (m : MatchResult) (p rest : jsstring) :
  index m = length p ->
  literalBefore m (p ++ rest)
  = match p with
    | [] => []
    | _ :: _ => [PDF.plainSegment p]
    end.
Proof.
  intros Hi. unfold literalBefore, substring_to. rewrite Hi.
  rewrite firstn_app_exact by reflexivity.
  destruct p; reflexivity.
Qed.

(** A bold span after marker-free text. *)
Lemma pdf_parse_bold_span (p t rest : jsstring) :
  starFree p -> t <> [] -> starFree t -> noLineTerminator t ->
  PDF.parseInlineFormatting (p ++ [star; star] ++ t ++ [star; star] ++ rest)
  = match p with
    | [] => []
    | _ :: _ => [PDF.plainSegment p]
    end ++ PDF.boldSegment t :: PDF.parseInlineFormatting rest.
Proof.
  intros Hp Hne Hs Hl.
  pose proof (js_match_bold_span p t rest Hp Hne Hs Hl) as Hb.
  set (s := p ++ [star; star] ++ t ++ [star; star] ++ rest) in *.
  set (b := mkMatch (length p) ([star; star] ++ t ++ [star; star]) (Some t)) in *.
  assert (E : chooseMatch (js_match reBold s) (js_match reItalic s)
              = Some (b, true)).
  { unfold chooseMatch. rewrite Hb.
    destruct (js_match reItalic s) as [i|] eqn:Ei; [|reflexivity].
    unfold js_match, s in Ei.
    rewrite (searchFrom_skip reItalic reItalic_opens) in Ei by assumption.
    apply searchFrom_index_ge in Ei. simpl in Ei.
    replace (index b <=? index i) with true; [reflexivity|].
    symmetry. apply Nat.leb_le. exact Ei. }
  rewrite (pdf_parse_step s b true E).
  fold (literalBefore b s). unfold s at 1.
  rewrite literalBefore_prefix by reflexivity.
  f_equal. unfold pdfStyled, group1. simpl. f_equal. f_equal.
  unfold substring_from, s.
  replace (p ++ [star; star] ++ t ++ [star; star] ++ rest)
    with ((p ++ [star; star] ++ t ++ [star; star]) ++ rest)
    by (rewrite <- !app_assoc; reflexivity).
  apply skipn_app_exact. simpl. rewrite ?length_app. simpl.
  rewrite ?length_app. simpl. lia.
Qed.

(** An italic span after marker-free text and before something that does not
    open with a marker. *)
Lemma pdf_parse_italic_span (p t rest : jsstring) :
  starFree p -> t <> [] -> starFree t -> noLineTerminator t ->
  headNotStar rest ->
  PDF.parseInlineFormatting (p ++ [star] ++ t ++ [star] ++ rest)
  = match p with
    | [] => []
    | _ :: _ => [PDF.plainSegment p]
    end ++ PDF.italicSegment t :: PDF.parseInlineFormatting rest.
Proof.
  intros Hp Hne Hs Hl Hr.
  pose proof (js_match_italic_span p t rest Hp Hne Hs Hl Hr) as Hi.
  set (s := p ++ [star] ++ t ++ [star] ++ rest) in *.
  set (i := mkMatch (length p) ([star] ++ t ++ [star]) (Some t)) in *.
  assert (E : chooseMatch (js_match reBold s) (js_match reItalic s)
              = Some (i, false)).
  { unfold chooseMatch. rewrite Hi.
    destruct (js_match reBold s) as [b|] eqn:Eb; [|reflexivity].
    unfold js_match, s in Eb.
    rewrite (searchFrom_skip reBold reBold_opens) in Eb by assumption.
    assert (Hfail : matchHere reBold (rev p ++ [])
                      ([star] ++ t ++ [star] ++ rest) = None).
    { unfold reBold. cbn [app]. rewrite matchHere_Lit.
      rewrite opensWithStar_fail; [reflexivity|eexists; left; reflexivity|].
      apply headNotStar_app; [assumption|].
      apply starFree_headNotStar; assumption. }
    cbn [app] in Hfail, Eb. cbn [searchFrom] in Eb. rewrite Hfail in Eb.
    apply searchFrom_index_ge in Eb. simpl in Eb.
    replace (index b <=? index i) with false; [reflexivity|].
    symmetry. apply Nat.leb_gt. simpl. lia. }
  rewrite (pdf_parse_step s i false E).
  fold (literalBefore i s). unfold s at 1.
  rewrite literalBefore_prefix by reflexivity.
  f_equal. unfold pdfStyled, group1. simpl. f_equal. f_equal.
  unfold substring_from, s.
  replace (p ++ [star] ++ t ++ [star] ++ rest)
    with ((p ++ [star] ++ t ++ [star]) ++ rest)
    by (rewrite <- !app_assoc; reflexivity).
  apply skipn_app_exact. simpl. rewrite ?length_app. simpl.
  rewrite ?length_app. simpl. lia.
Qed.

(** Marker-free text alone. *)
Lemma pdf_parse_plain (p : jsstring) :
  p <> [] -> starFree p ->
  PDF.parseInlineFormatting p = [PDF.plainSegment p].
Proof.
  intros Hne Hp. apply pdf_parse_nomatch; [assumption|].
  unfold js_match.
  rewrite (searchFrom_starFree reBold) by auto with markers.
  rewrite (searchFrom_starFree reItalic) by auto with markers.
  reflexivity.
Qed.

Lemma nonEmpty_true (t : jsstring) : nonEmpty t = true -> t <> [].
Proof. destruct t; [discriminate|discriminate]. Qed.

Lemma itemsSource_cons (i : Item) (items : list Item) :
  itemsSource (i :: items) = itemSource i ++ itemsSource items.
Proof. reflexivity. Qed.

Lemma separated_follow (items : list Item) :
  match items with
  | [] | PlainText _ :: _ => true
  | _ => false
  end = true ->
  separated items = true -> headNotStar (itemsSource items).
Proof.
  destruct items as [|[t|t|t] items]; intros Hf Hs; try discriminate.
  - exact I.
  - cbn [separated] in Hs. rewrite !andb_true_iff in Hs.
    destruct Hs as [[[Hne Hst] _] _].
    rewrite itemsSource_cons. simpl itemSource.
    apply headNotStar_app; [apply nonEmpty_true; assumption|].
    apply starFree_headNotStar. exact Hst.
Qed.

Lemma separated_tail (i : Item) (items : list Item) :
  separated (i :: items) = true -> separated items = true.
Proof.
  destruct i; cbn [separated]; rewrite !andb_true_iff; tauto.
Qed.

Lemma itemsSource_plain (t : jsstring) (items : list Item) :
  itemsSource (PlainText t :: items) = t ++ itemsSource items.
Proof. reflexivity. Qed.

Lemma itemsSource_bold (t : jsstring) (items : list Item) :
  itemsSource (BoldSpan t :: items)
  = [] ++ [star; star] ++ t ++ [star; star] ++ itemsSource items.
Proof.
  rewrite itemsSource_cons. simpl. rewrite <- app_assoc. reflexivity.
Qed.

Lemma itemsSource_italic (t : jsstring) (items : list Item) :
  itemsSource (ItalicSpan t :: items)
  = [] ++ [star] ++ t ++ [star] ++ itemsSource items.
Proof.
  rewrite itemsSource_cons. simpl. rewrite <- app_assoc. reflexivity.
Qed.

(** On separated input the segments are the items, one for one. *)
Lemma pdf_parse_separated :
  forall items,
    separated items = true ->
    PDF.parseInlineFormatting (itemsSource items) = map itemSegment items.
Proof.
  induction items as [|i items IH]; intros H; [reflexivity|].
  pose proof (separated_tail _ _ H) as Ht. specialize (IH Ht).
  destruct i as [t|t|t]; cbn [separated] in H; rewrite !andb_true_iff in H.
  - destruct H as [[[Hne Hst] Hf] _]. apply nonEmpty_true in Hne.
    destruct items as [|[u|u|u] items]; try discriminate.
    + unfold itemsSource. simpl. rewrite app_nil_r.
      apply pdf_parse_plain; assumption.
    + cbn [separated] in Ht. rewrite !andb_true_iff in Ht.
      destruct Ht as [[[Hune Hust] Hul] _]. apply nonEmpty_true in Hune.
      rewrite itemsSource_plain. rewrite itemsSource_bold in IH |- *.
      rewrite pdf_parse_bold_span in IH by (assumption || reflexivity).
      cbn [app] in IH. rewrite app_nil_l.
      rewrite (pdf_parse_bold_span t u) by assumption.
      inversion IH as [IH'].
      destruct t; [contradiction|]. simpl. rewrite IH'. reflexivity.
    + pose proof (separated_tail _ _ Ht) as Ht'.
      cbn [separated] in Ht. rewrite !andb_true_iff in Ht.
      destruct Ht as [[[[Hune Hust] Hul] Hfol] _]. apply nonEmpty_true in Hune.
      pose proof (separated_follow items Hfol Ht') as Hh.
      rewrite itemsSource_plain. rewrite itemsSource_italic in IH |- *.
      rewrite pdf_parse_italic_span in IH by (assumption || reflexivity).
      cbn [app] in IH. rewrite app_nil_l.
      rewrite (pdf_parse_italic_span t u) by assumption.
      inversion IH as [IH'].
      destruct t; [contradiction|]. simpl. rewrite IH'. reflexivity.
  - destruct H as [[[Hne Hst] Hl] _]. apply nonEmpty_true in Hne.
    rewrite itemsSource_bold.
    rewrite pdf_parse_bold_span by (assumption || reflexivity).
    simpl. rewrite IH. reflexivity.
  - destruct H as [[[[Hne Hst] Hl] Hfol] _]. apply nonEmpty_true in Hne.
    pose proof (separated_follow items Hfol Ht) as Hh.
    rewrite itemsSource_italic.
    rewrite pdf_parse_italic_span by (assumption || reflexivity).
    simpl. rewrite IH. reflexivity.
Qed.

Lemma withoutMarkers_app (a b : jsstring) :
  withoutMarkers (a ++ b) = withoutMarkers a ++ withoutMarkers b.
Proof. apply filter_app. Qed.

Lemma withoutMarkers_starFree (t : jsstring) :
  starFree t -> withoutMarkers t = t.
Proof.
  unfold starFree, withoutMarkers. induction t as [|x t IH]; simpl; auto.
  intros H. apply andb_true_iff in H. destruct H as [Hx Ht].
  rewrite Hx, IH by assumption. reflexivity.
Qed.

Lemma balancedItem_text (i : Item) :
  balancedItem i = true ->
  PDF.text (itemSegment i) = withoutMarkers (itemSource i).
Proof.
  destruct i as [t|t|t]; simpl; rewrite andb_true_iff; intros [_ H];
    rewrite ?withoutMarkers_app, (withoutMarkers_starFree t H);
    simpl; rewrite ?app_nil_r; reflexivity.
Qed.

Lemma balanced_text (items : list Item) :
  balanced items = true ->
  textOf (map itemSegment items) = withoutMarkers (itemsSource items).
Proof.
  unfold balanced, textOf, itemsSource.
  induction items as [|i items IH]; simpl; [reflexivity|].
  rewrite andb_true_iff. intros [Hi H].
  rewrite withoutMarkers_app, IH, balancedItem_text by assumption.
  reflexivity.
Qed.

Lemma separated_balanced (items : list Item) :
  separated items = true -> balanced items = true.
Proof.
  unfold balanced. induction items as [|i items IH]; [reflexivity|].
  intros H. pose proof (separated_tail _ _ H) as Ht.
  simpl. rewrite (IH Ht), andb_true_r.
  destruct i; cbn [separated] in H; rewrite !andb_true_iff in H;
    simpl; rewrite andb_true_iff; tauto.
Qed.

Lemma withoutMarkers_sourceOf (g : PDF.Segment) :
  withoutMarkers (sourceOf g) = withoutMarkers (PDF.text g).
Proof.
  unfold sourceOf.
  destruct (PDF.bold g) as [[|]|]; [| |];
    try (destruct (PDF.italic g) as [[|]|]);
    rewrite ?withoutMarkers_app; simpl; rewrite ?app_nil_r; reflexivity.
Qed.

Lemma withoutMarkers_reassemble (segments : list PDF.Segment) :
  withoutMarkers (reassemble segments) = withoutMarkers (textOf segments).
Proof.
  unfold reassemble, textOf.
  induction segments as [|g segments IH]; simpl; [reflexivity|].
  rewrite !withoutMarkers_app, IH, withoutMarkers_sourceOf. reflexivity.
Qed.

(** C3, as amended: on an input made of plain texts, bold spans and italic
    spans (each text non-empty and free of markers, the text of a span free
    of line terminators) in which an italic span is followed by plain text
    or by nothing, the segments are these texts one for one, so that their
    concatenation is the input with all marker characters removed; the runs
    of the structured renderer concatenate to the same.  And on every input:
    putting the delimiters back around the styled segments gives the input
    back, so the segments are consecutive stretches of it, nothing but the
    delimiters of a match is dropped, and nothing is duplicated or
    reordered. *)
Theorem segment_reconstruction :
  (forall items, separated items = true ->
     PDF.parseInlineFormatting (itemsSource items) = map itemSegment items
     /\ textOf (PDF.parseInlineFormatting (itemsSource items))
        = withoutMarkers (itemsSource items)
     /\ concat (map DOCX.text (DOCX.parseInlineFormatting (itemsSource items)))
        = withoutMarkers (itemsSource items))
  /\ (forall s, reassemble (PDF.parseInlineFormatting s) = s)
  /\ (forall s, withoutMarkers (textOf (PDF.parseInlineFormatting s))
                = withoutMarkers s).
Proof.
  split.
  { intros items H.
    pose proof (pdf_parse_separated items H) as Hp.
    pose proof (balanced_text items (separated_balanced items H)) as Hb.
    split; [exact Hp|]. split; [rewrite Hp; exact Hb|].
    destruct (itemsSource items) as [|x s] eqn:Es; [reflexivity|].
    rewrite docx_parse_pdf by discriminate.
    rewrite map_map. rewrite Hp, <- Hb. reflexivity. }
  split; [exact pdf_parse_reassemble|].
  intros s. rewrite <- withoutMarkers_reassemble, pdf_parse_reassemble.
  reflexivity.
Qed.

Lemma segment_reconstruction_witness :
  PDF.parseInlineFormatting (str "This is **bold** and *italic*.")
  = [PDF.plainSegment (str "This is "); PDF.boldSegment (str "bold");
     PDF.plainSegment (str " and "); PDF.italicSegment (str "italic");
     PDF.plainSegment (str ".")].
Proof.
  destruct segment_reconstruction as (H & _).
  exact (proj1 (H [PlainText (str "This is "); BoldSpan (str "bold");
                   PlainText (str " and "); ItalicSpan (str "italic");
                   PlainText (str ".")] eq_refl)).
Defined.

(** Against C3 as it was stated: an italic span directly followed by a bold
    span is balanced input, and the markers stay in the segments; so they do
    in a span whose text holds a carriage return. *)
Lemma segment_reconstruction_italic_then_bold :
  balanced [ItalicSpan (str "a"); BoldSpan (str "b")] = true
  /\ itemsSource [ItalicSpan (str "a"); BoldSpan (str "b")] = str "*a***b**"
  /\ PDF.parseInlineFormatting (str "*a***b**")
     = [PDF.plainSegment (str "*a"); PDF.boldSegment (str "*b")]
  /\ withoutMarkers (str "*a***b**") = str "ab"
  /\ textOf (PDF.parseInlineFormatting (str "*a***b**"))
     <> withoutMarkers (str "*a***b**")
  /\ balanced [BoldSpan [ "a"%char; cr; "b"%char ]] = true
  /\ PDF.parseInlineFormatting (itemsSource [BoldSpan [ "a"%char; cr; "b"%char ]])
     = [PDF.plainSegment (itemsSource [BoldSpan [ "a"%char; cr; "b"%char ]])].
Proof.
  repeat split; try reflexivity. vm_compute. discriminate.
Qed.

(** ** Totality of the inline-emphasis parser *)

Lemma pdf_parseLoop_loops :
  forall fuel segments remaining,
    length remaining <= fuel ->
    Loops segments remaining (PDF.parseLoop fuel segments remaining).
Proof.
  induction fuel as [|fuel IH]; intros segments remaining Hlen.
  - destruct remaining; [constructor|simpl in Hlen; lia].
  - destruct remaining as [|x remaining]; [constructor|].
    cbn [PDF.parseLoop].
    destruct (chooseMatch (js_match reBold (x :: remaining))
                (js_match reItalic (x :: remaining))) as [[m b]|] eqn:E.
    + destruct (truthy (m1 m)) eqn:Et.
      * apply (Loops_next _ _ m b); [discriminate|exact E|exact Et|].
        replace ((segments ++ literalBefore m (x :: remaining))
                   ++ [pdfStyled b (group1 m)])
          with (if b
                then (if 0 <? index m
                      then segments ++
                           [PDF.plainSegment (substring_to (index m) (x :: remaining))]
                      else segments) ++ [PDF.boldSegment (group1 m)]
                else (if 0 <? index m
                      then segments ++
                           [PDF.plainSegment (substring_to (index m) (x :: remaining))]
                      else segments) ++ [PDF.italicSegment (group1 m)])
          by (unfold literalBefore, pdfStyled;
              destruct b, (0 <? index m); rewrite ?app_nil_r; reflexivity).
        apply IH.
        apply chooseMatch_shape, delimited_parts in E.
        destruct E as (pre & mid & post & Hs & Hne & _ & _ & _ & _ & Hpost).
        unfold afterMatch. rewrite Hpost.
        apply (f_equal (@length ascii)) in Hs. rewrite !length_app in Hs.
        destruct mid; [contradiction|].
        simpl in Hlen, Hs. destruct b; simpl in Hs; lia.
      * apply Loops_break; [discriminate|]. rewrite E. exact Et.
    + apply Loops_break; [discriminate|]. rewrite E. exact I.
Qed.

(** The loop ends on every input, with the list the parser returns. *)
Lemma pdf_parse_loops (s : jsstring) :
  Loops [] s (PDF.parseInlineFormatting s).
Proof. apply pdf_parseLoop_loops. apply Nat.le_refl. Qed.

Lemma docx_parse_nomatch (s : jsstring) :
  js_match reBold s = None -> js_match reItalic s = None ->
  DOCX.parseInlineFormatting s = [DOCX.plainRun s].
Proof.
  intros Hb Hi. destruct s as [|x s]; [reflexivity|].
  rewrite docx_parse_pdf by discriminate.
  rewrite pdf_parse_nomatch; [reflexivity|discriminate|].
  rewrite Hb, Hi. reflexivity.
Qed.

(** C8, as amended: the inline-emphasis parser is total: on every input its
    loop ends, with the list it returns, and nothing in it can fail.  A
    non-empty string in which neither pattern matches (a single trailing
    marker, say) comes out as exactly one unstyled segment equal to the
    input; the empty string gives no segment in the paged renderer's parser
    and one empty run in the structured renderer's.  A marker that is not a
    delimiter of a match is kept verbatim, in an unstyled segment or inside
    the captured text of a styled one: putting the delimiters back around
    the styled segments gives the input back. *)
Theorem malformed_markers_literal :
  (forall s, Loops [] s (PDF.parseInlineFormatting s))
  /\ (forall s fuel, length s <= fuel ->
        PDF.parseLoop fuel [] s = PDF.parseInlineFormatting s)
  /\ (forall s, s <> [] ->
        js_match reBold s = None -> js_match reItalic s = None ->
        PDF.parseInlineFormatting s = [PDF.plainSegment s])
  /\ PDF.parseInlineFormatting [] = []
  /\ (forall s, js_match reBold s = None -> js_match reItalic s = None ->
        DOCX.parseInlineFormatting s = [DOCX.plainRun s])
  /\ (forall s, reassemble (PDF.parseInlineFormatting s) = s)
  /\ PDF.parseInlineFormatting (str "abc*") = [PDF.plainSegment (str "abc*")]
  /\ PDF.parseInlineFormatting (str "**a*b**") = [PDF.boldSegment (str "a*b")].
Proof.
  split; [exact pdf_parse_loops|].
  split.
  { intros s fuel H. apply pdf_parseLoop_fuel; [exact H|apply Nat.le_refl]. }
  split.
  { intros s Hne Hb Hi. apply pdf_parse_nomatch; [exact Hne|].
    rewrite Hb, Hi. reflexivity. }
  split; [reflexivity|].
  split; [exact docx_parse_nomatch|].
  split; [exact pdf_parse_reassemble|].
  split; reflexivity.
Qed.

Lemma malformed_markers_literal_witness :
  PDF.parseInlineFormatting (str "2 * 3") = [PDF.plainSegment (str "2 * 3")].
Proof.
  destruct malformed_markers_literal as (_ & _ & H & _).
  apply (H (str "2 * 3")).
  - vm_compute. discriminate.
  - reflexivity.
  - reflexivity.
Defined.

(** Against C8 as it was stated: the empty string holds no complete marker
    pair and the paged renderer's parser returns no segment for it; and a
    lone marker inside a bold span ends up in the bold segment, not in an
    unstyled one. *)
Lemma malformed_markers_empty_input :
  js_match reBold [] = None /\ js_match reItalic [] = None
  /\ PDF.parseInlineFormatting [] = []
  /\ PDF.parseInlineFormatting [] <> [PDF.plainSegment []]
  /\ PDF.parseInlineFormatting (str "**a*b**") = [PDF.boldSegment (str "a*b")].
Proof.
  repeat split; try reflexivity. discriminate.
Qed.

(** ** Page breaks of the paged renderer *)

Lemma gt_true (a b : Q) : PDF.gt a b = true <-> (b < a)%Q.
Proof.
  unfold PDF.gt. rewrite negb_true_iff. split.
  - intros H. apply Qnot_le_lt. intros Hle.
    apply Qle_bool_iff in Hle. congruence.
  - intros H. destruct (Qle_bool a b) eqn:E; [|reflexivity].
    apply Qle_bool_iff in E. exfalso. exact (Qlt_not_le _ _ H E).
Qed.

Lemma gt_false (a b : Q) : PDF.gt a b = false <-> (a <= b)%Q.
Proof.
  unfold PDF.gt. rewrite negb_false_iff. apply Qle_bool_iff.
Qed.

Section PageBreaks.

Variable pageHeight : Q.
Variable getTextWidth : PDF.FontStyle -> nat -> jsstring -> Q.

(** The top margin lies above the bottom margin. *)
Hypothesis page_tall : (40 <= pageHeight)%Q.

Lemma draws_refl (d : PDF.Doc) : draws d d [].
Proof.
  unfold draws. rewrite app_nil_r. repeat split; auto.
Qed.

Lemma draws_trans (d1 d2 d3 : PDF.Doc) (n1 n2 : list PDF.TextOp) :
  draws d1 d2 n1 -> draws d2 d3 n2 -> draws d1 d3 (n1 ++ n2).
Proof.
  intros (Hp1 & Hf1 & Hd1 & Ha1) (Hp2 & Hf2 & Hd2 & Ha2).
  unfold draws. rewrite Hp2, Hf2, Hd2, Hd1, app_assoc.
  repeat split; auto.
  apply Forall_app. split; [exact Ha1|].
  rewrite Hp1, Hf1 in Ha2. exact Ha2.
Qed.

Lemma renderWord_draws (x lh : Q) (n : nat) (d : PDF.Doc) (cx cy : Q)
    (iw : nat * jsstring) :
  exists new,
    draws d (fst (fst (PDF.renderWord getTextWidth x lh n (d, cx, cy) iw))) new.
Proof.
  destruct iw as [i w]. unfold PDF.renderWord.
  destruct (PDF.gt _ _); simpl; eexists; unfold draws; simpl;
    repeat split; auto.
Qed.

Lemma renderWords_draws (x lh : Q) (n : nat) :
  forall words d cx cy,
  exists new,
    draws d
      (fst (fst (fold_left (PDF.renderWord getTextWidth x lh n) words
                   (d, cx, cy)))) new.
Proof.
  induction words as [|iw words IH]; intros d cx cy; cbn [fold_left].
  - exists []. apply draws_refl.
  - destruct (renderWord_draws x lh n d cx cy iw) as [n1 H1].
    destruct (PDF.renderWord getTextWidth x lh n (d, cx, cy) iw)
      as [[d1 cx1] cy1]. simpl in H1.
    destruct (IH d1 cx1 cy1) as [n2 H2].
    exists (n1 ++ n2). exact (draws_trans _ _ _ _ _ H1 H2).
Qed.

Lemma setFont_draws (f : PDF.FontStyle) (d : PDF.Doc) :
  draws d (PDF.setFont f d) [].
Proof.
  unfold draws. simpl. rewrite app_nil_r. repeat split; auto.
Qed.

Lemma renderSegment_draws (x lh : Q) (d : PDF.Doc) (cx cy : Q)
    (g : PDF.Segment) :
  exists new,
    draws d (fst (fst (PDF.renderSegment getTextWidth x lh (d, cx, cy) g))) new.
Proof.
  unfold PDF.renderSegment.
  match goal with
  | |- context [fold_left _ _ (?d1, _, _)] =>
      destruct (renderWords_draws x lh
                  (length (split space (PDF.text g)))
                  (combine (seq 0 (length (split space (PDF.text g))))
                     (split space (PDF.text g))) d1 cx cy) as [new H];
      assert (H1 : draws d d1 [])
  end.
  { destruct (PDF.bold g) as [[|]|]; try apply setFont_draws;
      destruct (PDF.italic g) as [[|]|]; apply setFont_draws. }
  exists ([] ++ new). exact (draws_trans _ _ _ _ _ H1 H).
Qed.

Lemma renderSegments_draws (x lh : Q) :
  forall segments d cx cy,
  exists new,
    draws d
      (fst (fst (fold_left (PDF.renderSegment getTextWidth x lh) segments
                   (d, cx, cy)))) new.
Proof.
  induction segments as [|g segments IH]; intros d cx cy; cbn [fold_left].
  - exists []. apply draws_refl.
  - destruct (renderSegment_draws x lh d cx cy g) as [n1 H1].
    destruct (PDF.renderSegment getTextWidth x lh (d, cx, cy) g)
      as [[d1 cx1] cy1]. simpl in H1.
    destruct (IH d1 cx1 cy1) as [n2 H2].
    exists (n1 ++ n2). exact (draws_trans _ _ _ _ _ H1 H2).
Qed.

Lemma renderParagraph_draws (d : PDF.Doc) (t : jsstring) (x y lh : Q) :
  exists new,
    draws d
      (fst (PDF.renderParagraphWithFormatting getTextWidth d t x y lh)) new.
Proof.
  unfold PDF.renderParagraphWithFormatting.
  destruct (renderSegments_draws x lh (PDF.parseInlineFormatting t) d x y)
    as [new H].
  destruct (fold_left _ _ _) as [[d1 cx1] cy1]. simpl in *.
  exists new. exact H.
Qed.

(** What rendering one line adds: a heading is one drawing at the cursor; the
    drawings of a paragraph are in size 12; an empty line draws nothing. *)
Lemma renderLine_draws (d : PDF.Doc) (y : Q) (line : PDF.Line) :
  exists new,
    PDF.pages (fst (PDF.renderLine getTextWidth (d, y) line)) = PDF.pages d
    /\ PDF.drawn (fst (PDF.renderLine getTextWidth (d, y) line))
       = PDF.drawn d ++ new
    /\ Forall (fun op => PDF.onPage op = PDF.pages d
                         /\ (headingDraw op -> PDF.atY op = y)) new.
Proof.
  unfold PDF.renderLine. destruct (PDF.type line).
  - eexists. simpl. repeat split; auto.
  - eexists. simpl. repeat split; auto.
  - destruct (renderParagraph_draws (PDF.setFontSize 12 d) (PDF.ltext line)
                20%Q y PDF.lineHeight) as [new (Hp & _ & Hd & Ha)].
    exists new. simpl in *. repeat split; auto.
    apply Forall_impl with (2 := Ha).
    intros op [Hs Ho]. split; [exact Ho|].
    intros Hh. contradiction.
  - exists []. simpl. rewrite app_nil_r. repeat split; auto.
Qed.

(** After the page-break test the cursor is within the page. *)
Lemma pageBreak_cursor (st : PDF.Doc * Q) :
  (snd (PDF.pageBreak pageHeight st) <= pageHeight - 20)%Q.
Proof.
  destruct st as [d y]. unfold PDF.pageBreak.
  destruct (PDF.gt y (pageHeight - 20)) eqn:E; simpl.
  - apply Qle_minus_iff.
    setoid_replace (pageHeight - 20 + - (20))%Q with (pageHeight + - (40))%Q
      by ring.
    apply Qle_minus_iff in page_tall. exact page_tall.
  - apply gt_false. exact E.
Qed.

Lemma pageBreak_over (d : PDF.Doc) (y : Q) :
  (pageHeight - 20 < y)%Q ->
  PDF.pageBreak pageHeight (d, y) = (PDF.addPage d, 20%Q).
Proof.
  intros H. unfold PDF.pageBreak.
  apply gt_true in H. rewrite H. reflexivity.
Qed.

Lemma pageBreak_within (d : PDF.Doc) (y : Q) :
  (y <= pageHeight - 20)%Q -> PDF.pageBreak pageHeight (d, y) = (d, y).
Proof.
  intros H. unfold PDF.pageBreak.
  apply gt_false in H. rewrite H. reflexivity.
Qed.

Lemma pageBreak_drawn (st : PDF.Doc * Q) :
  PDF.drawn (fst (PDF.pageBreak pageHeight st)) = PDF.drawn (fst st).
Proof.
  destruct st as [d y]. unfold PDF.pageBreak.
  destruct (PDF.gt _ _); reflexivity.
Qed.

Lemma exportLine_headings (st : PDF.Doc * Q) (line : PDF.Line) :
  Forall (fun op => headingDraw op -> aboveBottomMargin pageHeight op)
    (PDF.drawn (fst st)) ->
  Forall (fun op => headingDraw op -> aboveBottomMargin pageHeight op)
    (PDF.drawn (fst (PDF.exportLine pageHeight getTextWidth st line))).
Proof.
  intros H. unfold PDF.exportLine.
  pose proof (pageBreak_cursor st) as Hc.
  pose proof (pageBreak_drawn st) as Hd.
  destruct (PDF.pageBreak pageHeight st) as [d y]. simpl in Hc, Hd.
  destruct (renderLine_draws d y line) as [new (_ & -> & Ha)].
  apply Forall_app. split; [rewrite Hd; exact H|].
  apply Forall_impl with (2 := Ha).
  intros op [_ Hy] Hh. unfold aboveBottomMargin. rewrite (Hy Hh). exact Hc.
Qed.

Lemma export_headings :
  forall lines st,
    Forall (fun op => headingDraw op -> aboveBottomMargin pageHeight op)
      (PDF.drawn (fst st)) ->
    Forall (fun op => headingDraw op -> aboveBottomMargin pageHeight op)
      (PDF.drawn
         (fst (fold_left (PDF.exportLine pageHeight getTextWidth) lines st))).
Proof.
  induction lines as [|l lines IH]; intros st H; simpl; [exact H|].
  apply IH. apply exportLine_headings. exact H.
Qed.

End PageBreaks.

(** ** Global replacement, one code unit at a time *)

Lemma searchFrom_shift (r : regex) (k : nat) :
  forall rest prev idx,
    searchFrom r prev rest (k + idx)
    = option_map (shiftMatch k) (searchFrom r prev rest idx).
Proof.
  induction rest as [|x rest IH]; intros prev idx; simpl.
  - destruct (matchHere r prev []) as [[c n]|]; reflexivity.
  - destruct (matchHere r prev (x :: rest)) as [[c n]|]; [reflexivity|].
    rewrite <- IH. f_equal. lia.
Qed.

Lemma searchFrom_m0_length (r : regex) (prev rest : jsstring) (idx : nat)
    (m : MatchResult) :
  searchFrom r prev rest idx = Some m ->
  index m - idx + length (m0 m) <= length rest
  /\ (m0 m <> [] -> index m - idx < length rest).
Proof.
  intros H. apply searchFrom_spec in H.
  destruct H as (pre & post & n & -> & Hi & _ & H0).
  rewrite H0, Hi, length_app.
  pose proof (length_firstn n post) as Hle.
  split; [lia|].
  intros Hne. destruct post; [destruct n; contradiction|]. simpl. lia.
Qed.

Lemma replaceLoop_fuel (r : regex) (p : replacement) :
  forall f1 f2 prev rest,
    length rest < f1 -> length rest < f2 ->
    replaceLoop f1 r p prev rest = replaceLoop f2 r p prev rest.
Proof.
  induction f1 as [|f1 IH]; intros f2 prev rest H1 H2; [lia|].
  destruct f2 as [|f2]; [lia|]. cbn [replaceLoop].
  destruct (searchFrom r prev rest 0) as [m|] eqn:E; [|reflexivity].
  apply searchFrom_m0_length in E. destruct E as [Hlen Hne].
  rewrite Nat.sub_0_r in Hlen, Hne.
  destruct (m0 m) as [|y m0'] eqn:E0.
  - destruct (skipn (index m + length (@nil ascii)) rest) as [|x rest'] eqn:Es;
      [reflexivity|].
    f_equal. f_equal. f_equal.
    assert (length (x :: rest') <= length rest).
    { rewrite <- Es, length_skipn. lia. }
    simpl in H. apply IH; lia.
  - f_equal. f_equal.
    assert (length (skipn (index m + length (y :: m0')) rest) < length rest).
    { rewrite length_skipn. simpl in *.
      assert (index m < length rest) by (apply Hne; discriminate). lia. }
    apply IH; lia.
Qed.

Lemma replaceAll_from (r : regex) (p : replacement) (s : jsstring) :
  replaceAll r p s = replaceFrom r p [] s.
Proof. reflexivity. Qed.

(** Nothing left: nothing to replace. *)
Lemma replaceFrom_end (r : regex) (p : replacement) (prev : jsstring) :
  matchHere r prev [] = None -> replaceFrom r p prev [] = [].
Proof.
  intros H. unfold replaceFrom. simpl. rewrite H. reflexivity.
Qed.

Lemma replaceLoop_S (fuel : nat) (r : regex) (p : replacement)
    (prev rest : jsstring) :
  replaceLoop (S fuel) r p prev rest
  = match searchFrom r prev rest 0 with
    | None => rest
    | Some m =>
        let stop := index m + length (m0 m) in
        let before := firstn (index m) rest in
        match m0 m with
        | _ :: _ =>
            before ++ substitute p m
              ++ replaceLoop fuel r p (rev (firstn stop rest) ++ prev)
                   (skipn stop rest)
        | [] =>
            match skipn stop rest with
            | x :: rest' =>
                before ++ substitute p m
                  ++ x :: replaceLoop fuel r p
                            (x :: rev (firstn stop rest) ++ prev) rest'
            | [] => before ++ substitute p m
            end
        end
    end.
Proof. reflexivity. Qed.

(** No match at the position: its code unit is kept. *)
Lemma replaceFrom_keep (r : regex) (p : replacement) (prev : jsstring)
    (x : ascii) (rest : jsstring) :
  matchHere r prev (x :: rest) = None ->
  replaceFrom r p prev (x :: rest) = x :: replaceFrom r p (x :: prev) rest.
Proof.
  intros H. unfold replaceFrom. cbn [length]. rewrite replaceLoop_S.
  assert (Es : searchFrom r prev (x :: rest) 0
               = option_map (shiftMatch 1) (searchFrom r (x :: prev) rest 0)).
  { cbn [searchFrom]. rewrite H. change 1 with (1 + 0).
    apply searchFrom_shift. }
  rewrite Es. rewrite (replaceLoop_S (length rest)).
  destruct (searchFrom r (x :: prev) rest 0) as [m|] eqn:E;
    cbn [option_map]; [|reflexivity].
  pose proof (searchFrom_m0_length _ _ _ _ _ E) as [Hlen Hne].
  rewrite Nat.sub_0_r in Hlen, Hne.
  replace (substitute p (shiftMatch 1 m)) with (substitute p m)
    by (destruct p; reflexivity).
  cbn [shiftMatch index m0 Nat.add firstn skipn rev].
  cbv zeta.
  destruct (m0 m) as [|y m0'] eqn:E0.
  - destruct (skipn (index m + length (@nil ascii)) rest) as [|z rest'] eqn:Es'.
    + reflexivity.
    + cbn [app]. f_equal. f_equal. f_equal. f_equal.
      rewrite <- app_assoc. cbn [app].
      assert (length (z :: rest') <= length rest).
      { rewrite <- Es', length_skipn. lia. }
      simpl in H0. apply replaceLoop_fuel; lia.
  - cbn [app]. f_equal. f_equal. f_equal.
    rewrite <- app_assoc. cbn [app].
    assert (length (skipn (index m + length (y :: m0')) rest) < length rest).
    { rewrite length_skipn. simpl in *.
      assert (index m < length rest) by (apply Hne; discriminate). lia. }
    apply replaceLoop_fuel; lia.
Qed.

(** A non-empty match at the position: it is replaced, and the search goes on
    behind it. *)
Lemma replaceFrom_match (r : regex) (p : replacement) (prev rest : jsstring)
    (c : option jsstring) (n : nat) :
  matchHere r prev rest = Some (c, n) -> 1 <= n <= length rest ->
  replaceFrom r p prev rest
  = substituteCapture p c
    ++ replaceFrom r p (rev (firstn n rest) ++ prev) (skipn n rest).
Proof.
  intros H Hn. unfold replaceFrom at 1. rewrite replaceLoop_S.
  rewrite (searchFrom_here r prev rest 0 c n H). cbv zeta.
  cbn [index m0 m1 Nat.add firstn app].
  assert (Hl : length (firstn n rest) = n) by (apply firstn_length_le; lia).
  rewrite Hl.
  destruct (firstn n rest) as [|y l] eqn:Ef; [simpl in Hl; lia|].
  rewrite <- Ef.
  replace (substitute p (mkMatch 0 (y :: l) c)) with (substituteCapture p c)
    by (destruct p; reflexivity).
  f_equal. unfold replaceFrom. apply replaceLoop_fuel.
  - rewrite length_skipn. lia.
  - lia.
Qed.

(** ** The emphasis patterns stay within a line *)

Lemma noNewline_cons (x : ascii) (l : jsstring) :
  noNewline (x :: l) <-> Ascii.eqb x nl = false /\ noNewline l.
Proof.
  unfold noNewline. simpl. rewrite andb_true_iff, negb_true_iff. reflexivity.
Qed.

Lemma lineLocal_nil : lineLocal (matchHere []).
Proof. intros prev l tail _. reflexivity. Qed.

Lemma lineLocal_Lit (c : ascii) (r : regex) :
  Ascii.eqb nl c = false ->
  lineLocal (matchHere r) -> lineLocal (matchHere (Lit c :: r)).
Proof.
  intros Hc Hr prev l tail Hl. destruct l as [|x l]; cbn [app matchHere].
  - rewrite Hc. reflexivity.
  - apply noNewline_cons in Hl. destruct Hl as [_ Hl].
    rewrite (Hr (x :: prev) l tail Hl). reflexivity.
Qed.

Lemma lineLocal_lazyLoop (cont : jsstring -> jsstring -> attempt) :
  lineLocal cont ->
  forall l taken need prev tail,
    noNewline l ->
    lazyLoop AnyChar cont taken need prev (l ++ nl :: tail)
    = lazyLoop AnyChar cont taken need prev l.
Proof.
  intros Hc. induction l as [|x l IH]; intros taken need prev tail Hl.
  - pose proof (Hc prev [] tail Hl) as H0. cbn [app] in H0.
    cbn [app lazyLoop]. rewrite H0.
    destruct (match need with 0 => cont prev [] | S _ => None end)
      as [[c n]|]; reflexivity.
  - pose proof Hl as Hl'. apply noNewline_cons in Hl'. destruct Hl' as [_ Hl'].
    pose proof (Hc prev (x :: l) tail Hl) as H0. cbn [app] in H0.
    cbn [app lazyLoop]. rewrite H0.
    rewrite (IH _ _ _ _ Hl'). reflexivity.
Qed.

Lemma lineLocal_GroupLazy (min : nat) (r : regex) :
  lineLocal (matchHere r) ->
  lineLocal (matchHere (GroupLazy min AnyChar :: r)).
Proof.
  intros Hr prev l tail Hl. rewrite !matchHere_GroupLazy.
  apply lineLocal_lazyLoop; assumption.
Qed.

Lemma reStripBold_lineLocal : lineLocal (matchHere reStripBold).
Proof.
  unfold reStripBold.
  repeat (apply lineLocal_Lit; [reflexivity|]).
  apply lineLocal_GroupLazy.
  repeat (apply lineLocal_Lit; [reflexivity|]).
  apply lineLocal_nil.
Qed.

Lemma reStripItalic_lineLocal : lineLocal (matchHere reStripItalic).
Proof.
  unfold reStripItalic.
  repeat (apply lineLocal_Lit; [reflexivity|]).
  apply lineLocal_GroupLazy.
  repeat (apply lineLocal_Lit; [reflexivity|]).
  apply lineLocal_nil.
Qed.

Lemma contextFree_nil : contextFree (matchHere []).
Proof. intros prev prev' rest. reflexivity. Qed.

Lemma contextFree_Lit (c : ascii) (r : regex) :
  contextFree (matchHere r) -> contextFree (matchHere (Lit c :: r)).
Proof.
  intros Hr prev prev' rest. destruct rest as [|x rest]; cbn [matchHere];
    [reflexivity|].
  rewrite (Hr (x :: prev) (x :: prev') rest). reflexivity.
Qed.

Lemma contextFree_lazyLoop (k : charClass)
    (cont : jsstring -> jsstring -> attempt) :
  contextFree cont ->
  forall rest taken need prev prev',
    lazyLoop k cont taken need prev rest
    = lazyLoop k cont taken need prev' rest.
Proof.
  intros Hc. induction rest as [|x rest IH]; intros taken need prev prev';
    cbn [lazyLoop]; rewrite (Hc prev prev'); [reflexivity|].
  rewrite (IH _ _ (x :: prev) (x :: prev')). reflexivity.
Qed.

Lemma contextFree_GroupLazy (min : nat) (k : charClass) (r : regex) :
  contextFree (matchHere r) ->
  contextFree (matchHere (GroupLazy min k :: r)).
Proof.
  intros Hr prev prev' rest. rewrite !matchHere_GroupLazy.
  apply contextFree_lazyLoop; assumption.
Qed.

Lemma reStripBold_contextFree : contextFree (matchHere reStripBold).
Proof.
  unfold reStripBold.
  repeat apply contextFree_Lit. apply contextFree_GroupLazy.
  repeat apply contextFree_Lit. apply contextFree_nil.
Qed.

Lemma reStripItalic_contextFree : contextFree (matchHere reStripItalic).
Proof.
  unfold reStripItalic.
  repeat apply contextFree_Lit. apply contextFree_GroupLazy.
  repeat apply contextFree_Lit. apply contextFree_nil.
Qed.

Lemma matchHere_Lit_inv (c : ascii) (r : regex) (prev rest : jsstring)
    (cap : option jsstring) (n : nat) :
  matchHere (Lit c :: r) prev rest = Some (cap, n) ->
  exists rest' n',
    rest = c :: rest' /\ n = S n'
    /\ matchHere r (c :: prev) rest' = Some (cap, n').
Proof.
  cbn [matchHere]. destruct rest as [|x rest]; [discriminate|].
  destruct (Ascii.eqb x c) eqn:E; [|discriminate].
  apply Ascii.eqb_eq in E. subst x.
  destruct (matchHere r (c :: prev) rest) as [[cap' n']|] eqn:Er;
    [|discriminate].
  intros H. inversion H; subst. exists rest, n'. repeat split; auto.
Qed.

Lemma reStripBold_wraps : wraps [star; star] reStripBold.
Proof.
  intros prev rest c n H. unfold reStripBold in H.
  apply matchHere_Lit_inv in H. destruct H as (r1 & n1 & -> & -> & H).
  apply matchHere_Lit_inv in H. destruct H as (r2 & n2 & -> & -> & H).
  rewrite matchHere_GroupLazy in H. apply lazyLoop_sound in H.
  destruct H as (mid & post & c' & n' & -> & -> & _ & _ & H & ->).
  apply matchHere_Lit_inv in H. destruct H as (r3 & n3 & -> & -> & H).
  apply matchHere_Lit_inv in H. destruct H as (r4 & n4 & -> & -> & H).
  inversion H; subst.
  exists mid, r4. simpl. repeat split; auto; lia.
Qed.

Lemma reStripItalic_wraps : wraps [star] reStripItalic.
Proof.
  intros prev rest c n H. unfold reStripItalic in H.
  apply matchHere_Lit_inv in H. destruct H as (r1 & n1 & -> & -> & H).
  rewrite matchHere_GroupLazy in H. apply lazyLoop_sound in H.
  destruct H as (mid & post & c' & n' & -> & -> & _ & _ & H & ->).
  apply matchHere_Lit_inv in H. destruct H as (r3 & n3 & -> & -> & H).
  inversion H; subst.
  exists mid, r3. simpl. repeat split; auto; lia.
Qed.

Section LineByLine.

Variable r : regex.
Variable d : jsstring.
Hypothesis r_lineLocal : lineLocal (matchHere r).
Hypothesis r_contextFree : contextFree (matchHere r).
Hypothesis r_wraps : wraps d r.
Hypothesis d_nonempty : d <> [].

Lemma wraps_bounds (prev rest : jsstring) (c : option jsstring) (n : nat) :
  matchHere r prev rest = Some (c, n) -> 1 <= n <= length rest.
Proof.
  intros H. apply r_wraps in H.
  destruct H as (mid & post & -> & _ & ->).
  rewrite !length_app. destruct d; [contradiction|]. simpl. lia.
Qed.

Lemma wraps_end (prev : jsstring) : matchHere r prev [] = None.
Proof.
  destruct (matchHere r prev []) as [[c n]|] eqn:E; [|reflexivity].
  apply wraps_bounds in E. simpl in E. lia.
Qed.

Lemma replaceFrom_contextFree (p : replacement) :
  forall n s prev prev',
    length s <= n -> replaceFrom r p prev s = replaceFrom r p prev' s.
Proof.
  induction n as [|n IH]; intros s prev prev' Hn.
  - destruct s; [|simpl in Hn; lia].
    rewrite !replaceFrom_end by apply wraps_end. reflexivity.
  - destruct s as [|x s].
    { rewrite !replaceFrom_end by apply wraps_end. reflexivity. }
    destruct (matchHere r prev (x :: s)) as [[c k]|] eqn:E.
    + pose proof (wraps_bounds _ _ _ _ E) as Hk.
      rewrite (replaceFrom_match r p prev _ c k E Hk).
      rewrite (r_contextFree prev prev') in E.
      rewrite (replaceFrom_match r p prev' _ c k E Hk).
      f_equal. apply IH. rewrite length_skipn. cbn [length] in *. lia.
    + rewrite (replaceFrom_keep r p prev x s E).
      rewrite (r_contextFree prev prev') in E.
      rewrite (replaceFrom_keep r p prev' x s E).
      f_equal. apply IH. simpl in Hn. lia.
Qed.

Lemma replaceAll_nil (p : replacement) : replaceAll r p [] = [].
Proof. rewrite replaceAll_from. apply replaceFrom_end, wraps_end. Qed.

Lemma replaceAll_keep (p : replacement) (x : ascii) (s : jsstring) :
  matchHere r [] (x :: s) = None ->
  replaceAll r p (x :: s) = x :: replaceAll r p s.
Proof.
  intros E. rewrite !replaceAll_from, (replaceFrom_keep r p [] x s E).
  f_equal. apply (replaceFrom_contextFree p (length s)). apply Nat.le_refl.
Qed.

Lemma replaceAll_match (p : replacement) (s : jsstring)
    (c : option jsstring) (n : nat) :
  matchHere r [] s = Some (c, n) ->
  replaceAll r p s = substituteCapture p c ++ replaceAll r p (skipn n s).
Proof.
  intros E. pose proof (wraps_bounds _ _ _ _ E) as Hn.
  rewrite !replaceAll_from, (replaceFrom_match r p [] s c n E Hn).
  f_equal.
  apply (replaceFrom_contextFree p (length (skipn n s))). apply Nat.le_refl.
Qed.

(** The replacement of a line does not depend on the lines after it. *)
Lemma replaceAll_line (p : replacement) :
  forall n l tail,
    length l <= n -> noNewline l ->
    replaceAll r p (l ++ nl :: tail)
    = replaceAll r p l ++ nl :: replaceAll r p tail.
Proof.
  induction n as [|n IH]; intros l tail Hn Hl.
  - destruct l; [|simpl in Hn; lia]. cbn [app].
    rewrite replaceAll_nil. cbn [app].
    apply replaceAll_keep.
    rewrite <- (wraps_end []). apply (r_lineLocal [] [] tail). reflexivity.
  - destruct (matchHere r [] l) as [[c k]|] eqn:E.
    + pose proof (wraps_bounds _ _ _ _ E) as Hk.
      rewrite (replaceAll_match p l c k E).
      rewrite <- (r_lineLocal [] l tail Hl) in E.
      rewrite (replaceAll_match p _ c k E).
      rewrite <- app_assoc. f_equal.
      rewrite skipn_app.
      replace (k - length l) with 0 by lia. cbn [skipn].
      apply IH.
      * rewrite length_skipn. lia.
      * unfold noNewline in *. rewrite <- (firstn_skipn k l) in Hl.
        rewrite forallb_app in Hl. apply andb_true_iff in Hl. tauto.
    + destruct l as [|x l].
      * cbn [app]. rewrite replaceAll_nil. cbn [app].
        apply replaceAll_keep.
        rewrite <- (wraps_end []). apply (r_lineLocal [] [] tail). reflexivity.
      * rewrite (replaceAll_keep p x l E).
        rewrite <- (r_lineLocal [] (x :: l) tail Hl) in E.
        cbn [app] in E |- *. rewrite (replaceAll_keep p x _ E).
        f_equal. apply noNewline_cons in Hl. destruct Hl as [_ Hl].
        apply IH; [simpl in Hn; lia|exact Hl].
Qed.

Lemma join_cons2 (l l2 : jsstring) (ls : list jsstring) :
  join nl (l :: l2 :: ls) = l ++ nl :: join nl (l2 :: ls).
Proof. reflexivity. Qed.

Lemma replaceAll_join (p : replacement) :
  forall ls,
    Forall noNewline ls ->
    replaceAll r p (join nl ls) = join nl (map (replaceAll r p) ls).
Proof.
  induction ls as [|l ls IH]; intros H.
  - apply replaceAll_nil.
  - inversion H as [|? ? Hl Hls]; subst.
    destruct ls as [|l2 ls]; [reflexivity|].
    rewrite join_cons2.
    rewrite (replaceAll_line p (length l)) by (auto using Nat.le_refl).
    rewrite (IH Hls). reflexivity.
Qed.

(** What the replacement of '$1' leaves comes from the text. *)
Lemma replaceAll_forallb (P : ascii -> bool) :
  forall n s,
    length s <= n -> forallb P s = true ->
    forallb P (replaceAll r Group1 s) = true.
Proof.
  induction n as [|n IH]; intros s Hn Hs.
  - destruct s; [|simpl in Hn; lia]. rewrite replaceAll_nil. reflexivity.
  - destruct (matchHere r [] s) as [[c k]|] eqn:E.
    + pose proof (wraps_bounds _ _ _ _ E) as Hk.
      rewrite (replaceAll_match Group1 s c k E).
      pose proof E as E'. apply r_wraps in E'.
      destruct E' as (mid & post & Hsd & -> & Hkd).
      rewrite forallb_app. apply andb_true_iff. split.
      * cbn. rewrite Hsd in Hs. rewrite !forallb_app in Hs.
        rewrite !andb_true_iff in Hs. tauto.
      * apply IH.
        -- rewrite length_skipn. lia.
        -- rewrite <- (firstn_skipn k s) in Hs.
           rewrite forallb_app in Hs. apply andb_true_iff in Hs. tauto.
    + destruct s as [|x s]; [rewrite replaceAll_nil; reflexivity|].
      rewrite (replaceAll_keep Group1 x s E).
      simpl in Hs |- *. apply andb_true_iff in Hs. destruct Hs as [Hx Hs].
      rewrite Hx. apply IH; [simpl in Hn; lia|exact Hs].
Qed.

End LineByLine.

(** ** The heading-marker pattern on clean lines *)

Lemma reHeading_inside (prev rest : jsstring) :
  insideLine prev -> matchHere reHeadingMarker prev rest = None.
Proof.
  destruct prev as [|p prev]; [contradiction|].
  simpl. intros ->. reflexivity.
Qed.

Lemma reHeading_not_hash (prev : jsstring) (x : ascii) (rest : jsstring) :
  Ascii.eqb x hash = false ->
  matchHere reHeadingMarker prev (x :: rest) = None.
Proof.
  intros H. destruct prev as [|p prev]; simpl; rewrite ?H;
    [reflexivity|destruct (isLineTerminator p); reflexivity].
Qed.

Lemma reHeading_end (prev : jsstring) : matchHere reHeadingMarker prev [] = None.
Proof.
  destruct prev as [|p prev]; simpl;
    [reflexivity|destruct (isLineTerminator p); reflexivity].
Qed.

(** "# " and then a character that is not white space: the marker and the
    space are matched. *)
Lemma reHeading_h1 (prev : jsstring) (x : ascii) (rest : jsstring) :
  atLineStart prev -> isWhiteSpace x = false ->
  matchHere reHeadingMarker prev (hash :: space :: x :: rest) = Some (None, 2).
Proof.
  intros Hp Hx.
  destruct prev as [|p prev]; simpl in Hp; simpl; rewrite ?Hp, ?Hx; reflexivity.
Qed.

Lemma reHeading_h2 (prev : jsstring) (x : ascii) (rest : jsstring) :
  atLineStart prev -> isWhiteSpace x = false ->
  matchHere reHeadingMarker prev (hash :: hash :: space :: x :: rest)
  = Some (None, 3).
Proof.
  intros Hp Hx.
  destruct prev as [|p prev]; simpl in Hp; simpl; rewrite ?Hp, ?Hx; reflexivity.
Qed.

(** "#" and then a character that is neither "#" nor white space. *)
Lemma reHeading_hash_other (prev : jsstring) (x : ascii) (rest : jsstring) :
  Ascii.eqb x hash = false -> isWhiteSpace x = false ->
  matchHere reHeadingMarker prev (hash :: x :: rest) = None.
Proof.
  intros Hh Hx.
  destruct prev as [|p prev]; simpl; rewrite ?Hh, ?Hx;
    [reflexivity|destruct (isLineTerminator p); reflexivity].
Qed.

(** "##" and then a character that is not white space. *)
Lemma reHeading_hashes_other (prev : jsstring) (x : ascii) (rest : jsstring) :
  isWhiteSpace x = false ->
  matchHere reHeadingMarker prev (hash :: hash :: x :: rest) = None.
Proof.
  intros Hx.
  destruct prev as [|p prev]; simpl; rewrite ?Hx;
    destruct (Ascii.eqb x hash); simpl; rewrite ?Hx;
    try reflexivity; destruct (isLineTerminator p); reflexivity.
Qed.

Lemma replaceFrom_heading_inside :
  forall a prev rest,
    insideLine prev -> noLineTerminator a ->
    replaceFrom reHeadingMarker Nothing prev (a ++ rest)
    = a ++ replaceFrom reHeadingMarker Nothing (rev a ++ prev) rest.
Proof.
  induction a as [|x a IH]; intros prev rest Hp Ha; [reflexivity|].
  unfold noLineTerminator in Ha. simpl in Ha.
  apply andb_true_iff in Ha. destruct Ha as [Hx Ha].
  apply negb_true_iff in Hx.
  cbn [app]. rewrite replaceFrom_keep by (apply reHeading_inside; exact Hp).
  rewrite IH; [|exact Hx|exact Ha].
  simpl. rewrite <- app_assoc. reflexivity.
Qed.

Lemma noLineTerminator_cons (x : ascii) (l : jsstring) :
  noLineTerminator (x :: l) <-> isLineTerminator x = false /\ noLineTerminator l.
Proof.
  unfold noLineTerminator. simpl.
  rewrite andb_true_iff, negb_true_iff. reflexivity.
Qed.

(** A line at whose start the pattern does not match is kept. *)
Lemma replaceFrom_heading_kept (prev l rest : jsstring) :
  noLineTerminator l ->
  matchHere reHeadingMarker prev (l ++ rest) = None ->
  replaceFrom reHeadingMarker Nothing prev (l ++ rest)
  = l ++ replaceFrom reHeadingMarker Nothing (rev l ++ prev) rest.
Proof.
  intros Hl Hm. destruct l as [|h t]; [reflexivity|].
  apply noLineTerminator_cons in Hl. destruct Hl as [Hh Ht].
  cbn [app] in Hm |- *. rewrite (replaceFrom_keep _ _ _ _ _ Hm).
  rewrite replaceFrom_heading_inside; [|exact Hh|exact Ht].
  simpl. rewrite <- app_assoc. reflexivity.
Qed.

(** A line at whose start the pattern matches [n] code units loses them. *)
Lemma replaceFrom_heading_dropped (prev marker text rest : jsstring) (n : nat) :
  n = length marker -> 1 <= n ->
  matchHere reHeadingMarker prev ((marker ++ text) ++ rest) = Some (None, n) ->
  insideLine (rev marker ++ prev) -> noLineTerminator text ->
  replaceFrom reHeadingMarker Nothing prev ((marker ++ text) ++ rest)
  = text
    ++ replaceFrom reHeadingMarker Nothing (rev (marker ++ text) ++ prev) rest.
Proof.
  intros Hn H1 Hm Hin Ht.
  rewrite (replaceFrom_match _ _ _ _ _ _ Hm)
    by (rewrite !length_app; lia).
  rewrite <- app_assoc.
  rewrite firstn_app_exact, skipn_app_exact by assumption.
  cbn [substituteCapture substitute app].
  rewrite replaceFrom_heading_inside by assumption.
  rewrite rev_app_distr, <- app_assoc. reflexivity.
Qed.

Lemma not_blank_not_space (x : ascii) :
  isWhiteSpace x = false -> Ascii.eqb space x = false.
Proof.
  intros H. destruct (Ascii.eqb space x) eqn:E; [|reflexivity].
  apply Ascii.eqb_eq in E. subst x. discriminate.
Qed.

Lemma specLine_paragraph (l : jsstring) :
  startsWith (str "# ") l = false -> startsWith (str "## ") l = false ->
  PDF.ltext (specLine l) = l.
Proof.
  intros H1 H2. unfold specLine. destruct l; [reflexivity|].
  rewrite H1, H2. reflexivity.
Qed.

Lemma startsWith_hash (p : jsstring) (h : ascii) (t : jsstring) :
  Ascii.eqb h hash = false -> startsWith (hash :: p) (h :: t) = false.
Proof.
  intros H. cbn [startsWith]. rewrite Ascii.eqb_sym, H. reflexivity.
Qed.

Lemma startsWith_hash_space (p : jsstring) (c : ascii) (t : jsstring) :
  isWhiteSpace c = false ->
  startsWith (hash :: space :: p) (hash :: c :: t) = false.
Proof.
  intros H. cbn [startsWith].
  rewrite (not_blank_not_space c H), ?Ascii.eqb_refl. reflexivity.
Qed.

Lemma startsWith_hash_hash_space (p : jsstring) (c : ascii) (t : jsstring) :
  isWhiteSpace c = false ->
  startsWith (hash :: hash :: space :: p) (hash :: hash :: c :: t) = false.
Proof.
  intros H. cbn [startsWith].
  rewrite (not_blank_not_space c H), ?Ascii.eqb_refl. reflexivity.
Qed.

(** The heading-marker replacement on one clean line, at the start of the
    line, whatever follows the line: the text the line parser keeps. *)
Lemma replaceFrom_heading_line (prev l rest : jsstring) :
  atLineStart prev -> cleanLine l = true ->
  replaceFrom reHeadingMarker Nothing prev (l ++ rest)
  = PDF.ltext (specLine l)
    ++ replaceFrom reHeadingMarker Nothing (rev l ++ prev) rest.
Proof.
  intros Hp Hc. unfold cleanLine in Hc. rewrite !andb_true_iff in Hc.
  destruct Hc as [[[_ _] Hl] Hs]. fold (noLineTerminator l) in Hl.
  destruct l as [|h t]; [reflexivity|].
  cbn [headingShape] in Hs.
  destruct (Ascii.eqb h hash) eqn:Eh.
  - apply Ascii.eqb_eq in Eh. subst h.
    destruct t as [|c t]; [discriminate|].
    destruct (Ascii.eqb c hash) eqn:Ec.
    + apply Ascii.eqb_eq in Ec. subst c.
      destruct t as [|e t]; [discriminate|]. cbn [afterMarker] in Hs.
      destruct (isWhiteSpace e) eqn:Ee.
      * apply andb_true_iff in Hs. destruct Hs as [Es Hx].
        apply Ascii.eqb_eq in Es. subst e.
        destruct t as [|x t]; [discriminate|].
        apply negb_true_iff in Hx.
        change (PDF.ltext (specLine (hash :: hash :: space :: x :: t)))
          with (x :: t).
        apply noLineTerminator_cons in Hl. destruct Hl as [_ Hl].
        apply noLineTerminator_cons in Hl. destruct Hl as [_ Hl].
        apply noLineTerminator_cons in Hl. destruct Hl as [_ Hl].
        apply (replaceFrom_heading_dropped prev [hash; hash; space] (x :: t)
                 rest 3);
          [reflexivity|lia|apply reHeading_h2; assumption|reflexivity|exact Hl].
      * rewrite specLine_paragraph;
          [|reflexivity|apply startsWith_hash_hash_space; exact Ee].
        apply replaceFrom_heading_kept; [exact Hl|].
        apply reHeading_hashes_other. exact Ee.
    + cbn [afterMarker] in Hs. destruct (isWhiteSpace c) eqn:Ew.
      * apply andb_true_iff in Hs. destruct Hs as [Es Hx].
        apply Ascii.eqb_eq in Es. subst c.
        destruct t as [|x t]; [discriminate|].
        apply negb_true_iff in Hx.
        change (PDF.ltext (specLine (hash :: space :: x :: t))) with (x :: t).
        apply noLineTerminator_cons in Hl. destruct Hl as [_ Hl].
        apply noLineTerminator_cons in Hl. destruct Hl as [_ Hl].
        apply (replaceFrom_heading_dropped prev [hash; space] (x :: t) rest 2);
          [reflexivity|lia|apply reHeading_h1; assumption|reflexivity|exact Hl].
      * rewrite specLine_paragraph;
          [|apply startsWith_hash_space; exact Ew
           |change (str "## ") with (hash :: hash :: [space]);
            cbn [startsWith];
            rewrite (Ascii.eqb_sym hash c), Ec, ?Ascii.eqb_refl; reflexivity].
        apply replaceFrom_heading_kept; [exact Hl|].
        apply reHeading_hash_other; assumption.
  - rewrite specLine_paragraph
      by (apply startsWith_hash; exact Eh).
    apply replaceFrom_heading_kept; [exact Hl|].
    apply reHeading_not_hash. exact Eh.
Qed.

Lemma replaceFrom_heading_lines :
  forall ls prev,
    atLineStart prev -> forallb cleanLine ls = true ->
    replaceFrom reHeadingMarker Nothing prev (join nl ls)
    = join nl (map (fun l => PDF.ltext (specLine l)) ls).
Proof.
  induction ls as [|l ls IH]; intros prev Hp Hc.
  - apply replaceFrom_end, reHeading_end.
  - cbn [forallb] in Hc. apply andb_true_iff in Hc. destruct Hc as [Hl Hc].
    destruct ls as [|l2 ls].
    + cbn [join map]. rewrite <- (app_nil_r l) at 1.
      rewrite (replaceFrom_heading_line prev l [] Hp Hl).
      rewrite replaceFrom_end by apply reHeading_end. apply app_nil_r.
    + rewrite join_cons2. cbn [map]. rewrite join_cons2.
      rewrite (replaceFrom_heading_line prev l _ Hp Hl).
      rewrite replaceFrom_keep by (apply reHeading_not_hash; reflexivity).
      f_equal. f_equal. apply (IH (nl :: rev l ++ prev)); [reflexivity|exact Hc].
Qed.

(** ** Lines *)

Lemma split_nonempty (sep : ascii) (s : jsstring) : split sep s <> [].
Proof.
  destruct s as [|x s]; simpl; [discriminate|].
  destruct (Ascii.eqb x sep); [discriminate|].
  destruct (split sep s); discriminate.
Qed.

Lemma join_split (s : jsstring) : join nl (split nl s) = s.
Proof.
  induction s as [|x s IH]; [reflexivity|]. cbn [split].
  pose proof (split_nonempty nl s) as Hne.
  destruct (Ascii.eqb x nl) eqn:E.
  - apply Ascii.eqb_eq in E. subst x.
    destruct (split nl s) as [|l ls]; [contradiction|].
    rewrite join_cons2, IH. reflexivity.
  - destruct (split nl s) as [|l ls]; [contradiction|].
    destruct ls as [|l2 ls].
    + simpl in IH |- *. rewrite IH. reflexivity.
    + rewrite join_cons2 in IH |- *. cbn [app]. rewrite IH. reflexivity.
Qed.

Lemma split_noNewline (s : jsstring) : Forall noNewline (split nl s).
Proof.
  induction s as [|x s IH]; cbn [split].
  - repeat constructor.
  - destruct (Ascii.eqb x nl) eqn:E.
    + constructor; [reflexivity|exact IH].
    + destruct (split nl s) as [|l ls]; [repeat constructor|].
      * apply noNewline_cons. split; [exact E|reflexivity].
      * inversion IH; subst. constructor; [|assumption].
        apply noNewline_cons. split; assumption.
Qed.

Lemma noNewline_skipn (n : nat) (l : jsstring) :
  noNewline l -> noNewline (skipn n l).
Proof.
  unfold noNewline. intros H. rewrite <- (firstn_skipn n l) in H.
  rewrite forallb_app in H. apply andb_true_iff in H. tauto.
Qed.

Lemma specLine_noNewline (l : jsstring) :
  noNewline l -> noNewline (PDF.ltext (specLine l)).
Proof.
  intros H. unfold specLine. destruct l as [|x l]; [reflexivity|].
  destruct (startsWith _ _); [apply noNewline_skipn; exact H|].
  destruct (startsWith _ _); [apply noNewline_skipn; exact H|exact H].
Qed.

Lemma trimStart_kept (l : jsstring) :
  startsBlank l = false -> trimStart l = l.
Proof.
  destruct l as [|x l]; [reflexivity|]. simpl. intros ->. reflexivity.
Qed.

Lemma cleanLine_trim (l : jsstring) : cleanLine l = true -> trim l = l.
Proof.
  unfold cleanLine. rewrite !andb_true_iff, !negb_true_iff.
  intros [[[H1 H2] _] _]. unfold trim, trimEnd.
  rewrite (trimStart_kept l H1), (trimStart_kept (rev l) H2).
  apply rev_involutive.
Qed.

(** C6: the plain-text renderer against the line pipeline.  On every input
    whose lines are clean - free of leading and trailing white space and of
    line terminators, a "#" or "##" at the start of a line being followed by
    a character that is not white space, or by one space and then such a
    character - the output is the result of the line pipeline: split at line
    breaks, trim each line, strip the heading prefix of the heading lines,
    remove the bold and italic markers, join the lines in their order, trim
    the whole; for "# Title", an empty line and "This is **bold** and
    *italic*." it is "Title", an empty line and "This is bold and italic.".
    The renderer looks for the heading markers in the text as a whole and
    trims no line, so a heading line that begins with white space keeps its
    marker: for "a", a line feed and "  # Title" the output is the content
    unchanged, where the line pipeline gives "a", a line feed and "Title",
    and where the paged and the structured renderer, which trim each line
    first, make the first-level heading "Title" of that line.  An export
    request for the plain-text format hands this content to the renderer
    as it is. *)
Theorem plain_text_pipeline :
  (forall c, forallb cleanLine (split nl c) = true ->
     TXT.export c = specPlainText c)
  /\ TXT.export (str "# Title" ++ [nl; nl] ++ str "This is **bold** and *italic*.")
     = str "Title" ++ [nl; nl] ++ str "This is bold and italic."
  /\ TXT.export (str "a" ++ [nl] ++ str "  # Title")
     = str "a" ++ [nl] ++ str "  # Title"
  /\ specPlainText (str "a" ++ [nl] ++ str "  # Title")
     = str "a" ++ [nl] ++ str "Title"
  /\ TXT.export (str "a" ++ [nl] ++ str "  # Title")
     <> specPlainText (str "a" ++ [nl] ++ str "  # Title")
  /\ PDF.parseMarkdown (str "a" ++ [nl] ++ str "  # Title")
     = [PDF.mkLine PDF.paragraph (str "a"); PDF.mkLine PDF.h1 (str "Title")]
  /\ DOCX.parseMarkdownToDocx (str "a" ++ [nl] ++ str "  # Title")
     = [DOCX.ParagraphChildren [DOCX.plainRun (str "a")];
        DOCX.ParagraphText (str "Title") (Some DOCX.HEADING_1)]
  /\ (forall pageHeight getTextWidth,
        Main.artifact
          (Main.handleExport pageHeight getTextWidth
             (str "a" ++ [nl] ++ str "  # Title") (str "txt"))
        = Some (Main.TxtFile (str "a" ++ [nl] ++ str "  # Title"))).
Proof.
  split;
    [|repeat split; try reflexivity;
      try (vm_compute; discriminate); intros; reflexivity].
  intros c Hc. unfold TXT.export, TXT.stripMarkdown, specPlainText.
  cbv zeta. f_equal.
  pose proof (split_noNewline c) as Hn.
  set (heads := map (fun l => PDF.ltext (specLine l)) (split nl c)).
  assert (HH : replaceAll reHeadingMarker Nothing c = join nl heads).
  { transitivity (replaceAll reHeadingMarker Nothing (join nl (split nl c))).
    - f_equal. symmetry. apply join_split.
    - rewrite replaceAll_from.
      apply (replaceFrom_heading_lines (split nl c) [] I Hc). }
  rewrite HH.
  assert (Hh : Forall noNewline heads).
  { unfold heads. apply Forall_map. apply Forall_impl with (2 := Hn).
    exact specLine_noNewline. }
  rewrite (replaceAll_join reStripBold [star; star] reStripBold_lineLocal
             reStripBold_contextFree reStripBold_wraps) by (discriminate || exact Hh).
  assert (Hb : Forall noNewline (map (replaceAll reStripBold Group1) heads)).
  { apply Forall_map. apply Forall_impl with (2 := Hh).
    intros l Hl.
    apply (replaceAll_forallb reStripBold [star; star] reStripBold_contextFree
             reStripBold_wraps) with (n := length l);
      [discriminate|apply Nat.le_refl|exact Hl]. }
  rewrite (replaceAll_join reStripItalic [star] reStripItalic_lineLocal
             reStripItalic_contextFree reStripItalic_wraps)
    by (discriminate || exact Hb).
  f_equal. unfold heads. rewrite !map_map.
  apply map_ext_in. intros l Hl.
  rewrite forallb_forall in Hc. rewrite (cleanLine_trim l (Hc l Hl)).
  reflexivity.
Qed.

Lemma plain_text_pipeline_witness :
  TXT.export (str "# Title" ++ [nl; nl] ++ str "This is **bold** and *italic*.")
  = specPlainText
      (str "# Title" ++ [nl; nl] ++ str "This is **bold** and *italic*.").
Proof.
  destruct plain_text_pipeline as (H & _).
  exact (H (str "# Title" ++ [nl; nl] ++ str "This is **bold** and *italic*.")
           eq_refl).
Defined.

(** * Further properties *)

(** ** Shape of the segments *)

Lemma matchHere_NotBehind_inv (r : regex) (prev rest : jsstring)
    (x : option jsstring * nat) :
  matchHere (NotBehind star :: r) prev rest = Some x ->
  headNotStar prev /\ matchHere r prev rest = Some x.
Proof.
  cbn [matchHere]. destruct prev as [|p prev]; [intros H; split; [exact I|exact H]|].
  destruct (Ascii.eqb p star) eqn:E; [discriminate|].
  intros H. split; [exact E|exact H].
Qed.

Lemma matchHere_NotAhead_inv (r : regex) (prev rest : jsstring)
    (x : option jsstring * nat) :
  matchHere (NotAhead star :: r) prev rest = Some x ->
  headNotStar rest /\ matchHere r prev rest = Some x.
Proof.
  cbn [matchHere]. destruct rest as [|y rest]; [intros H; split; [exact I|exact H]|].
  destruct (Ascii.eqb y star) eqn:E; [discriminate|].
  intros H. split; [exact E|exact H].
Qed.

Lemma reBold_here_text (prev rest : jsstring) (c : option jsstring) (n : nat) :
  matchHere reBold prev rest = Some (c, n) ->
  exists mid, c = Some mid /\ noLineTerminator mid.
Proof.
  unfold reBold. intros H.
  apply matchHere_Lit_inv in H. destruct H as (r1 & n1 & -> & -> & H).
  apply matchHere_Lit_inv in H. destruct H as (r2 & n2 & -> & -> & H).
  rewrite matchHere_GroupLazy in H. apply lazyLoop_sound in H.
  destruct H as (mid & post & c' & n' & -> & -> & _ & Hall & _ & _).
  exists mid. split; [reflexivity|exact Hall].
Qed.

Lemma reItalic_here_text (prev rest : jsstring) (c : option jsstring) (n : nat) :
  matchHere reItalic prev rest = Some (c, n) ->
  exists mid,
    c = Some mid /\ noLineTerminator mid
    /\ headNotStar mid /\ headNotStar (rev mid).
Proof.
  unfold reItalic. intros H.
  apply matchHere_NotBehind_inv in H. destruct H as [_ H].
  apply matchHere_Lit_inv in H. destruct H as (r1 & n1 & -> & -> & H).
  apply matchHere_NotAhead_inv in H. destruct H as [Hhead H].
  rewrite matchHere_GroupLazy in H. apply lazyLoop_sound in H.
  destruct H as (mid & post & c' & n' & -> & -> & Hn & Hall & Hc & _).
  apply matchHere_NotBehind_inv in Hc. destruct Hc as [Hlast _].
  assert (Hne : mid <> []) by (intros ->; simpl in Hn; lia).
  exists mid. split; [reflexivity|]. split; [exact Hall|]. split.
  - destruct mid; [contradiction|exact Hhead].
  - destruct (rev mid) as [|z l] eqn:E.
    + exact I.
    + exact Hlast.
Qed.

Lemma chooseMatch_text (s : jsstring) (m : MatchResult) (isBold : bool) :
  chooseMatch (js_match reBold s) (js_match reItalic s) = Some (m, isBold) ->
  capturedShape (pdfStyled isBold (group1 m)).
Proof.
  unfold chooseMatch.
  assert (Hb : forall b, js_match reBold s = Some b ->
                 capturedShape (pdfStyled true (group1 b))).
  { intros b H. unfold js_match in H. apply searchFrom_spec in H.
    destruct H as (pre & post & n & _ & _ & H & _).
    apply reBold_here_text in H. destruct H as (mid & Hc & Hl).
    unfold capturedShape, group1. rewrite Hc. exact Hl. }
  assert (Hi : forall i, js_match reItalic s = Some i ->
                 capturedShape (pdfStyled false (group1 i))).
  { intros i H. unfold js_match in H. apply searchFrom_spec in H.
    destruct H as (pre & post & n & _ & _ & H & _).
    apply reItalic_here_text in H. destruct H as (mid & Hc & Hl).
    unfold capturedShape, group1. rewrite Hc. exact Hl. }
  destruct (js_match reBold s) as [b|];
    destruct (js_match reItalic s) as [i|]; intros H.
  - destruct (index b <=? index i); inversion H; subst; auto.
  - inversion H; subst; auto.
  - inversion H; subst; auto.
  - discriminate.
Qed.

(** Induction along the rounds of the parser. *)
Lemma pdf_parse_rounds (P : jsstring -> list PDF.Segment -> Prop) :
  P [] [] ->
  (forall s, s <> [] ->
     chooseMatch (js_match reBold s) (js_match reItalic s) = None ->
     P s [PDF.plainSegment s]) ->
  (forall (pre mid post : jsstring) (isBold : bool) (m : MatchResult),
     let d := if isBold then [star; star] else [star] in
     mid <> [] ->
     chooseMatch (js_match reBold (pre ++ d ++ mid ++ d ++ post))
       (js_match reItalic (pre ++ d ++ mid ++ d ++ post)) = Some (m, isBold) ->
     group1 m = mid ->
     P post (PDF.parseInlineFormatting post) ->
     P (pre ++ d ++ mid ++ d ++ post)
       (match pre with
        | [] => []
        | _ :: _ => [PDF.plainSegment pre]
        end ++ pdfStyled isBold mid :: PDF.parseInlineFormatting post)) ->
  forall s, P s (PDF.parseInlineFormatting s).
Proof.
  intros Hnil Hlast Hround.
  assert (H : forall n s, length s <= n -> P s (PDF.parseInlineFormatting s)).
  { induction n as [|n IH]; intros s Hn.
    - destruct s; [exact Hnil|simpl in Hn; lia].
    - destruct s as [|x s]; [exact Hnil|].
      destruct (chooseMatch (js_match reBold (x :: s))
                  (js_match reItalic (x :: s))) as [[m b]|] eqn:E.
      + rewrite (pdf_parse_step _ m b E).
        pose proof E as E'.
        apply chooseMatch_shape, delimited_parts in E'.
        destruct E' as (pre & mid & post & Hs & Hne & _ & Hg & Hi & Hpre & Hpost).
        fold (literalBefore m (x :: s)).
        rewrite Hpost, Hg.
        replace (literalBefore m (x :: s))
          with (match pre with
                | [] => []
                | _ :: _ => [PDF.plainSegment pre]
                end)
          by (unfold literalBefore; rewrite Hpre, Hi; destruct pre; reflexivity).
        rewrite Hs in E |- *.
        apply (Hround pre mid post b m Hne E Hg).
        apply IH. apply (f_equal (@length ascii)) in Hs.
        rewrite !length_app in Hs. destruct mid; [contradiction|].
        simpl in Hn, Hs. destruct b; simpl in Hs; lia.
      + rewrite pdf_parse_nomatch by (assumption || discriminate).
        apply Hlast; [discriminate|exact E]. }
  intros s. apply (H (length s)). apply Nat.le_refl.
Qed.

(** X1: the inline parser never emits a segment with empty text, whatever the
    input. *)
Theorem segments_have_text (s : jsstring) :
  Forall (fun g => PDF.text g <> []) (PDF.parseInlineFormatting s).
Proof.
  apply (pdf_parse_rounds (fun _ segments =>
           Forall (fun g => PDF.text g <> []) segments)).
  - constructor.
  - intros t Ht _. constructor; [exact Ht|constructor].
  - intros pre mid post isBold m d Hne _ _ IH.
    apply Forall_app. split.
    + destruct pre; constructor; [discriminate|constructor].
    + constructor; [destruct isBold; exact Hne|exact IH].
Qed.

(** X2: two unstyled segments never stand next to each other: an unstyled
    segment is either the last one or followed by a styled one. *)
Theorem unstyled_segments_apart (s : jsstring) :
  unstyledApart (PDF.parseInlineFormatting s).
Proof.
  apply (pdf_parse_rounds (fun _ segments => unstyledApart segments)).
  - exact I.
  - intros t _ _. simpl. auto.
  - intros pre mid post isBold m d _ _ _ IH.
    assert (Hs : ~ unstyled (pdfStyled isBold mid))
      by (destruct isBold; discriminate).
    assert (Hrest : unstyledApart
                      (pdfStyled isBold mid :: PDF.parseInlineFormatting post)).
    { cbn [unstyledApart]. split; [|exact IH].
      destruct (PDF.parseInlineFormatting post); [exact I|tauto]. }
    destruct pre as [|p pre]; [exact Hrest|].
    cbn [app unstyledApart]. cbn [unstyledApart] in Hrest.
    split; [tauto|exact Hrest].
Qed.

(** X3: the text of a styled segment holds no line terminator, and the text
    of an italic segment neither begins nor ends with a marker. *)
Theorem styled_segments_shape (s : jsstring) :
  Forall capturedShape (PDF.parseInlineFormatting s).
Proof.
  apply (pdf_parse_rounds (fun _ segments => Forall capturedShape segments)).
  - constructor.
  - intros t _ _. constructor; [exact I|constructor].
  - intros pre mid post isBold m d _ E Hg IH.
    apply Forall_app. split.
    + destruct pre; constructor; [exact I|constructor].
    + constructor; [|exact IH].
      rewrite <- Hg. exact (chooseMatch_text _ _ _ E).
Qed.

(** ** Trimming *)

Lemma trimStart_blank_app (a s : jsstring) :
  blank a -> trimStart (a ++ s) = trimStart s.
Proof.
  unfold blank. induction a as [|x a IH]; intros H; [reflexivity|].
  simpl in H. apply andb_true_iff in H. destruct H as [Hx Ha].
  simpl. rewrite Hx. apply IH. exact Ha.
Qed.

Lemma trimStart_split (s : jsstring) :
  exists a, s = a ++ trimStart s /\ blank a.
Proof.
  induction s as [|x s IH]; [exists []; split; reflexivity|].
  simpl. destruct (isWhiteSpace x) eqn:E.
  - destruct IH as (a & Hs & Ha). exists (x :: a). split.
    + simpl. rewrite <- Hs. reflexivity.
    + unfold blank. simpl. rewrite E. exact Ha.
  - exists []. split; reflexivity.
Qed.

Lemma trimStart_head (s : jsstring) : startsBlank (trimStart s) = false.
Proof.
  induction s as [|x s IH]; [reflexivity|].
  simpl. destruct (isWhiteSpace x) eqn:E; [exact IH|exact E].
Qed.

Lemma trimStart_all_blank (s : jsstring) : blank s -> trimStart s = [].
Proof.
  intros H. rewrite <- (app_nil_r s). rewrite trimStart_blank_app by exact H.
  reflexivity.
Qed.

Lemma trimStart_empty_blank (s : jsstring) : trimStart s = [] -> blank s.
Proof.
  intros H. destruct (trimStart_split s) as (a & Hs & Ha).
  rewrite H, app_nil_r in Hs. subst a. exact Ha.
Qed.

Lemma trimStart_app_kept (l b : jsstring) :
  trimStart l <> [] -> trimStart (l ++ b) = trimStart l ++ b.
Proof.
  induction l as [|x l IH]; intros H; [contradiction|].
  simpl in H |- *. destruct (isWhiteSpace x); [apply IH; exact H|reflexivity].
Qed.

Lemma blank_rev (s : jsstring) : blank s -> blank (rev s).
Proof.
  unfold blank. rewrite !forallb_forall. intros H x Hx.
  apply H. apply in_rev. exact Hx.
Qed.

Lemma blank_app (a b : jsstring) : blank (a ++ b) <-> blank a /\ blank b.
Proof. unfold blank. rewrite forallb_app, andb_true_iff. reflexivity. Qed.

Lemma trimEnd_blank_app (s b : jsstring) :
  blank b -> trimEnd (s ++ b) = trimEnd s.
Proof.
  intros H. unfold trimEnd. rewrite rev_app_distr.
  rewrite trimStart_blank_app by (apply blank_rev; exact H). reflexivity.
Qed.

Lemma trimEnd_split (s : jsstring) :
  exists b, s = trimEnd s ++ b /\ blank b.
Proof.
  unfold trimEnd. destruct (trimStart_split (rev s)) as (a & Hs & Ha).
  exists (rev a). split.
  - rewrite <- rev_app_distr, <- Hs. symmetry. apply rev_involutive.
  - apply blank_rev. exact Ha.
Qed.

Lemma trimEnd_last (s : jsstring) : startsBlank (rev (trimEnd s)) = false.
Proof.
  unfold trimEnd. rewrite rev_involutive. apply trimStart_head.
Qed.

(** [trim] cuts a run of white space at each end and leaves a string that
    neither begins nor ends with white space. *)
Lemma trim_split (s : jsstring) :
  exists a b, s = a ++ trim s ++ b /\ blank a /\ blank b.
Proof.
  unfold trim. destruct (trimStart_split s) as (a & Hs & Ha).
  destruct (trimEnd_split (trimStart s)) as (b & Ht & Hb).
  exists a, b. split; [|split; assumption].
  rewrite <- Ht. exact Hs.
Qed.

Lemma trim_last (s : jsstring) : startsBlank (rev (trim s)) = false.
Proof. apply trimEnd_last. Qed.

Lemma trim_head (s : jsstring) : startsBlank (trim s) = false.
Proof.
  unfold trim. pose proof (trimStart_head s) as H.
  destruct (trimEnd_split (trimStart s)) as (b & Ht & _).
  destruct (trimEnd (trimStart s)) as [|x t] eqn:E; [reflexivity|].
  rewrite Ht in H. exact H.
Qed.

Lemma trim_blank_around (a l b : jsstring) :
  blank a -> blank b -> trim (a ++ l ++ b) = trim l.
Proof.
  intros Ha Hb. unfold trim. rewrite trimStart_blank_app by exact Ha.
  destruct (trimStart l) as [|x t] eqn:E.
  - apply trimStart_empty_blank in E.
    rewrite trimStart_all_blank by (apply blank_app; split; assumption).
    reflexivity.
  - rewrite trimStart_app_kept by (rewrite E; discriminate).
    rewrite E. apply trimEnd_blank_app. exact Hb.
Qed.



(** ** Lines of a document *)

(** X4: white space around a line changes nothing: both line parsers make
    the same of a line and of the line with white space before and after
    it. *)
Theorem line_white_space_ignored (a l b : jsstring)
    (lines : list PDF.Line) (paragraphs : list DOCX.Paragraph) :
  blank a -> blank b ->
  PDF.parseLine lines (a ++ l ++ b) = PDF.parseLine lines l
  /\ DOCX.parseLine paragraphs (a ++ l ++ b) = DOCX.parseLine paragraphs l.
Proof.
  intros Ha Hb. unfold PDF.parseLine, DOCX.parseLine.
  rewrite (trim_blank_around a l b Ha Hb). split; reflexivity.
Qed.

Lemma line_white_space_ignored_witness :
  PDF.parseLine [] (str "   " ++ str "# Title" ++ str "  ")
  = PDF.parseLine [] (str "# Title")
  /\ DOCX.parseLine [] (str "   " ++ str "# Title" ++ str "  ")
     = DOCX.parseLine [] (str "# Title").
Proof.
  apply (line_white_space_ignored (str "   ") (str "# Title") (str "  ") [] []);
    reflexivity.
Defined.

Lemma split_app_nl (a b : jsstring) :
  split nl (a ++ nl :: b) = split nl a ++ split nl b.
Proof.
  induction a as [|x a IH]; [reflexivity|].
  cbn [app split]. destruct (Ascii.eqb x nl); [rewrite IH; reflexivity|].
  rewrite IH. pose proof (split_nonempty nl a) as Hne.
  destruct (split nl a) as [|l ls]; [contradiction|reflexivity].
Qed.

Lemma split_length (s : jsstring) :
  length (split nl s) = S (count_occ ascii_dec s nl).
Proof.
  induction s as [|x s IH]; [reflexivity|]. cbn [split count_occ].
  destruct (Ascii.eqb x nl) eqn:E.
  - apply Ascii.eqb_eq in E. subst x.
    destruct (ascii_dec nl nl); [|contradiction]. simpl. rewrite IH. reflexivity.
  - destruct (ascii_dec x nl) as [->|_].
    + rewrite Ascii.eqb_refl in E. discriminate.
    + pose proof (split_nonempty nl s) as Hne.
      destruct (split nl s) as [|l ls]; [contradiction|exact IH].
Qed.

Lemma pdf_parseLine_one (l : jsstring) : length (PDF.parseLine [] l) = 1.
Proof.
  destruct (pdf_parseLine_classified l) as (line & -> & _). reflexivity.
Qed.

Lemma docx_parseLine_one (l : jsstring) : length (DOCX.parseLine [] l) = 1.
Proof.
  unfold DOCX.parseLine. destruct (trim l) as [|x t]; [reflexivity|].
  destruct (startsWith (str "# ") (x :: t)); [reflexivity|].
  destruct (startsWith (str "## ") (x :: t)); reflexivity.
Qed.

Lemma flat_map_length_one {A B : Type} (f : A -> list B) (l : list A) :
  (forall a, length (f a) = 1) -> length (flat_map f l) = length l.
Proof.
  intros H. induction l as [|a l IH]; [reflexivity|].
  simpl. rewrite length_app, H, IH. reflexivity.
Qed.

(** X5: a document is parsed line by line: the lines (paragraph nodes) of two
    contents joined by a line feed are those of the first followed by those
    of the second, and a content with n line feeds gives n + 1 of them. *)
Theorem documents_concatenate (a b : jsstring) :
  PDF.parseMarkdown (a ++ nl :: b) = PDF.parseMarkdown a ++ PDF.parseMarkdown b
  /\ DOCX.parseMarkdownToDocx (a ++ nl :: b)
     = DOCX.parseMarkdownToDocx a ++ DOCX.parseMarkdownToDocx b
  /\ length (PDF.parseMarkdown a) = S (count_occ ascii_dec a nl)
  /\ length (DOCX.parseMarkdownToDocx a) = S (count_occ ascii_dec a nl).
Proof.
  unfold PDF.parseMarkdown, DOCX.parseMarkdownToDocx.
  rewrite !pdf_parseMarkdown_lines, !docx_parseMarkdown_lines.
  cbn [app]. rewrite split_app_nl, !flat_map_app.
  repeat split; try reflexivity.
  - rewrite (flat_map_length_one _ _ pdf_parseLine_one). apply split_length.
  - rewrite (flat_map_length_one _ _ docx_parseLine_one). apply split_length.
Qed.

(** ** The Word document against its content *)

Lemma runSource_segment (g : PDF.Segment) :
  runSource (runOfSegment g) = sourceOf g.
Proof. reflexivity. Qed.

Lemma docx_parse_source (t : jsstring) :
  t <> [] -> concat (map runSource (DOCX.parseInlineFormatting t)) = t.
Proof.
  intros Hne. rewrite (docx_parse_pdf t Hne), map_map.
  rewrite (map_ext _ sourceOf runSource_segment).
  apply pdf_parse_reassemble.
Qed.

Lemma docx_parseLine_source (l : jsstring) :
  map paragraphSource (DOCX.parseLine [] l) = [trim l].
Proof.
  unfold DOCX.parseLine. destruct (trim l) as [|x t] eqn:E; [reflexivity|].
  destruct (startsWith (str "# ") (x :: t)) eqn:E1.
  { apply startsWith_app in E1. destruct E1 as [rest ->]. reflexivity. }
  destruct (startsWith (str "## ") (x :: t)) eqn:E2.
  { apply startsWith_app in E2. destruct E2 as [rest ->]. reflexivity. }
  cbn [app map paragraphSource]. rewrite docx_parse_source by discriminate.
  reflexivity.
Qed.

(** X6: the Word document keeps every line of the content: writing each
    node back (a heading with its marker, a run between the delimiters of
    its style) gives the lines of the content, each without the white space
    around it. *)
Theorem docx_round_trip (c : jsstring) :
  map paragraphSource (DOCX.parseMarkdownToDocx c) = map trim (split nl c).
Proof.
  unfold DOCX.parseMarkdownToDocx. rewrite docx_parseMarkdown_lines.
  cbn [app]. induction (split nl c) as [|l lines IH]; [reflexivity|].
  cbn [flat_map map]. rewrite map_app, docx_parseLine_source, IH. reflexivity.
Qed.

Lemma rev_snoc_blank (t : jsstring) (x : ascii) :
  startsBlank (rev (t ++ [x])) = isWhiteSpace x.
Proof. rewrite rev_app_distr. reflexivity. Qed.

Lemma heading_text_kept (p rest : jsstring) :
  startsBlank (rev p) = true -> startsBlank (rev (p ++ rest)) = false ->
  rest <> [] /\ startsBlank (rev rest) = false.
Proof.
  intros Hp H. destruct rest as [|x rest].
  - rewrite app_nil_r, Hp in H. discriminate.
  - split; [discriminate|]. rewrite rev_app_distr in H.
    destruct (rev (x :: rest)) as [|y r] eqn:E; [|exact H].
    apply (f_equal (@length ascii)) in E. rewrite length_rev in E.
    discriminate.
Qed.

Lemma docx_runs_have_text (t : jsstring) :
  t <> [] ->
  DOCX.parseInlineFormatting t <> []
  /\ Forall (fun r => DOCX.text r <> []) (DOCX.parseInlineFormatting t).
Proof.
  intros Hne. rewrite (docx_parse_pdf t Hne). split.
  - pose proof (pdf_parse_nonempty t Hne) as H.
    destruct (PDF.parseInlineFormatting t); [contradiction|discriminate].
  - apply Forall_map.
    apply (pdf_parse_rounds (fun _ segments =>
             Forall (fun g => DOCX.text (runOfSegment g) <> []) segments)).
    + constructor.
    + intros s Hs _. constructor; [exact Hs|constructor].
    + intros pre mid post isBold m d Hmid _ _ IH.
      apply Forall_app. split.
      * destruct pre; constructor; [discriminate|constructor].
      * constructor; [destruct isBold; exact Hmid|exact IH].
Qed.

(** X7: every node of the Word document is well formed: a paragraph without
    runs is an empty spacing paragraph, a heading has text and the text
    does not end in white space, and a body paragraph has at least one run
    and no run with empty text, so the empty run that the inline parser
    falls back to never reaches a document. *)
Theorem docx_nodes_well_formed (c : jsstring) :
  Forall wellFormedNode (DOCX.parseMarkdownToDocx c).
Proof.
  unfold DOCX.parseMarkdownToDocx. rewrite docx_parseMarkdown_lines.
  cbn [app]. induction (split nl c) as [|l lines IH]; [constructor|].
  cbn [flat_map]. apply Forall_app. split; [|exact IH].
  unfold DOCX.parseLine. pose proof (trim_last l) as Hlast.
  destruct (trim l) as [|x t] eqn:E; [repeat constructor|].
  destruct (startsWith (str "# ") (x :: t)) eqn:E1.
  { apply startsWith_app in E1. destruct E1 as [rest E1]. rewrite E1 in *.
    repeat constructor; apply (heading_text_kept (str "# ") rest);
      (reflexivity || exact Hlast). }
  destruct (startsWith (str "## ") (x :: t)) eqn:E2.
  { apply startsWith_app in E2. destruct E2 as [rest E2]. rewrite E2 in *.
    repeat constructor; apply (heading_text_kept (str "## ") rest);
      (reflexivity || exact Hlast). }
  repeat constructor; apply docx_runs_have_text; discriminate.
Qed.

(** ** The plain text against its content *)

Lemma Subseq_refl (s : jsstring) : Subseq s s.
Proof. induction s; constructor; assumption. Qed.

Lemma Subseq_empty (s : jsstring) : Subseq [] s.
Proof. induction s; constructor; assumption. Qed.

Lemma Subseq_app (a a' b b' : jsstring) :
  Subseq a b -> Subseq a' b' -> Subseq (a ++ a') (b ++ b').
Proof.
  intros H H'. induction H; cbn [app]; [exact H'| |]; constructor; assumption.
Qed.

Lemma Subseq_trans (a b c : jsstring) :
  Subseq a b -> Subseq b c -> Subseq a c.
Proof.
  intros Hab Hbc. revert a Hab.
  induction Hbc as [|x b c Hbc IH|x b c Hbc IH]; intros a Hab.
  - exact Hab.
  - inversion Hab; subst; constructor; apply IH; assumption.
  - constructor. apply IH. exact Hab.
Qed.

Lemma Subseq_length (a b : jsstring) : Subseq a b -> length a <= length b.
Proof. induction 1; simpl; lia. Qed.

Lemma Subseq_middle (a m b : jsstring) : Subseq m (a ++ m ++ b).
Proof.
  rewrite <- (app_nil_l m) at 1. apply Subseq_app; [apply Subseq_empty|].
  rewrite <- (app_nil_r m) at 1. apply Subseq_app;
    [apply Subseq_refl|apply Subseq_empty].
Qed.

Lemma trim_subseq (s : jsstring) : Subseq (trim s) s.
Proof.
  destruct (trim_split s) as (a & b & Hs & _). rewrite Hs at 2.
  apply Subseq_middle.
Qed.

Lemma deletes_end (r : regex) (p : replacement) (prev : jsstring) :
  deletes r p -> matchHere r prev [] = None.
Proof.
  intros Hd. destruct (matchHere r prev []) as [[c n]|] eqn:E; [|reflexivity].
  apply Hd in E. simpl in E. lia.
Qed.

Lemma replaceFrom_subseq (r : regex) (p : replacement) :
  deletes r p ->
  forall n rest prev,
    length rest <= n -> Subseq (replaceFrom r p prev rest) rest.
Proof.
  intros Hd. induction n as [|n IH]; intros rest prev Hn.
  - destruct rest; [|simpl in Hn; lia].
    rewrite replaceFrom_end by (apply (deletes_end r p); exact Hd). constructor.
  - destruct rest as [|x rest].
    { rewrite replaceFrom_end by (apply (deletes_end r p); exact Hd).
      constructor. }
    destruct (matchHere r prev (x :: rest)) as [[c k]|] eqn:E.
    + destruct (Hd _ _ _ _ E) as [Hk Hs].
      rewrite (replaceFrom_match r p prev _ c k E Hk).
      rewrite <- (firstn_skipn k (x :: rest)) at 3.
      apply Subseq_app; [exact Hs|].
      apply IH. rewrite length_skipn. cbn [length] in *. lia.
    + rewrite (replaceFrom_keep r p prev x rest E). constructor.
      apply IH. simpl in Hn. lia.
Qed.

Lemma replaceAll_subseq (r : regex) (p : replacement) (s : jsstring) :
  deletes r p -> Subseq (replaceAll r p s) s.
Proof.
  intros Hd. rewrite replaceAll_from.
  apply (replaceFrom_subseq r p Hd (length s)). apply Nat.le_refl.
Qed.

Lemma wraps_deletes (d : jsstring) (r : regex) :
  wraps d r -> d <> [] -> deletes r Group1.
Proof.
  intros Hw Hd prev rest c n E. apply Hw in E.
  destruct E as (mid & post & -> & -> & ->). split.
  - rewrite !length_app. destruct d; [contradiction|]. simpl. lia.
  - replace (length mid + 2 * length d) with (length (d ++ mid ++ d))
      by (rewrite !length_app; lia).
    replace (d ++ mid ++ d ++ post) with ((d ++ mid ++ d) ++ post)
      by (rewrite <- !app_assoc; reflexivity).
    rewrite firstn_app_exact by reflexivity. apply Subseq_middle.
Qed.

Lemma greedyLoop_bound (k : charClass) (min : nat) (max : option nat)
    (cont : jsstring -> jsstring -> attempt) :
  (forall prev rest c n, cont prev rest = Some (c, n) -> n <= length rest) ->
  forall rest count prev c n,
    greedyLoop k min max cont count prev rest = Some (c, n) ->
    n <= length rest.
Proof.
  intros Hc. induction rest as [|x rest IH]; intros count prev c n H;
    cbn [greedyLoop] in H.
  - destruct (min <=? count); [exact (Hc _ _ _ _ H)|discriminate].
  - destruct (classMatches k x && belowMax max count).
    + destruct (greedyLoop k min max cont (S count) (x :: prev) rest)
        as [[cap n']|] eqn:E.
      * inversion H; subst. apply IH in E. simpl. lia.
      * destruct (min <=? count); [exact (Hc _ _ _ _ H)|discriminate].
    + destruct (min <=? count); [exact (Hc _ _ _ _ H)|discriminate].
Qed.

Lemma greedyLoop_first (k : charClass) (min : nat) (max : option nat)
    (cont : jsstring -> jsstring -> attempt) (prev rest : jsstring)
    (c : option jsstring) (n : nat) :
  greedyLoop k (S min) max cont 0 prev rest = Some (c, n) -> 1 <= n.
Proof.
  destruct rest as [|x rest]; cbn [greedyLoop Nat.leb]; [discriminate|].
  destruct (classMatches k x && belowMax max 0); [|discriminate].
  destruct (greedyLoop k (S min) max cont 1 (x :: prev) rest) as [[cap n']|];
    [|discriminate].
  intros H. inversion H. lia.
Qed.

Lemma reHeading_deletes : deletes reHeadingMarker Nothing.
Proof.
  intros prev rest c n E. split; [|apply Subseq_empty].
  assert (G : greedyLoop (OneChar hash) 1 (Some 2)
                (matchHere [Greedy 1 None WhiteSpace]) 0 prev rest
              = Some (c, n)).
  { unfold reHeadingMarker in E. cbn [matchHere] in E.
    destruct prev as [|p prev]; [exact E|].
    destruct (isLineTerminator p); [exact E|discriminate]. }
  split; [exact (greedyLoop_first _ _ _ _ _ _ _ _ G)|].
  revert G. apply greedyLoop_bound.
  intros prev' rest' c' n'. cbn [matchHere]. apply greedyLoop_bound.
  intros prev2 rest2 c2 n2 H. inversion H. lia.
Qed.

(** X8: the plain-text exporter only deletes: its output is what is left of
    the content after deleting some characters; nothing is added, changed or
    moved, the output is no longer than the content, and it neither begins
    nor ends with white space. *)
Theorem plain_text_only_deletes (c : jsstring) :
  Subseq (TXT.export c) c /\ length (TXT.export c) <= length c
  /\ startsBlank (TXT.export c) = false
  /\ startsBlank (rev (TXT.export c)) = false.
Proof.
  assert (H : Subseq (TXT.export c) c).
  { unfold TXT.export, TXT.stripMarkdown. cbv zeta.
    eapply Subseq_trans; [apply trim_subseq|].
    eapply Subseq_trans;
      [apply replaceAll_subseq;
       apply (wraps_deletes [star] _ reStripItalic_wraps); discriminate|].
    eapply Subseq_trans;
      [apply replaceAll_subseq;
       apply (wraps_deletes [star; star] _ reStripBold_wraps); discriminate|].
    apply replaceAll_subseq. exact reHeading_deletes. }
  split; [exact H|].
  split; [apply Subseq_length; exact H|].
  split; [apply trim_head|apply trim_last].
Qed.

(** X9: the two emphasis passes of the plain-text exporter never pair
    markers across a line feed: their result on a text is the join of their
    results on the lines of the text. *)
Theorem emphasis_line_by_line (t : jsstring) :
  stripEmphasis t = join nl (map stripEmphasis (split nl t)).
Proof.
  unfold stripEmphasis. pose proof (split_noNewline t) as Hn.
  rewrite <- (join_split t) at 1.
  rewrite (replaceAll_join reStripBold [star; star] reStripBold_lineLocal
             reStripBold_contextFree reStripBold_wraps)
    by (discriminate || exact Hn).
  assert (Hb : Forall noNewline
                 (map (replaceAll reStripBold Group1) (split nl t))).
  { apply Forall_map. apply Forall_impl with (2 := Hn). intros l Hl.
    apply (replaceAll_forallb reStripBold [star; star] reStripBold_contextFree
             reStripBold_wraps) with (n := length l);
      [discriminate|apply Nat.le_refl|exact Hl]. }
  rewrite (replaceAll_join reStripItalic [star] reStripItalic_lineLocal
             reStripItalic_contextFree reStripItalic_wraps)
    by (discriminate || exact Hb).
  rewrite map_map. reflexivity.
Qed.

(** ** Content without markers *)

Lemma split_forallb (P : ascii -> bool) (sep : ascii) (s : jsstring) :
  forallb P s = true -> Forall (fun l => forallb P l = true) (split sep s).
Proof.
  induction s as [|x s IH]; intros H; cbn [split].
  - repeat constructor.
  - cbn [forallb] in H. apply andb_true_iff in H. destruct H as [Hx Hs].
    specialize (IH Hs). destruct (Ascii.eqb x sep).
    + constructor; [reflexivity|exact IH].
    + destruct (split sep s) as [|l ls]; [repeat constructor; simpl; rewrite Hx; reflexivity|].
      inversion IH; subst. constructor; [|assumption].
      cbn [forallb]. rewrite Hx. assumption.
Qed.

Lemma trim_forallb (P : ascii -> bool) (s : jsstring) :
  forallb P s = true -> forallb P (trim s) = true.
Proof.
  intros H. destruct (trim_split s) as (a & b & Hs & _).
  rewrite Hs, !forallb_app, !andb_true_iff in H. tauto.
Qed.

Lemma replaceAll_hashFree (s : jsstring) :
  hashFree s -> replaceAll reHeadingMarker Nothing s = s.
Proof.
  intros H. unfold replaceAll. rewrite replaceLoop_S.
  rewrite searchFrom_none; [reflexivity|].
  intros a b ->. destruct b as [|x b]; [apply reHeading_end|].
  apply reHeading_not_hash.
  unfold hashFree in H. rewrite forallb_app in H.
  apply andb_true_iff in H. destruct H as [_ H]. cbn [forallb] in H.
  apply andb_true_iff in H. destruct H as [H _].
  apply negb_true_iff in H. exact H.
Qed.

Lemma plain_line_kind (t : jsstring) :
  hashFree t ->
  startsWith (str "# ") t = false /\ startsWith (str "## ") t = false.
Proof.
  intros H. destruct t as [|x t]; [split; reflexivity|].
  unfold hashFree in H. cbn [forallb] in H.
  apply andb_true_iff in H. destruct H as [H _]. apply negb_true_iff in H.
  split.
  - change (str "# ") with (hash :: str " "). apply startsWith_hash. exact H.
  - change (str "## ") with (hash :: str "# "). apply startsWith_hash. exact H.
Qed.

Lemma plain_line_parsed (l : jsstring) :
  starFree l -> hashFree l ->
  PDF.parseLine [] l = [plainLine l] /\ DOCX.parseLine [] l = [plainNode l].
Proof.
  intros Hs Hh. apply trim_forallb in Hs. apply trim_forallb in Hh.
  destruct (plain_line_kind (trim l) Hh) as [E1 E2].
  unfold PDF.parseLine, DOCX.parseLine, plainLine, plainNode.
  destruct (trim l) as [|x t] eqn:E; [split; reflexivity|].
  rewrite E1, E2. split; [reflexivity|].
  rewrite docx_parse_nomatch;
    [reflexivity|apply searchFrom_starFree; auto with markers..].
Qed.

(** X10: content that holds neither marker character passes through: the
    plain text is the trimmed content, and both line parsers turn every line
    into an unstyled paragraph of the trimmed line (a paragraph of one
    unstyled run in the Word document), or into an empty line. *)
Theorem plain_content_passes_through (c : jsstring) :
  starFree c -> hashFree c ->
  TXT.export c = trim c
  /\ PDF.parseMarkdown c = map plainLine (split nl c)
  /\ DOCX.export c = map plainNode (split nl c).
Proof.
  intros Hs Hh. split.
  { unfold TXT.export, TXT.stripMarkdown. cbv zeta.
    rewrite (replaceAll_hashFree c Hh).
    rewrite (replaceAll_starFree reStripBold Group1 c reStripBold_opens Hs).
    rewrite (replaceAll_starFree reStripItalic Group1 c reStripItalic_opens Hs).
    reflexivity. }
  pose proof (split_forallb _ nl c Hs) as Ls.
  pose proof (split_forallb _ nl c Hh) as Lh.
  unfold DOCX.export, PDF.parseMarkdown, DOCX.parseMarkdownToDocx.
  rewrite pdf_parseMarkdown_lines, docx_parseMarkdown_lines. cbn [app].
  revert Ls Lh. generalize (split nl c).
  induction l as [|l ls IH]; intros Ls Lh; [split; reflexivity|].
  inversion Ls; subst. inversion Lh; subst.
  destruct IH as [IH1 IH2]; [assumption..|].
  destruct (plain_line_parsed l) as [P1 P2]; [assumption..|].
  cbn [flat_map map]. rewrite P1, P2, IH1, IH2. split; reflexivity.
Qed.

Lemma plain_content_passes_through_witness :
  TXT.export (str "  Dear all," ++ [nl] ++ str " see you. ")
  = str "Dear all," ++ [nl] ++ str " see you.".
Proof.
  apply (plain_content_passes_through
           (str "  Dear all," ++ [nl] ++ str " see you. "));
    reflexivity.
Defined.

(** ** Markers left by the emphasis passes *)

(** A lazy quantifier stops at the first place where the rest of the pattern
    matches. *)
Lemma lazyLoop_minimal (k : charClass) (cont : jsstring -> jsstring -> attempt) :
  forall rest taken prev c n,
    lazyLoop k cont taken 0 prev rest = Some (c, n) ->
    exists mid post,
      rest = mid ++ post /\ c = Some (rev taken ++ mid)
      /\ forall a b, mid = a ++ b -> b <> [] ->
                     cont (rev a ++ prev) (b ++ post) = None.
Proof.
  induction rest as [|x rest IH]; intros taken prev c n H; cbn [lazyLoop] in H.
  - destruct (cont prev []) as [[c' n']|] eqn:E; [|discriminate].
    inversion H; subst. exists [], []. rewrite !app_nil_r.
    split; [reflexivity|split; [reflexivity|]].
    intros a b Hab Hb. destruct a; [|discriminate].
    simpl in Hab. subst b. contradiction.
  - destruct (cont prev (x :: rest)) as [[c' n']|] eqn:E.
    + inversion H; subst. exists [], (x :: rest). rewrite !app_nil_r.
      split; [reflexivity|split; [reflexivity|]].
      intros a b Hab Hb. destruct a; [|discriminate].
      simpl in Hab. subst b. contradiction.
    + destruct (classMatches k x); [|discriminate].
      cbn [pred] in H. apply IH in H.
      destruct H as (mid & post & -> & -> & Hmin).
      exists (x :: mid), post. split; [reflexivity|split].
      * simpl. rewrite <- app_assoc. reflexivity.
      * intros a b Hab Hb. destruct a as [|y a].
        -- simpl in Hab. subst b. exact E.
        -- inversion Hab; subst. simpl. rewrite <- app_assoc.
           apply Hmin; [reflexivity|exact Hb].
Qed.

Lemma starFree_elements (s : jsstring) :
  (forall a x b, s = a ++ x :: b -> Ascii.eqb x star = false) -> starFree s.
Proof.
  induction s as [|y s IH]; intros H; [reflexivity|].
  apply starFree_cons. split.
  - apply (H [] y s). reflexivity.
  - apply IH. intros a x b ->. apply (H (y :: a) x b). reflexivity.
Qed.

(** What the italic pattern of the plain-text passes captures holds no
    marker. *)
Lemma reStripItalic_capture (prev rest : jsstring) (c : option jsstring)
    (n : nat) :
  matchHere reStripItalic prev rest = Some (c, n) ->
  exists mid post,
    rest = star :: mid ++ star :: post /\ c = Some mid
    /\ n = length mid + 2 /\ starFree mid.
Proof.
  intros H. destruct (reStripItalic_wraps _ _ _ _ H)
    as (mid & post & -> & -> & ->).
  exists mid, post.
  split; [reflexivity|split; [reflexivity|split; [simpl; lia|]]].
  unfold reStripItalic in H. cbn [app] in H.
  rewrite matchHere_Lit, matchHere_GroupLazy in H.
  destruct (lazyLoop AnyChar (matchHere [Lit star]) [] 0 (star :: prev)
              (mid ++ star :: post)) as [[c n]|] eqn:E; [|discriminate].
  inversion H; subst c. clear H.
  apply lazyLoop_minimal in E. destruct E as (mid' & post' & Hs & Hc & Hmin).
  simpl in Hc. inversion Hc; subst mid'. clear Hc.
  apply starFree_elements. intros a x b ->.
  destruct (Ascii.eqb x star) eqn:Ex; [|reflexivity].
  apply Ascii.eqb_eq in Ex. subst x.
  specialize (Hmin a (star :: b) eq_refl ltac:(discriminate)).
  cbn [app] in Hmin. rewrite matchHere_Lit_end in Hmin. discriminate.
Qed.

Lemma reStripItalic_complete (prev a b : jsstring) :
  starFree a -> noLineTerminator a ->
  matchHere reStripItalic prev (star :: a ++ star :: b)
  = Some (Some a, length a + 2).
Proof.
  intros Hs Hl. unfold reStripItalic.
  rewrite matchHere_Lit, matchHere_GroupLazy.
  rewrite (lazyLoop_complete AnyChar _ a [] 0 _ _ None 1).
  - simpl. f_equal. f_equal. lia.
  - apply anyChar_noLineTerminator. exact Hl.
  - lia.
  - intros a1 b1 -> Hb. destruct b1 as [|x b1]; [contradiction|].
    apply starFree_app in Hs. destruct Hs as [_ Hs].
    apply starFree_cons in Hs. destruct Hs as [Hx _].
    simpl. rewrite Hx. reflexivity.
  - apply matchHere_Lit_end.
Qed.

Lemma first_star (s : jsstring) :
  starFree s \/ exists a b, s = a ++ star :: b /\ starFree a.
Proof.
  induction s as [|x s IH]; [left; reflexivity|].
  destruct (Ascii.eqb x star) eqn:E.
  - apply Ascii.eqb_eq in E. subst x. right. exists [], s. split; reflexivity.
  - destruct IH as [IH|(a & b & -> & Ha)].
    + left. apply starFree_cons. split; assumption.
    + right. exists (x :: a), b. split; [reflexivity|].
      apply starFree_cons. split; assumption.
Qed.

Lemma stars_app (a b : jsstring) : stars (a ++ b) = stars a + stars b.
Proof. apply count_occ_app. Qed.

Lemma stars_starFree (s : jsstring) : starFree s -> stars s = 0.
Proof.
  induction s as [|x s IH]; intros H; [reflexivity|].
  apply starFree_cons in H. destruct H as [Hx Hs].
  unfold stars. rewrite count_occ_cons_neq; [apply IH; exact Hs|].
  intros ->. rewrite Ascii.eqb_refl in Hx. discriminate.
Qed.

Lemma noLineTerminator_app (a b : jsstring) :
  noLineTerminator (a ++ b) <-> noLineTerminator a /\ noLineTerminator b.
Proof.
  unfold noLineTerminator. rewrite forallb_app, andb_true_iff. reflexivity.
Qed.

Lemma italic_pass_stars :
  forall n t,
    length t <= n -> noLineTerminator t ->
    stars (replaceAll reStripItalic Group1 t) <= 1.
Proof.
  induction n as [|n IH]; intros t Hn Hl.
  { destruct t; [|simpl in Hn; lia].
    rewrite (replaceAll_nil reStripItalic [star] reStripItalic_wraps)
      by discriminate.
    unfold stars. simpl. lia. }
  destruct t as [|x s].
  { rewrite (replaceAll_nil reStripItalic [star] reStripItalic_wraps)
      by discriminate.
    unfold stars. simpl. lia. }
  destruct (matchHere reStripItalic [] (x :: s)) as [[c k]|] eqn:E.
  - rewrite (replaceAll_match reStripItalic [star] reStripItalic_contextFree
               reStripItalic_wraps ltac:(discriminate) Group1 _ c k E).
    apply reStripItalic_capture in E.
    destruct E as (mid & post & Hs & -> & -> & Hm).
    rewrite Hs in Hl |- *.
    change (star :: mid ++ star :: post)
      with ([star] ++ mid ++ [star] ++ post) in Hl |- *.
    replace ([star] ++ mid ++ [star] ++ post)
      with (([star] ++ mid ++ [star]) ++ post)
      by (rewrite <- !app_assoc; reflexivity).
    rewrite skipn_app_exact by (rewrite !length_app; simpl; lia).
    change (substituteCapture Group1 (Some mid)) with mid.
    rewrite stars_app, (stars_starFree mid Hm). simpl.
    apply IH.
    + apply (f_equal (@length ascii)) in Hs. cbn [length] in Hs, Hn.
      rewrite !length_app in Hs. cbn [length] in Hs. lia.
    + rewrite !noLineTerminator_app in Hl. tauto.
  - rewrite (replaceAll_keep reStripItalic [star] reStripItalic_contextFree
               reStripItalic_wraps ltac:(discriminate) Group1 x s E).
    apply noLineTerminator_cons in Hl. destruct Hl as [_ Hl].
    assert (Hs : stars (replaceAll reStripItalic Group1 s) <= 1)
      by (apply IH; [simpl in Hn; lia|exact Hl]).
    destruct (ascii_dec x star) as [->|Hx].
    + destruct (first_star s) as [Hf|(a & b & -> & Ha)].
      * rewrite (replaceAll_starFree reStripItalic Group1 s reStripItalic_opens Hf).
        unfold stars. rewrite count_occ_cons_eq by reflexivity.
        fold (stars s). rewrite (stars_starFree s Hf). lia.
      * apply noLineTerminator_app in Hl. destruct Hl as [Hl _].
        rewrite (reStripItalic_complete [] a b Ha Hl) in E. discriminate.
    + unfold stars. rewrite count_occ_cons_neq by exact Hx. exact Hs.
Qed.

Lemma replaceAll_few_stars (r : regex) (d : jsstring) (p : replacement)
    (s : jsstring) :
  wraps d r -> 1 <= stars d -> stars s <= 1 -> replaceAll r p s = s.
Proof.
  intros Hw Hd Hs. unfold replaceAll. rewrite replaceLoop_S.
  destruct (searchFrom r [] s 0) as [m|] eqn:E; [|reflexivity].
  exfalso. apply searchFrom_spec in E.
  destruct E as (pre & post & n & -> & _ & E & _).
  apply Hw in E. destruct E as (mid & post' & -> & _).
  rewrite !stars_app in Hs. lia.
Qed.

(** X11: within a line the emphasis passes leave at most one marker: after
    the bold and the italic pass over a text without line terminators, the
    text holds no more than one marker character, and the passes change
    nothing when they are run on it again.  This is the text of a heading
    in the paged document. *)
Theorem one_marker_left (t : jsstring) :
  noLineTerminator t ->
  stars (PDF.stripFormatting t) <= 1
  /\ PDF.stripFormatting (PDF.stripFormatting t) = PDF.stripFormatting t.
Proof.
  intros H.
  assert (H1 : stars (PDF.stripFormatting t) <= 1).
  { unfold PDF.stripFormatting.
    apply (italic_pass_stars
             (length (replaceAll reStripBold Group1 t))); [apply Nat.le_refl|].
    apply (replaceAll_forallb reStripBold [star; star] reStripBold_contextFree
             reStripBold_wraps ltac:(discriminate) _ (length t));
      [apply Nat.le_refl|exact H]. }
  split; [exact H1|].
  unfold PDF.stripFormatting at 1.
  rewrite (replaceAll_few_stars reStripBold [star; star] Group1 _
             reStripBold_wraps) by (exact H1 || (unfold stars; simpl; lia)).
  apply (replaceAll_few_stars reStripItalic [star] Group1 _
           reStripItalic_wraps); [unfold stars; simpl; lia|exact H1].
Qed.

Lemma one_marker_left_witness :
  stars (PDF.stripFormatting (str "**a** *b* * c")) <= 1
  /\ PDF.stripFormatting (PDF.stripFormatting (str "**a** *b* * c"))
     = PDF.stripFormatting (str "**a** *b* * c").
Proof. apply (one_marker_left (str "**a** *b* * c")). reflexivity. Defined.

(** ** The export request *)




(** ** What the paged document shows *)

Lemma Qle_plus_nonneg (a b c : Q) : (a <= b)%Q -> (0 <= c)%Q -> (a <= b + c)%Q.
Proof.
  intros H1 H2. apply Qle_trans with (b + 0)%Q.
  - rewrite Qplus_0_r. exact H1.
  - apply Qplus_le_compat; [apply Qle_refl|exact H2].
Qed.

Lemma join_split_at (sep : ascii) (s : jsstring) :
  join sep (split sep s) = s.
Proof.
  induction s as [|x s IH]; [reflexivity|]. cbn [split].
  pose proof (split_nonempty sep s) as Hne.
  destruct (Ascii.eqb x sep) eqn:E.
  - apply Ascii.eqb_eq in E. subst x.
    destruct (split sep s) as [|l ls]; [contradiction|].
    change (join sep ([] :: l :: ls)) with ([] ++ sep :: join sep (l :: ls)).
    rewrite IH. reflexivity.
  - destruct (split sep s) as [|l ls]; [contradiction|].
    destruct ls as [|l2 ls].
    + simpl in IH |- *. rewrite IH. reflexivity.
    + change (join sep ((x :: l) :: l2 :: ls))
        with ((x :: l) ++ sep :: join sep (l2 :: ls)).
      change (join sep (l :: l2 :: ls))
        with (l ++ sep :: join sep (l2 :: ls)) in IH.
      cbn [app]. rewrite IH. reflexivity.
Qed.

Lemma segmentStyle_font (g : PDF.Segment) (d : PDF.Doc) :
  PDF.fontStyle
    (match PDF.bold g with
     | Some true => PDF.setFont PDF.fontBold d
     | _ =>
         match PDF.italic g with
         | Some true => PDF.setFont PDF.fontItalic d
         | _ => PDF.setFont PDF.fontNormal d
         end
     end) = segmentStyle g.
Proof.
  unfold segmentStyle, emphasisOf.
  destruct (PDF.bold g) as [[|]|]; try reflexivity;
    destruct (PDF.italic g) as [[|]|]; reflexivity.
Qed.

Lemma inPageOrder_same (q : nat) (ops : list PDF.TextOp) :
  Forall (fun op => PDF.onPage op = q) ops -> inPageOrder q ops.
Proof.
  induction 1 as [|op ops Hop _ IH]; [exact I|].
  cbn [inPageOrder]. rewrite Hop. split; [apply Nat.le_refl|exact IH].
Qed.

Lemma inPageOrder_from (p q : nat) (ops : list PDF.TextOp) :
  p <= q -> inPageOrder q ops -> inPageOrder p ops.
Proof.
  intros Hpq H. destruct ops as [|op ops]; [exact I|].
  cbn [inPageOrder] in *. destruct H as [H1 H2]. split; [lia|exact H2].
Qed.

Lemma inPageOrder_all :
  forall (ops : list PDF.TextOp) (p : nat),
    inPageOrder p ops -> Forall (fun op => p <= PDF.onPage op) ops.
Proof.
  induction ops as [|op ops IH]; intros p H; [constructor|].
  cbn [inPageOrder] in H. destruct H as [H1 H2].
  constructor; [exact H1|].
  apply Forall_impl with (2 := IH _ H2). intros op' H. lia.
Qed.

Lemma inPageOrder_app (q : nat) :
  forall (a b : list PDF.TextOp) (p : nat),
    inPageOrder p a -> Forall (fun op => PDF.onPage op <= q) a -> p <= q ->
    inPageOrder q b -> inPageOrder p (a ++ b).
Proof.
  induction a as [|op a IH]; intros b p Ha Hq Hp Hb.
  - exact (inPageOrder_from p q b Hp Hb).
  - cbn [app inPageOrder] in *. destruct Ha as [H1 H2].
    inversion Hq; subst. split; [exact H1|].
    apply IH; assumption.
Qed.

Section Drawing.

Variable pageHeight : Q.
Variable getTextWidth : PDF.FontStyle -> nat -> jsstring -> Q.

Lemma renderWord_step (x lh : Q) (n : nat) (d : PDF.Doc) (cx cy : Q)
    (i : nat) (w : jsstring) :
  exists cx1 cy1,
    PDF.renderWord getTextWidth x lh n (d, cx, cy) (i, w)
    = (PDF.drawText (if i <? n - 1 then w ++ [space] else w) cx1 cy1 d,
       (cx1 + getTextWidth (PDF.fontStyle d) (PDF.fontSize d)
                (if i <? n - 1 then w ++ [space] else w))%Q,
       cy1)
    /\ (cy1 = cy \/ cy1 = (cy + lh)%Q)
    /\ (cx1 = x
        \/ (cx1 + getTextWidth (PDF.fontStyle d) (PDF.fontSize d)
                    (if i <? n - 1 then w ++ [space] else w)
            <= x + PDF.maxWidth)%Q).
Proof.
  unfold PDF.renderWord. cbv zeta.
  destruct (PDF.gt _ _) eqn:E.
  - exists x, (cy + lh)%Q. auto.
  - exists cx, cy. apply gt_false in E. auto.
Qed.

Lemma fold_words_step {S : Type} (f : S -> nat * jsstring -> S) (k n : nat)
    (w : jsstring) (ws : list jsstring) (st : S) :
  fold_left f (combine (seq k (Datatypes.S n)) (w :: ws)) st
  = fold_left f (combine (seq (Datatypes.S k) n) ws) (f st (k, w)).
Proof. reflexivity. Qed.

Lemma renderWords_trace (x lh y : Q) :
  (0 <= lh)%Q ->
  forall ws w k d cx cy,
    (y <= cy)%Q ->
    exists d' cx' cy' new,
      fold_left (PDF.renderWord getTextWidth x lh (k + S (length ws)))
        (combine (seq k (S (length ws))) (w :: ws)) (d, cx, cy)
      = (d', cx', cy')
      /\ PDF.drawn d' = PDF.drawn d ++ new
      /\ PDF.pages d' = PDF.pages d
      /\ PDF.fontSize d' = PDF.fontSize d
      /\ (y <= cy')%Q
      /\ flat_map inkOf new
         = map (fun c => (PDF.fontStyle d, PDF.fontSize d, c))
             (join space (w :: ws))
      /\ Forall (fun op => PDF.onPage op = PDF.pages d
                           /\ PDF.size op = PDF.fontSize d
                           /\ placed getTextWidth x y op) new.
Proof.
  intros Hlh. induction ws as [|w2 ws IH]; intros w k d cx cy Hy.
  - cbn [length]. rewrite fold_words_step. cbn [seq combine fold_left].
    destruct (renderWord_step x lh (k + 1) d cx cy k w)
      as (cx1 & cy1 & E & Hc & Hx).
    replace (k <? k + 1 - 1) with false in E, Hx
      by (symmetry; apply Nat.ltb_ge; lia).
    assert (Hy1 : (y <= cy1)%Q)
      by (destruct Hc; subst; [exact Hy|apply Qle_plus_nonneg; assumption]).
    rewrite E. do 4 eexists. split; [reflexivity|].
    split; [reflexivity|]. split; [reflexivity|]. split; [reflexivity|].
    split; [exact Hy1|]. split.
    + cbn [flat_map join]. apply app_nil_r.
    + constructor; [|constructor]. cbn. repeat split; auto.
  - cbn [length]. rewrite fold_words_step.
    destruct (renderWord_step x lh (k + S (S (length ws))) d cx cy k w)
      as (cx1 & cy1 & E & Hc & Hx).
    replace (k <? k + S (S (length ws)) - 1) with true in E, Hx
      by (symmetry; apply Nat.ltb_lt; lia).
    assert (Hy1 : (y <= cy1)%Q)
      by (destruct Hc; subst; [exact Hy|apply Qle_plus_nonneg; assumption]).
    rewrite E.
    replace (k + S (S (length ws))) with (S k + S (length ws)) by lia.
    destruct (IH w2 (S k) (PDF.drawText (w ++ [space]) cx1 cy1 d)
                (cx1 + getTextWidth (PDF.fontStyle d) (PDF.fontSize d)
                         (w ++ [space]))%Q cy1 Hy1)
      as (d' & cx' & cy' & new & F & Hd & Hp & Hs & Hy' & Hi & Ha).
    rewrite F. exists d', cx', cy'.
    exists (PDF.mkTextOp (PDF.pages d) (PDF.fontSize d) (PDF.fontStyle d)
              (w ++ [space]) cx1 cy1 :: new).
    split; [reflexivity|].
    split; [rewrite Hd; cbn; rewrite <- app_assoc; reflexivity|].
    split; [exact Hp|]. split; [exact Hs|]. split; [exact Hy'|]. split.
    + cbn [flat_map]. rewrite Hi.
      change (join space (w :: w2 :: ws))
        with (w ++ space :: join space (w2 :: ws)).
      unfold inkOf at 1. cbn [PDF.style PDF.size PDF.content].
      rewrite !map_app. cbn [map app PDF.drawText PDF.fontStyle PDF.fontSize].
      rewrite <- app_assoc. reflexivity.
    + constructor; [cbn; repeat split; auto|exact Ha].
Qed.

Lemma renderSegment_trace (x lh y : Q) (d : PDF.Doc) (cx cy : Q)
    (g : PDF.Segment) :
  (0 <= lh)%Q -> (y <= cy)%Q ->
  exists d' cx' cy' new,
    PDF.renderSegment getTextWidth x lh (d, cx, cy) g = (d', cx', cy')
    /\ PDF.drawn d' = PDF.drawn d ++ new
    /\ PDF.pages d' = PDF.pages d
    /\ PDF.fontSize d' = PDF.fontSize d
    /\ (y <= cy')%Q
    /\ flat_map inkOf new = segmentInk (PDF.fontSize d) g
    /\ Forall (fun op => PDF.onPage op = PDF.pages d
                         /\ PDF.size op = PDF.fontSize d
                         /\ placed getTextWidth x y op) new.
Proof.
  intros Hlh Hy. unfold PDF.renderSegment. cbv zeta.
  pose proof (split_nonempty space (PDF.text g)) as Hne.
  pose proof (join_split_at space (PDF.text g)) as Hj.
  pose proof (segmentStyle_font g d) as Hf.
  set (d1 := match PDF.bold g with
             | Some true => PDF.setFont PDF.fontBold d
             | _ =>
                 match PDF.italic g with
                 | Some true => PDF.setFont PDF.fontItalic d
                 | _ => PDF.setFont PDF.fontNormal d
                 end
             end) in *.
  assert (H1 : PDF.drawn d1 = PDF.drawn d /\ PDF.pages d1 = PDF.pages d
               /\ PDF.fontSize d1 = PDF.fontSize d).
  { unfold d1. destruct (PDF.bold g) as [[|]|];
      try (repeat split; reflexivity);
      destruct (PDF.italic g) as [[|]|]; repeat split; reflexivity. }
  destruct H1 as (D1 & P1 & S1).
  destruct (split space (PDF.text g)) as [|w ws]; [contradiction|].
  destruct (renderWords_trace x lh y Hlh ws w 0 d1 cx cy Hy)
    as (d' & cx' & cy' & new & F & Hd & Hp & Hs & Hy' & Hi & Ha).
  exists d', cx', cy', new.
  split; [exact F|]. rewrite Hd, Hp, Hs, D1, P1, S1.
  repeat (split; [reflexivity || assumption|]).
  split.
  - rewrite Hi, Hj, Hf, S1. reflexivity.
  - rewrite P1, S1 in Ha. exact Ha.
Qed.

Lemma renderSegments_trace (x lh y : Q) :
  (0 <= lh)%Q ->
  forall segments d cx cy,
    (y <= cy)%Q ->
    exists d' cx' cy' new,
      fold_left (PDF.renderSegment getTextWidth x lh) segments (d, cx, cy)
      = (d', cx', cy')
      /\ PDF.drawn d' = PDF.drawn d ++ new
      /\ PDF.pages d' = PDF.pages d
      /\ PDF.fontSize d' = PDF.fontSize d
      /\ (y <= cy')%Q
      /\ flat_map inkOf new = flat_map (segmentInk (PDF.fontSize d)) segments
      /\ Forall (fun op => PDF.onPage op = PDF.pages d
                           /\ PDF.size op = PDF.fontSize d
                           /\ placed getTextWidth x y op) new.
Proof.
  intros Hlh. induction segments as [|g segments IH]; intros d cx cy Hy.
  - exists d, cx, cy, []. rewrite app_nil_r. repeat split; auto.
  - cbn [fold_left].
    destruct (renderSegment_trace x lh y d cx cy g Hlh Hy)
      as (d1 & cx1 & cy1 & new1 & F1 & Hd1 & Hp1 & Hs1 & Hy1 & Hi1 & Ha1).
    rewrite F1.
    destruct (IH d1 cx1 cy1 Hy1)
      as (d' & cx' & cy' & new & F & Hd & Hp & Hs & Hy' & Hi & Ha).
    exists d', cx', cy', (new1 ++ new).
    split; [exact F|].
    split; [rewrite Hd, Hd1, app_assoc; reflexivity|].
    split; [congruence|]. split; [congruence|]. split; [exact Hy'|]. split.
    + rewrite flat_map_app, Hi1, Hi, Hs1. reflexivity.
    + apply Forall_app. split; [exact Ha1|].
      rewrite Hp1, Hs1 in Ha. exact Ha.
Qed.

Lemma renderParagraph_trace (d : PDF.Doc) (t : jsstring) (x y lh : Q) :
  (0 <= lh)%Q ->
  exists new,
    PDF.drawn (fst (PDF.renderParagraphWithFormatting getTextWidth d t x y lh))
    = PDF.drawn d ++ new
    /\ PDF.pages (fst (PDF.renderParagraphWithFormatting getTextWidth d t x y lh))
       = PDF.pages d
    /\ (y <= snd (PDF.renderParagraphWithFormatting getTextWidth d t x y lh))%Q
    /\ flat_map inkOf new
       = flat_map (segmentInk (PDF.fontSize d)) (PDF.parseInlineFormatting t)
    /\ Forall (fun op => PDF.onPage op = PDF.pages d
                         /\ PDF.size op = PDF.fontSize d
                         /\ placed getTextWidth x y op) new.
Proof.
  intros Hlh. unfold PDF.renderParagraphWithFormatting. cbv zeta.
  destruct (renderSegments_trace x lh y Hlh (PDF.parseInlineFormatting t)
              d x y (Qle_refl y))
    as (d' & cx' & cy' & new & F & Hd & Hp & _ & Hy & Hi & Ha).
  rewrite F. exists new. cbn [fst snd].
  split; [exact Hd|]. split; [exact Hp|].
  split; [apply Qle_plus_nonneg; assumption|]. split; assumption.
Qed.

Lemma placed_below (x y y' : Q) (op : PDF.TextOp) :
  (y' <= y)%Q -> placed getTextWidth x y op -> placed getTextWidth x y' op.
Proof.
  intros H [Hy Hx]. split; [|exact Hx].
  apply Qle_trans with y; assumption.
Qed.

Lemma renderLine_trace (d : PDF.Doc) (y : Q) (line : PDF.Line) :
  exists new,
    PDF.drawn (fst (PDF.renderLine getTextWidth (d, y) line))
    = PDF.drawn d ++ new
    /\ PDF.pages (fst (PDF.renderLine getTextWidth (d, y) line)) = PDF.pages d
    /\ (y <= snd (PDF.renderLine getTextWidth (d, y) line))%Q
    /\ flat_map inkOf new = lineInk line
    /\ Forall (fun op => PDF.onPage op = PDF.pages d
                         /\ placed getTextWidth 20 y op) new.
Proof.
  unfold PDF.renderLine, lineInk. destruct (PDF.type line).
  - eexists. cbn [fst snd]. split; [reflexivity|]. split; [reflexivity|].
    split; [apply Qle_plus_nonneg; [apply Qle_refl|discriminate]|].
    split; [apply app_nil_r|].
    constructor; [|constructor]. split; [reflexivity|].
    split; [apply Qle_refl|left; reflexivity].
  - eexists. cbn [fst snd]. split; [reflexivity|]. split; [reflexivity|].
    split; [apply Qle_plus_nonneg; [apply Qle_refl|discriminate]|].
    split; [apply app_nil_r|].
    constructor; [|constructor]. split; [reflexivity|].
    split; [apply Qle_refl|left; reflexivity].
  - destruct (renderParagraph_trace (PDF.setFontSize 12 d) (PDF.ltext line)
                20 y PDF.lineHeight) as (new & Hd & Hp & Hy & Hi & Ha);
      [discriminate|].
    exists new. split; [exact Hd|]. split; [exact Hp|]. split; [exact Hy|].
    split; [exact Hi|].
    apply Forall_impl with (2 := Ha). intros op (H1 & _ & H3).
    split; assumption.
  - exists []. cbn [fst snd]. rewrite app_nil_r.
    split; [reflexivity|]. split; [reflexivity|].
    split; [apply Qle_plus_nonneg; [apply Qle_refl|discriminate]|].
    split; [reflexivity|constructor].
Qed.

Lemma pageBreak_trace (st : PDF.Doc * Q) :
  (20 <= snd st)%Q ->
  PDF.drawn (fst (PDF.pageBreak pageHeight st)) = PDF.drawn (fst st)
  /\ PDF.pages (fst st) <= PDF.pages (fst (PDF.pageBreak pageHeight st))
     <= S (PDF.pages (fst st))
  /\ (20 <= snd (PDF.pageBreak pageHeight st))%Q.
Proof.
  destruct st as [d y]. unfold PDF.pageBreak. cbn [fst snd]. intros Hy.
  destruct (PDF.gt y (pageHeight - 20)); cbn [fst snd PDF.addPage PDF.pages PDF.drawn].
  - split; [reflexivity|]. split; [lia|apply Qle_refl].
  - split; [reflexivity|]. split; [lia|exact Hy].
Qed.

Lemma exportLine_trace (st : PDF.Doc * Q) (line : PDF.Line) :
  (20 <= snd st)%Q ->
  exists new,
    PDF.drawn (fst (PDF.exportLine pageHeight getTextWidth st line))
    = PDF.drawn (fst st) ++ new
    /\ PDF.pages (fst st)
       <= PDF.pages (fst (PDF.exportLine pageHeight getTextWidth st line))
       <= S (PDF.pages (fst st))
    /\ (20 <= snd (PDF.exportLine pageHeight getTextWidth st line))%Q
    /\ flat_map inkOf new = lineInk line
    /\ Forall (fun op =>
                 PDF.onPage op
                 = PDF.pages (fst (PDF.exportLine pageHeight getTextWidth st line))
                 /\ placed getTextWidth 20 20 op) new.
Proof.
  intros Hy. unfold PDF.exportLine.
  destruct (pageBreak_trace st Hy) as (Bd & Bp & By).
  destruct (PDF.pageBreak pageHeight st) as [d0 y0]. cbn [fst snd] in Bd, Bp, By.
  destruct (renderLine_trace d0 y0 line) as (new & Hd & Hp & Hy' & Hi & Ha).
  exists new. rewrite Hd, Hp, Bd.
  split; [reflexivity|]. split; [exact Bp|].
  split; [apply Qle_trans with y0; assumption|]. split; [exact Hi|].
  apply Forall_impl with (2 := Ha). intros op [H1 H2].
  split; [exact H1|apply (placed_below 20 y0 20 op By H2)].
Qed.

Lemma exportLines_trace :
  forall lines st,
    (20 <= snd st)%Q ->
    exists new,
      PDF.drawn (fst (fold_left (PDF.exportLine pageHeight getTextWidth) lines st))
      = PDF.drawn (fst st) ++ new
      /\ PDF.pages (fst st)
         <= PDF.pages
              (fst (fold_left (PDF.exportLine pageHeight getTextWidth) lines st))
         <= length lines + PDF.pages (fst st)
      /\ flat_map inkOf new = flat_map lineInk lines
      /\ Forall (fun op =>
                   PDF.onPage op
                   <= PDF.pages
                        (fst (fold_left (PDF.exportLine pageHeight getTextWidth)
                                lines st))
                   /\ placed getTextWidth 20 20 op) new
      /\ inPageOrder (PDF.pages (fst st)) new.
Proof.
  induction lines as [|line lines IH]; intros st Hy.
  - exists []. cbn [fold_left length]. rewrite app_nil_r.
    split; [reflexivity|]. split; [lia|].
    split; [reflexivity|]. split; [constructor|exact I].
  - cbn [fold_left length flat_map].
    destruct (exportLine_trace st line Hy) as (new1 & Hd1 & Hp1 & Hy1 & Hi1 & Ha1).
    destruct (IH (PDF.exportLine pageHeight getTextWidth st line) Hy1)
      as (new & Hd & Hp & Hi & Ha & Ho).
    exists (new1 ++ new).
    split; [rewrite Hd, Hd1, app_assoc; reflexivity|].
    split; [lia|].
    split; [rewrite flat_map_app, Hi1, Hi; reflexivity|].
    split.
    + apply Forall_app. split; [|exact Ha].
      apply Forall_impl with (2 := Ha1). intros op [H1 H2].
      split; [rewrite H1; lia|exact H2].
    + apply (inPageOrder_app
               (PDF.pages (fst (PDF.exportLine pageHeight getTextWidth st line)))).
      * apply inPageOrder_from
          with (q := PDF.pages
                       (fst (PDF.exportLine pageHeight getTextWidth st line)));
          [lia|].
        apply inPageOrder_same.
        apply Forall_impl with (2 := Ha1). intros op [H1 _]. exact H1.
      * apply Forall_impl with (2 := Ha1). intros op [H1 _]. rewrite H1. lia.
      * lia.
      * exact Ho.
Qed.

End Drawing.

(** X13: the paged document shows the text of its lines and nothing else:
    the characters drawn, in the order of drawing and each with the font and
    size in force, are those of the lines in their order - a heading in
    bold at 20 or 16, a paragraph at 12 with each segment in the font of its
    emphasis - so splitting a paragraph into words and putting the blanks
    back loses and adds nothing. *)
Theorem document_shows_content (pageHeight : Q)
    (getTextWidth : PDF.FontStyle -> nat -> jsstring -> Q) (c : jsstring) :
  flat_map inkOf (PDF.drawn (PDF.export pageHeight getTextWidth c))
  = flat_map lineInk (PDF.parseMarkdown c).
Proof.
  unfold PDF.export.
  destruct (exportLines_trace pageHeight getTextWidth (PDF.parseMarkdown c)
              (PDF.newDoc, 20%Q) (Qle_refl 20))
    as (new & Hd & _ & Hi & _).
  rewrite Hd. exact Hi.
Qed.

(** X14: every drawing of the paged document stands at or below the top
    margin (20), and either at the left margin (20) or so that it ends at
    or before the right margin (20 + 170): only a word that is put at the
    start of a row can reach beyond the right margin. *)
Theorem drawings_within_margins (pageHeight : Q)
    (getTextWidth : PDF.FontStyle -> nat -> jsstring -> Q) (c : jsstring) :
  Forall (placed getTextWidth 20 20)
    (PDF.drawn (PDF.export pageHeight getTextWidth c)).
Proof.
  unfold PDF.export.
  destruct (exportLines_trace pageHeight getTextWidth (PDF.parseMarkdown c)
              (PDF.newDoc, 20%Q) (Qle_refl 20))
    as (new & Hd & _ & _ & Ha & _).
  rewrite Hd. apply Forall_impl with (2 := Ha). intros op [_ H]. exact H.
Qed.

(** X15: the pages of the paged document: there is at least one page and at
    most one more than there are lines, and every drawing is on one of the
    pages of the document. *)
Theorem pages_bounded (pageHeight : Q)
    (getTextWidth : PDF.FontStyle -> nat -> jsstring -> Q) (c : jsstring) :
  1 <= PDF.pages (PDF.export pageHeight getTextWidth c)
    <= 1 + length (PDF.parseMarkdown c)
  /\ Forall (fun op =>
               1 <= PDF.onPage op
                 <= PDF.pages (PDF.export pageHeight getTextWidth c))
       (PDF.drawn (PDF.export pageHeight getTextWidth c)).
Proof.
  unfold PDF.export.
  destruct (exportLines_trace pageHeight getTextWidth (PDF.parseMarkdown c)
              (PDF.newDoc, 20%Q) (Qle_refl 20))
    as (new & Hd & Hp & _ & Ha & Ho).
  cbn [fst PDF.newDoc PDF.pages PDF.drawn app] in Hd, Hp, Ho.
  rewrite Hd. split; [lia|].
  apply inPageOrder_all in Ho. apply Forall_forall. intros op Hin.
  rewrite Forall_forall in Ha, Ho.
  split; [exact (Ho op Hin)|exact (proj1 (Ha op Hin))].
Qed.

(** ** Rows and margins when no width is negative *)

Lemma fold_left_invariant {S A : Type} (I : S -> Prop) (f : S -> A -> S) :
  (forall s a, I s -> I (f s a)) ->
  forall l s, I s -> I (fold_left f l s).
Proof.
  intros H. induction l as [|a l IH]; intros s Hs; [exact Hs|].
  cbn [fold_left]. apply IH, H, Hs.
Qed.

Section Rows.

Variable pageHeight : Q.
Variable getTextWidth : PDF.FontStyle -> nat -> jsstring -> Q.
Hypothesis page_tall : (40 <= pageHeight)%Q.
Hypothesis width_nonneg : forall f size t, (0 <= getTextWidth f size t)%Q.

Lemma renderWord_left (x lh : Q) (n : nat) (st : PDF.Doc * Q * Q)
    (iw : nat * jsstring) :
  keepsLeft x st -> keepsLeft x (PDF.renderWord getTextWidth x lh n st iw).
Proof.
  destruct st as [[d cx] cy], iw as [i w]. unfold keepsLeft. cbn [fst snd].
  intros [Hx Hd]. unfold PDF.renderWord. cbv zeta.
  destruct (PDF.gt _ _); cbn [fst snd PDF.drawText PDF.drawn].
  - split; [apply Qle_plus_nonneg; [apply Qle_refl|apply width_nonneg]|].
    apply Forall_app. split; [exact Hd|].
    constructor; [apply Qle_refl|constructor].
  - split; [apply Qle_plus_nonneg; [exact Hx|apply width_nonneg]|].
    apply Forall_app. split; [exact Hd|].
    constructor; [exact Hx|constructor].
Qed.

Lemma renderSegment_left (x lh : Q) (st : PDF.Doc * Q * Q) (g : PDF.Segment) :
  keepsLeft x st -> keepsLeft x (PDF.renderSegment getTextWidth x lh st g).
Proof.
  destruct st as [[d cx] cy]. intros [Hx Hd]. cbn [fst snd] in Hx, Hd.
  unfold PDF.renderSegment. cbv zeta.
  apply fold_left_invariant; [intros s a; apply renderWord_left|].
  split; [exact Hx|]. cbn [fst snd].
  destruct (PDF.bold g) as [[|]|]; try exact Hd;
    destruct (PDF.italic g) as [[|]|]; exact Hd.
Qed.

Lemma renderParagraph_left (d : PDF.Doc) (t : jsstring) (x y lh : Q) :
  Forall (fun op => (x <= PDF.atX op)%Q) (PDF.drawn d) ->
  Forall (fun op => (x <= PDF.atX op)%Q)
    (PDF.drawn (fst (PDF.renderParagraphWithFormatting getTextWidth d t x y lh))).
Proof.
  intros Hd. unfold PDF.renderParagraphWithFormatting. cbv zeta.
  assert (H : keepsLeft x
                (fold_left (PDF.renderSegment getTextWidth x lh)
                   (PDF.parseInlineFormatting t) (d, x, y))).
  { apply fold_left_invariant; [intros s a; apply renderSegment_left|].
    split; [apply Qle_refl|exact Hd]. }
  destruct (fold_left _ _ _) as [[d' cx'] cy']. exact (proj2 H).
Qed.

Lemma exportLine_left (st : PDF.Doc * Q) (line : PDF.Line) :
  Forall (fun op => (20 <= PDF.atX op)%Q) (PDF.drawn (fst st)) ->
  Forall (fun op => (20 <= PDF.atX op)%Q)
    (PDF.drawn (fst (PDF.exportLine pageHeight getTextWidth st line))).
Proof.
  intros H. unfold PDF.exportLine.
  rewrite <- (pageBreak_drawn pageHeight st) in H.
  destruct (PDF.pageBreak pageHeight st) as [d y]. cbn [fst] in H.
  unfold PDF.renderLine. destruct (PDF.type line); cbn [fst].
  - apply Forall_app. split; [exact H|].
    constructor; [apply Qle_refl|constructor].
  - apply Forall_app. split; [exact H|].
    constructor; [apply Qle_refl|constructor].
  - apply renderParagraph_left. exact H.
  - exact H.
Qed.

(** No word is moved to the next row when the words still to come fit. *)
Lemma wordsWidth_nonneg (f : PDF.FontStyle) (size n : nat)
    (iws : list (nat * jsstring)) :
  (0 <= wordsWidth getTextWidth f size n iws)%Q.
Proof.
  induction iws as [|iw iws IH]; [apply Qle_refl|].
  change (wordsWidth getTextWidth f size n (iw :: iws))
    with (getTextWidth f size (wordWithSpace n iw)
          + wordsWidth getTextWidth f size n iws)%Q.
  pose proof (width_nonneg f size (wordWithSpace n iw)). lra.
Qed.

Lemma segmentWidth_nonneg (size : nat) (g : PDF.Segment) :
  (0 <= segmentWidth getTextWidth size g)%Q.
Proof. apply wordsWidth_nonneg. Qed.

Lemma segmentsWidth_nonneg (size : nat) (segments : list PDF.Segment) :
  (0 <= fold_right
          (fun g acc => (segmentWidth getTextWidth size g + acc)%Q)
          0%Q segments)%Q.
Proof.
  induction segments as [|g segments IH]; cbn [fold_right]; [apply Qle_refl|].
  pose proof (segmentWidth_nonneg size g). lra.
Qed.

Lemma renderWords_row (x lh : Q) (n : nat) (later : Q) :
  (0 <= later)%Q ->
  forall iws d cx cy,
    (cx + (wordsWidth getTextWidth (PDF.fontStyle d) (PDF.fontSize d) n iws
           + later) <= x + PDF.maxWidth)%Q ->
    exists d' cx' new,
      fold_left (PDF.renderWord getTextWidth x lh n) iws (d, cx, cy)
      = (d', cx', cy)
      /\ (cx' + later <= x + PDF.maxWidth)%Q
      /\ PDF.fontSize d' = PDF.fontSize d
      /\ PDF.drawn d' = PDF.drawn d ++ new
      /\ Forall (fun op => PDF.atY op = cy) new.
Proof.
  intros Hl. induction iws as [|[i w] iws IH]; intros d cx cy H.
  - exists d, cx, []. change (wordsWidth getTextWidth (PDF.fontStyle d)
                                (PDF.fontSize d) n []) with 0%Q in H.
    rewrite app_nil_r. repeat split; auto. lra.
  - cbn [fold_left].
    change (wordsWidth getTextWidth (PDF.fontStyle d) (PDF.fontSize d) n
              ((i, w) :: iws))
      with (getTextWidth (PDF.fontStyle d) (PDF.fontSize d)
              (if i <? n - 1 then w ++ [space] else w)
            + wordsWidth getTextWidth (PDF.fontStyle d) (PDF.fontSize d) n iws)%Q
      in H.
    pose proof (wordsWidth_nonneg (PDF.fontStyle d) (PDF.fontSize d) n iws) as Hw.
    pose proof (width_nonneg (PDF.fontStyle d) (PDF.fontSize d)
                  (if i <? n - 1 then w ++ [space] else w)) as Hw1.
    assert (Hfit : (cx + getTextWidth (PDF.fontStyle d) (PDF.fontSize d)
                            (if i <? n - 1 then w ++ [space] else w)
                    <= x + PDF.maxWidth)%Q) by lra.
    assert (E : PDF.renderWord getTextWidth x lh n (d, cx, cy) (i, w)
                = (PDF.drawText (if i <? n - 1 then w ++ [space] else w) cx cy d,
                   (cx + getTextWidth (PDF.fontStyle d) (PDF.fontSize d)
                           (if i <? n - 1 then w ++ [space] else w))%Q,
                   cy)).
    { unfold PDF.renderWord. cbv zeta.
      replace (PDF.gt _ _) with false; [reflexivity|].
      symmetry. apply gt_false. exact Hfit. }
    rewrite E.
    destruct (IH (PDF.drawText (if i <? n - 1 then w ++ [space] else w) cx cy d)
                (cx + getTextWidth (PDF.fontStyle d) (PDF.fontSize d)
                        (if i <? n - 1 then w ++ [space] else w))%Q cy)
      as (d' & cx' & new & F & Hc & Hs & Hd & Ha).
    { cbn [PDF.drawText PDF.fontStyle PDF.fontSize]. lra. }
    rewrite F. exists d', cx'.
    exists (PDF.mkTextOp (PDF.pages d) (PDF.fontSize d) (PDF.fontStyle d)
              (if i <? n - 1 then w ++ [space] else w) cx cy :: new).
    split; [reflexivity|]. split; [exact Hc|]. split; [exact Hs|].
    split; [rewrite Hd; cbn; rewrite <- app_assoc; reflexivity|].
    constructor; [reflexivity|exact Ha].
Qed.

Lemma renderSegments_row (x lh : Q) :
  forall segments d cx cy,
    (cx + fold_right
            (fun g acc => (segmentWidth getTextWidth (PDF.fontSize d) g + acc)%Q)
            0%Q segments <= x + PDF.maxWidth)%Q ->
    exists d' cx' new,
      fold_left (PDF.renderSegment getTextWidth x lh) segments (d, cx, cy)
      = (d', cx', cy)
      /\ PDF.drawn d' = PDF.drawn d ++ new
      /\ Forall (fun op => PDF.atY op = cy) new.
Proof.
  induction segments as [|g segments IH]; intros d cx cy H.
  - exists d, cx, []. rewrite app_nil_r. repeat split; auto.
  - cbn [fold_left fold_right] in *.
    set (later := fold_right
                    (fun g acc =>
                       (segmentWidth getTextWidth (PDF.fontSize d) g + acc)%Q)
                    0%Q segments) in *.
    assert (Hl : (0 <= later)%Q) by apply segmentsWidth_nonneg.
    pose proof (segmentStyle_font g d) as Hf.
    unfold PDF.renderSegment at 2. cbv zeta.
    set (d1 := match PDF.bold g with
               | Some true => PDF.setFont PDF.fontBold d
               | _ =>
                   match PDF.italic g with
                   | Some true => PDF.setFont PDF.fontItalic d
                   | _ => PDF.setFont PDF.fontNormal d
                   end
               end) in *.
    assert (H1 : PDF.drawn d1 = PDF.drawn d /\ PDF.fontSize d1 = PDF.fontSize d).
    { unfold d1. destruct (PDF.bold g) as [[|]|];
        try (split; reflexivity);
        destruct (PDF.italic g) as [[|]|]; split; reflexivity. }
    destruct H1 as [D1 S1].
    destruct (renderWords_row x lh (length (split space (PDF.text g))) later Hl
                (combine (seq 0 (length (split space (PDF.text g))))
                   (split space (PDF.text g))) d1 cx cy)
      as (d2 & cx2 & new1 & F1 & Hc & Hs & Hd & Ha).
    { rewrite Hf, S1. exact H. }
    rewrite F1.
    destruct (IH d2 cx2 cy) as (d' & cx' & new & F & Hd' & Ha').
    { rewrite Hs, S1. exact Hc. }
    rewrite F. exists d', cx', (new1 ++ new).
    split; [reflexivity|].
    split; [rewrite Hd', Hd, D1, app_assoc; reflexivity|].
    apply Forall_app. split; assumption.
Qed.

Lemma renderLine_row (d : PDF.Doc) (y : Q) (line : PDF.Line) :
  fitsRow getTextWidth line ->
  exists new,
    PDF.drawn (fst (PDF.renderLine getTextWidth (d, y) line))
    = PDF.drawn d ++ new
    /\ Forall (fun op => PDF.atY op = y) new.
Proof.
  intros Hfit. unfold fitsRow in Hfit. unfold PDF.renderLine.
  destruct (PDF.type line).
  - eexists. cbn [fst]. split; [reflexivity|repeat constructor].
  - eexists. cbn [fst]. split; [reflexivity|repeat constructor].
  - specialize (Hfit eq_refl). unfold paragraphWidth in Hfit.
    unfold PDF.renderParagraphWithFormatting. cbv zeta.
    destruct (renderSegments_row 20 PDF.lineHeight
                (PDF.parseInlineFormatting (PDF.ltext line))
                (PDF.setFontSize 12 d) 20 y)
      as (d' & cx' & new & F & Hd & Ha).
    { cbn [PDF.setFontSize PDF.fontSize]. lra. }
    rewrite F. exists new. split; assumption.
  - exists []. cbn [fst]. rewrite app_nil_r. split; [reflexivity|constructor].
Qed.

Lemma exportLine_row (st : PDF.Doc * Q) (line : PDF.Line) :
  fitsRow getTextWidth line ->
  Forall (aboveBottomMargin pageHeight) (PDF.drawn (fst st)) ->
  Forall (aboveBottomMargin pageHeight)
    (PDF.drawn (fst (PDF.exportLine pageHeight getTextWidth st line))).
Proof.
  intros Hfit H. unfold PDF.exportLine.
  pose proof (pageBreak_cursor pageHeight page_tall st) as Hc.
  rewrite <- (pageBreak_drawn pageHeight st) in H.
  destruct (PDF.pageBreak pageHeight st) as [d y]. cbn [fst snd] in H, Hc.
  destruct (renderLine_row d y line Hfit) as (new & -> & Ha).
  apply Forall_app. split; [exact H|].
  apply Forall_impl with (2 := Ha). intros op Hy.
  unfold aboveBottomMargin. rewrite Hy. exact Hc.
Qed.

End Rows.

(** X16: when no text has a negative width, nothing is drawn to the left
    of the left margin of the paged document. *)
Theorem drawings_right_of_left_margin (pageHeight : Q)
    (getTextWidth : PDF.FontStyle -> nat -> jsstring -> Q) (c : jsstring) :
  (forall f size t, (0 <= getTextWidth f size t)%Q) ->
  Forall (fun op => (20 <= PDF.atX op)%Q)
    (PDF.drawn (PDF.export pageHeight getTextWidth c)).
Proof.
  intros Hw. unfold PDF.export.
  apply (fold_left_invariant
           (fun st => Forall (fun op => (20 <= PDF.atX op)%Q)
                        (PDF.drawn (fst st)))).
  - intros st line. apply exportLine_left. exact Hw.
  - constructor.
Qed.

Lemma drawings_right_of_left_margin_witness :
  Forall (fun op => (20 <= PDF.atX op)%Q)
    (PDF.drawn (PDF.export 297 twoPerChar
                  (str "# Title" ++ [nl] ++ str "some **bold** words"))).
Proof.
  apply (drawings_right_of_left_margin 297 twoPerChar).
  intros f size t. unfold twoPerChar, Qle. simpl. lia.
Defined.

(** X17: when the page is at least 40 high, no text has a negative width
    and every paragraph is no wider than a row (170), every drawing of the
    paged document stands at or above the bottom margin. *)
Theorem fitting_paragraphs_within_page (pageHeight : Q)
    (getTextWidth : PDF.FontStyle -> nat -> jsstring -> Q) (c : jsstring) :
  (40 <= pageHeight)%Q ->
  (forall f size t, (0 <= getTextWidth f size t)%Q) ->
  Forall (fitsRow getTextWidth) (PDF.parseMarkdown c) ->
  Forall (aboveBottomMargin pageHeight)
    (PDF.drawn (PDF.export pageHeight getTextWidth c)).
Proof.
  intros Htall Hw Hfit. unfold PDF.export.
  revert Hfit. generalize (PDF.parseMarkdown c).
  assert (H : Forall (aboveBottomMargin pageHeight)
                (PDF.drawn (fst (PDF.newDoc, 20%Q)))) by constructor.
  revert H. generalize (PDF.newDoc, 20%Q).
  intros st H lines. revert st H.
  induction lines as [|line lines IH]; intros st H Hfit; [exact H|].
  inversion Hfit; subst. cbn [fold_left].
  apply IH; [|assumption].
  apply exportLine_row; assumption.
Qed.

Lemma fitting_paragraphs_within_page_witness :
  Forall (aboveBottomMargin 297)
    (PDF.drawn (PDF.export 297 twoPerChar
                  (str "# Title" ++ [nl] ++ str "some **bold** words"))).
Proof.
  apply (fitting_paragraphs_within_page 297 twoPerChar).
  - discriminate.
  - intros f size t. unfold twoPerChar, Qle. simpl. lia.
  - vm_compute. repeat constructor; discriminate.
Defined.

(** ** The two documents side by side *)

Lemma parseLine_lineOfNode (l : jsstring) :
  PDF.parseLine [] l = map lineOfNode (DOCX.parseLine [] l).
Proof.
  unfold PDF.parseLine, DOCX.parseLine.
  destruct (trim l) as [|x t]; [reflexivity|].
  destruct (startsWith (str "# ") (x :: t)); [reflexivity|].
  destruct (startsWith (str "## ") (x :: t)); [reflexivity|].
  cbn [app map lineOfNode]. rewrite docx_parse_source by discriminate.
  reflexivity.
Qed.

(** X18: the lines of the paged document can be read off the Word
    document, node by node: an empty paragraph is an empty line, a heading
    node is a heading line of the same level whose text is the text of the
    node with its marker pairs stripped, and a paragraph of runs is a
    paragraph line whose text is the runs written back with their
    delimiters. *)
Theorem pdf_lines_from_docx_nodes (c : jsstring) :
  PDF.parseMarkdown c = map lineOfNode (DOCX.parseMarkdownToDocx c).
Proof.
  unfold PDF.parseMarkdown, DOCX.parseMarkdownToDocx.
  rewrite pdf_parseMarkdown_lines, docx_parseMarkdown_lines. cbn [app].
  induction (split nl c) as [|l lines IH]; [reflexivity|].
  cbn [flat_map]. rewrite map_app, <- parseLine_lineOfNode, IH. reflexivity.
Qed.

(** ** Reading order *)

Lemma notAfter_refl (p : nat) (y : Q) : notAfter p y p y.
Proof. right. split; [reflexivity|apply Qle_refl]. Qed.

Lemma notAfter_trans (p : nat) (y : Q) (q : nat) (z : Q) (r : nat) (w : Q) :
  notAfter p y q z -> notAfter q z r w -> notAfter p y r w.
Proof.
  unfold notAfter. intros [H1|[H1 H2]] [H3|[H3 H4]].
  - left. lia.
  - left. lia.
  - left. lia.
  - right. split; [lia|]. apply Qle_trans with z; assumption.
Qed.

Lemma inReadingOrder_from (p : nat) (y : Q) (q : nat) (z : Q)
    (ops : list PDF.TextOp) :
  notAfter p y q z -> inReadingOrder q z ops -> inReadingOrder p y ops.
Proof.
  intros H Ho. destruct ops as [|op ops]; [exact I|].
  cbn [inReadingOrder] in *. destruct Ho as [H1 H2].
  split; [exact (notAfter_trans _ _ _ _ _ _ H H1)|exact H2].
Qed.

Lemma inReadingOrder_app (q : nat) (z : Q) :
  forall (a b : list PDF.TextOp) (p : nat) (y : Q),
    inReadingOrder p y a ->
    Forall (fun op => notAfter (PDF.onPage op) (PDF.atY op) q z) a ->
    notAfter p y q z ->
    inReadingOrder q z b -> inReadingOrder p y (a ++ b).
Proof.
  induction a as [|op a IH]; intros b p y Ha Hq Hp Hb.
  - exact (inReadingOrder_from p y q z b Hp Hb).
  - cbn [app inReadingOrder] in *. destruct Ha as [H1 H2].
    inversion Hq; subst. split; [exact H1|].
    apply IH; assumption.
Qed.

Lemma advances_refl (s : PDF.Doc * Q) : advances s s.
Proof.
  exists []. rewrite app_nil_r.
  split; [reflexivity|]. split; [apply notAfter_refl|].
  split; [constructor|exact I].
Qed.

Lemma advances_trans (s1 s2 s3 : PDF.Doc * Q) :
  advances s1 s2 -> advances s2 s3 -> advances s1 s3.
Proof.
  intros (new1 & D1 & N1 & A1 & O1) (new2 & D2 & N2 & A2 & O2).
  exists (new1 ++ new2).
  split; [rewrite D2, D1, app_assoc; reflexivity|].
  split; [exact (notAfter_trans _ _ _ _ _ _ N1 N2)|].
  split.
  - apply Forall_app. split; [|exact A2].
    apply Forall_impl with (2 := A1). intros op H.
    exact (notAfter_trans _ _ _ _ _ _ H N2).
  - apply (inReadingOrder_app (PDF.pages (fst s2)) (snd s2)); assumption.
Qed.

Lemma advances_fold {S A : Type} (view : S -> PDF.Doc * Q) (f : S -> A -> S) :
  (forall s a, advances (view s) (view (f s a))) ->
  forall l s, advances (view s) (view (fold_left f l s)).
Proof.
  intros H. induction l as [|a l IH]; intros s; [apply advances_refl|].
  cbn [fold_left]. exact (advances_trans _ _ _ (H s a) (IH (f s a))).
Qed.

Lemma advances_draw (d : PDF.Doc) (y y1 y' : Q) (t : jsstring) (x : Q) :
  (y <= y1)%Q -> (y1 <= y')%Q ->
  advances (d, y) (PDF.drawText t x y1 d, y').
Proof.
  intros H1 H2.
  exists [PDF.mkTextOp (PDF.pages d) (PDF.fontSize d) (PDF.fontStyle d) t x y1].
  cbn [fst snd PDF.drawText PDF.drawn PDF.pages inReadingOrder
       PDF.onPage PDF.atY].
  split; [reflexivity|].
  split; [right; split; [reflexivity|apply Qle_trans with y1; assumption]|].
  split; [constructor; [right; split; [reflexivity|exact H2]|constructor]|].
  split; [right; split; [reflexivity|exact H1]|exact I].
Qed.

Lemma advances_same_drawn (d d' : PDF.Doc) (y y' : Q) :
  PDF.drawn d' = PDF.drawn d ->
  notAfter (PDF.pages d) y (PDF.pages d') y' ->
  advances (d, y) (d', y').
Proof.
  intros Hd Hn. exists []. cbn [fst snd]. rewrite app_nil_r.
  split; [exact Hd|]. split; [exact Hn|]. split; [constructor|exact I].
Qed.

Section ReadingOrder.

Variable pageHeight : Q.
Variable getTextWidth : PDF.FontStyle -> nat -> jsstring -> Q.

Lemma renderWord_advances (x lh : Q) (n : nat) (st : PDF.Doc * Q * Q)
    (iw : nat * jsstring) :
  (0 <= lh)%Q ->
  advances (docAndHeight st)
    (docAndHeight (PDF.renderWord getTextWidth x lh n st iw)).
Proof.
  intros Hlh. destruct st as [[d cx] cy], iw as [i w].
  unfold PDF.renderWord. cbv zeta.
  destruct (PDF.gt _ _); unfold docAndHeight; cbn [fst snd].
  - apply advances_draw; [|apply Qle_refl].
    apply Qle_plus_nonneg; [apply Qle_refl|exact Hlh].
  - apply advances_draw; apply Qle_refl.
Qed.

Lemma renderSegment_advances (x lh : Q) (st : PDF.Doc * Q * Q)
    (g : PDF.Segment) :
  (0 <= lh)%Q ->
  advances (docAndHeight st)
    (docAndHeight (PDF.renderSegment getTextWidth x lh st g)).
Proof.
  intros Hlh. destruct st as [[d cx] cy]. unfold PDF.renderSegment. cbv zeta.
  eapply advances_trans;
    [|apply (advances_fold docAndHeight);
      intros s a; apply renderWord_advances; exact Hlh].
  unfold docAndHeight. cbn [fst snd].
  apply advances_same_drawn.
  - destruct (PDF.bold g) as [[|]|]; try reflexivity;
      destruct (PDF.italic g) as [[|]|]; reflexivity.
  - destruct (PDF.bold g) as [[|]|]; try apply notAfter_refl;
      destruct (PDF.italic g) as [[|]|]; apply notAfter_refl.
Qed.

Lemma advances_cursor (d : PDF.Doc) (y y' : Q) :
  (y <= y')%Q -> advances (d, y) (d, y').
Proof.
  intros H. apply advances_same_drawn; [reflexivity|].
  right. split; [reflexivity|exact H].
Qed.

Lemma renderLine_advances (st : PDF.Doc * Q) (line : PDF.Line) :
  advances st (PDF.renderLine getTextWidth st line).
Proof.
  destruct st as [d y]. unfold PDF.renderLine. destruct (PDF.type line).
  - eapply advances_trans;
      [apply (advances_same_drawn d (PDF.setFont PDF.fontBold
                                       (PDF.setFontSize 20 d)) y y);
       [reflexivity|apply notAfter_refl]|].
    apply advances_draw; [apply Qle_refl|].
    apply Qle_plus_nonneg; [apply Qle_refl|discriminate].
  - eapply advances_trans;
      [apply (advances_same_drawn d (PDF.setFont PDF.fontBold
                                       (PDF.setFontSize 16 d)) y y);
       [reflexivity|apply notAfter_refl]|].
    apply advances_draw; [apply Qle_refl|].
    apply Qle_plus_nonneg; [apply Qle_refl|discriminate].
  - unfold PDF.renderParagraphWithFormatting. cbv zeta.
    pose proof (advances_fold docAndHeight
                  (PDF.renderSegment getTextWidth 20 PDF.lineHeight)
                  (fun s a => renderSegment_advances 20 PDF.lineHeight s a
                                ltac:(discriminate))
                  (PDF.parseInlineFormatting (PDF.ltext line))
                  (PDF.setFontSize 12 d, 20%Q, y)) as H.
    destruct (fold_left _ _ _) as [[d' cx'] cy'].
    unfold docAndHeight in H. cbn [fst snd] in H.
    eapply advances_trans;
      [apply (advances_same_drawn d (PDF.setFontSize 12 d) y y);
       [reflexivity|apply notAfter_refl]|].
    eapply advances_trans; [exact H|].
    apply advances_cursor.
    apply Qle_plus_nonneg; [apply Qle_refl|discriminate].
  - apply advances_cursor.
    apply Qle_plus_nonneg; [apply Qle_refl|discriminate].
Qed.

Lemma pageBreak_advances (st : PDF.Doc * Q) :
  advances st (PDF.pageBreak pageHeight st).
Proof.
  destruct st as [d y]. unfold PDF.pageBreak.
  destruct (PDF.gt _ _); [|apply advances_refl].
  apply advances_same_drawn; [reflexivity|].
  left. cbn [PDF.addPage PDF.pages]. lia.
Qed.

Lemma exportLine_advances (st : PDF.Doc * Q) (line : PDF.Line) :
  advances st (PDF.exportLine pageHeight getTextWidth st line).
Proof.
  unfold PDF.exportLine.
  exact (advances_trans _ _ _ (pageBreak_advances st)
           (renderLine_advances _ line)).
Qed.

End ReadingOrder.

(** X19: the paged document is drawn in reading order: starting at the top
    margin of the first page, every drawing is on a later page than the one
    before it, or on the same page and not above it. *)
Theorem drawn_in_reading_order (pageHeight : Q)
    (getTextWidth : PDF.FontStyle -> nat -> jsstring -> Q) (c : jsstring) :
  inReadingOrder 1 20 (PDF.drawn (PDF.export pageHeight getTextWidth c)).
Proof.
  unfold PDF.export.
  destruct (advances_fold (fun s => s)
              (PDF.exportLine pageHeight getTextWidth)
              (exportLine_advances pageHeight getTextWidth)
              (PDF.parseMarkdown c) (PDF.newDoc, 20%Q))
    as (new & Hd & _ & _ & Ho).
  rewrite Hd. exact Ho.
Qed.

(** ** Rows of a paragraph and the page break *)

Section ParagraphRows.

Variable pageHeight : Q.
Variable getTextWidth : PDF.FontStyle -> nat -> jsstring -> Q.
Hypothesis page_tall : (40 <= pageHeight)%Q.

Lemma chainEnd_app :
  forall a b cx cy,
    chainEnd getTextWidth cx cy (a ++ b)
    = chainEnd getTextWidth (fst (chainEnd getTextWidth cx cy a))
        (snd (chainEnd getTextWidth cx cy a)) b.
Proof.
  induction a as [|op a IH]; intros b cx' cy'; [reflexivity|].
  cbn [app chainEnd]. apply IH.
Qed.

Lemma rowChain_app (x lh : Q) :
  forall a b cx cy,
    rowChain getTextWidth x lh cx cy a ->
    rowChain getTextWidth x lh (fst (chainEnd getTextWidth cx cy a))
      (snd (chainEnd getTextWidth cx cy a)) b ->
    rowChain getTextWidth x lh cx cy (a ++ b).
Proof.
  induction a as [|op a IH]; intros b cx cy Ha Hb; [exact Hb|].
  cbn [app rowChain chainEnd] in *. destruct Ha as [H1 H2].
  split; [exact H1|]. apply IH; assumption.
Qed.

Lemma renderWord_chain (x lh : Q) (n : nat) (d : PDF.Doc) (cx cy : Q)
    (iw : nat * jsstring) :
  exists op d',
    PDF.renderWord getTextWidth x lh n (d, cx, cy) iw
    = (d', (PDF.atX op + opWidth getTextWidth op)%Q, PDF.atY op)
    /\ PDF.drawn d' = PDF.drawn d ++ [op]
    /\ PDF.fontStyle d' = PDF.fontStyle d
    /\ PDF.fontSize d' = PDF.fontSize d
    /\ rowChain getTextWidth x lh cx cy [op].
Proof.
  destruct iw as [i w]. unfold PDF.renderWord. cbv zeta.
  destruct (PDF.gt _ _) eqn:E.
  - exists (PDF.mkTextOp (PDF.pages d) (PDF.fontSize d) (PDF.fontStyle d)
              (if i <? n - 1 then w ++ [space] else w) x (cy + lh)%Q).
    eexists. split; [reflexivity|].
    split; [reflexivity|]. split; [reflexivity|]. split; [reflexivity|].
    cbn [rowChain]. split; [|exact I].
    match goal with
    | |- if ?b then _ else _ => replace b with true by (symmetry; exact E)
    end.
    split; reflexivity.
  - exists (PDF.mkTextOp (PDF.pages d) (PDF.fontSize d) (PDF.fontStyle d)
              (if i <? n - 1 then w ++ [space] else w) cx cy).
    eexists. split; [reflexivity|].
    split; [reflexivity|]. split; [reflexivity|]. split; [reflexivity|].
    cbn [rowChain]. split; [|exact I].
    match goal with
    | |- if ?b then _ else _ => replace b with false by (symmetry; exact E)
    end.
    split; reflexivity.
Qed.

Lemma renderWords_chain (x lh : Q) (n : nat) :
  forall iws d cx cy,
    exists new d',
      fold_left (PDF.renderWord getTextWidth x lh n) iws (d, cx, cy)
      = (d', fst (chainEnd getTextWidth cx cy new),
         snd (chainEnd getTextWidth cx cy new))
      /\ PDF.drawn d' = PDF.drawn d ++ new
      /\ PDF.fontStyle d' = PDF.fontStyle d
      /\ PDF.fontSize d' = PDF.fontSize d
      /\ rowChain getTextWidth x lh cx cy new.
Proof.
  induction iws as [|iw iws IH]; intros d cx cy.
  - exists [], d. rewrite app_nil_r. repeat split; reflexivity.
  - cbn [fold_left].
    destruct (renderWord_chain x lh n d cx cy iw)
      as (op & d1 & E & Hd1 & Hf1 & Hs1 & [Hop _]).
    rewrite E.
    destruct (IH d1 (PDF.atX op + opWidth getTextWidth op)%Q (PDF.atY op))
      as (new & d' & F & Hd & Hf & Hs & Hc).
    exists (op :: new), d'. cbn [chainEnd rowChain].
    split; [exact F|].
    split; [rewrite Hd, Hd1, <- app_assoc; reflexivity|].
    split; [congruence|]. split; [congruence|].
    split; assumption.
Qed.

Lemma renderSegment_chain (x lh : Q) (d : PDF.Doc) (cx cy : Q)
    (g : PDF.Segment) :
  exists new d',
    PDF.renderSegment getTextWidth x lh (d, cx, cy) g
    = (d', fst (chainEnd getTextWidth cx cy new),
       snd (chainEnd getTextWidth cx cy new))
    /\ PDF.drawn d' = PDF.drawn d ++ new
    /\ rowChain getTextWidth x lh cx cy new.
Proof.
  unfold PDF.renderSegment. cbv zeta.
  match goal with
  | |- exists new d', fold_left ?f ?l (?d1, _, _) = _ /\ _ =>
      destruct (renderWords_chain x lh (length (split space (PDF.text g)))
                  l d1 cx cy) as (new & d' & F & Hd & _ & _ & Hc);
      assert (D1 : PDF.drawn d1 = PDF.drawn d)
        by (destruct (PDF.bold g) as [[|]|]; try reflexivity;
            destruct (PDF.italic g) as [[|]|]; reflexivity)
  end.
  exists new, d'. split; [exact F|].
  split; [rewrite Hd, D1; reflexivity|exact Hc].
Qed.

Lemma renderSegments_chain (x lh : Q) :
  forall segments d cx cy,
    exists new d',
      fold_left (PDF.renderSegment getTextWidth x lh) segments (d, cx, cy)
      = (d', fst (chainEnd getTextWidth cx cy new),
         snd (chainEnd getTextWidth cx cy new))
      /\ PDF.drawn d' = PDF.drawn d ++ new
      /\ rowChain getTextWidth x lh cx cy new.
Proof.
  induction segments as [|g segments IH]; intros d cx cy.
  - exists [], d. rewrite app_nil_r. repeat split; reflexivity.
  - cbn [fold_left].
    destruct (renderSegment_chain x lh d cx cy g) as (new1 & d1 & E & Hd1 & Hc1).
    rewrite E.
    destruct (IH d1 (fst (chainEnd getTextWidth cx cy new1))
                (snd (chainEnd getTextWidth cx cy new1)))
      as (new & d' & F & Hd & Hc).
    exists (new1 ++ new), d'. rewrite chainEnd_app.
    split; [exact F|].
    split; [rewrite Hd, Hd1, <- app_assoc; reflexivity|].
    apply rowChain_app; assumption.
Qed.

Lemma renderLine_rows (d : PDF.Doc) (y : Q) (line : PDF.Line) :
  exists new,
    PDF.drawn (fst (PDF.renderLine getTextWidth (d, y) line))
    = PDF.drawn d ++ new
    /\ lineRows getTextWidth y line new.
Proof.
  unfold PDF.renderLine, lineRows. destruct (PDF.type line).
  - eexists. cbn [fst]. split; [reflexivity|].
    eexists. split; [reflexivity|split; reflexivity].
  - eexists. cbn [fst]. split; [reflexivity|].
    eexists. split; [reflexivity|split; reflexivity].
  - unfold PDF.renderParagraphWithFormatting. cbv zeta.
    destruct (renderSegments_chain 20 PDF.lineHeight
                (PDF.parseInlineFormatting (PDF.ltext line))
                (PDF.setFontSize 12 d) 20 y) as (new & d' & F & Hd & Hc).
    rewrite F. exists new. split; [exact Hd|exact Hc].
  - exists []. cbn [fst]. rewrite app_nil_r. split; reflexivity.
Qed.

Lemma beforeWrap_cursor (x lh : Q) :
  forall ops cx cy,
    rowChain getTextWidth x lh cx cy ops ->
    Forall (fun op => PDF.atY op = cy) (beforeWrap getTextWidth x cx ops).
Proof.
  induction ops as [|op ops IH]; intros cx cy H; [constructor|].
  cbn [rowChain beforeWrap] in *. destruct H as [H1 H2].
  destruct (PDF.gt _ _); [constructor|].
  destruct H1 as [Hx Hy]. rewrite Hx, Hy in H2.
  constructor; [exact Hy|]. apply IH. exact H2.
Qed.

Lemma unwrapped_cursor (y : Q) (line : PDF.Line) (new : list PDF.TextOp) :
  lineRows getTextWidth y line new ->
  Forall (fun op => PDF.atY op = y) (unwrapped getTextWidth line new).
Proof.
  unfold lineRows, unwrapped. destruct (PDF.type line); intros H.
  - destruct H as (op & -> & _ & Hy). constructor; [exact Hy|constructor].
  - destruct H as (op & -> & _ & Hy). constructor; [exact Hy|constructor].
  - exact (beforeWrap_cursor 20 PDF.lineHeight new 20 y H).
  - subst new. constructor.
Qed.

Lemma exportLine_rows (st : PDF.Doc * Q) (line : PDF.Line) :
  (20 <= snd st)%Q ->
  exists new,
    PDF.drawn (fst (PDF.exportLine pageHeight getTextWidth st line))
    = PDF.drawn (fst st) ++ new
    /\ lineDrawings pageHeight getTextWidth line new.
Proof.
  intros Hy. unfold PDF.exportLine.
  pose proof (pageBreak_cursor pageHeight page_tall st) as Hc.
  destruct (pageBreak_trace pageHeight st Hy) as (Bd & _ & By).
  destruct (PDF.pageBreak pageHeight st) as [d y]. cbn [fst snd] in *.
  destruct (renderLine_rows d y line) as (new & Hd & Hr).
  exists new. split; [rewrite Hd, Bd; reflexivity|].
  exists y. split; [exact By|]. split; [exact Hc|]. split; [exact Hr|].
  apply Forall_impl with (2 := unwrapped_cursor y line new Hr).
  intros op H. split; [exact H|].
  unfold aboveBottomMargin. rewrite H. exact Hc.
Qed.

Lemma exportLines_rows :
  forall lines st,
    (20 <= snd st)%Q ->
    exists groups,
      PDF.drawn (fst (fold_left (PDF.exportLine pageHeight getTextWidth) lines st))
      = PDF.drawn (fst st) ++ concat groups
      /\ Forall2 (lineDrawings pageHeight getTextWidth) lines groups.
Proof.
  induction lines as [|line lines IH]; intros st Hy.
  - exists []. cbn [fold_left concat]. rewrite app_nil_r.
    split; [reflexivity|constructor].
  - cbn [fold_left].
    destruct (exportLine_rows st line Hy) as (new & Hd & Hl).
    destruct (exportLine_trace pageHeight getTextWidth st line Hy)
      as (_ & _ & _ & Hy1 & _).
    destruct (IH _ Hy1) as (groups & Hd' & Hg).
    exists (new :: groups). cbn [concat].
    split; [rewrite Hd', Hd, <- app_assoc; reflexivity|].
    constructor; assumption.
Qed.

End ParagraphRows.

(** C2, as amended: the page-break test of the paged renderer runs once for
    each logical line, before the line is rendered: when the cursor is beyond
    the page height minus 20, exactly one page is added and the cursor goes
    back to 20, and otherwise nothing changes; so each line starts at a
    cursor between the top and the bottom margin, and what it draws goes on
    the page in force after the test.  A heading is drawn at that cursor.
    The words of a paragraph are drawn from that cursor on: a word that
    would end beyond the right margin is moved to the start of the next row,
    7 lower, without a further test, and any other word is drawn at the
    height of the word before it.  So in every document each heading and
    each word of a paragraph up to the first wrap of the paragraph is drawn
    at the cursor of its line, at or above the bottom margin; only words on
    wrapped rows can lie below it. *)
Theorem page_break_per_line (pageHeight : Q)
    (getTextWidth : PDF.FontStyle -> nat -> jsstring -> Q) :
  (40 <= pageHeight)%Q ->
  (forall doc y, (pageHeight - 20 < y)%Q ->
     PDF.pageBreak pageHeight (doc, y) = (PDF.addPage doc, 20%Q)
     /\ PDF.pages (PDF.addPage doc) = S (PDF.pages doc))
  /\ (forall doc y, (y <= pageHeight - 20)%Q ->
        PDF.pageBreak pageHeight (doc, y) = (doc, y))
  /\ (forall st, (snd (PDF.pageBreak pageHeight st) <= pageHeight - 20)%Q)
  /\ (forall st line,
        exists new,
          PDF.drawn (fst (PDF.exportLine pageHeight getTextWidth st line))
          = PDF.drawn (fst st) ++ new
          /\ Forall (fun op =>
                       PDF.onPage op
                       = PDF.pages (fst (PDF.pageBreak pageHeight st))) new
          /\ lineRows getTextWidth (snd (PDF.pageBreak pageHeight st)) line new
          /\ Forall (fun op =>
                       PDF.atY op = snd (PDF.pageBreak pageHeight st)
                       /\ aboveBottomMargin pageHeight op)
               (unwrapped getTextWidth line new))
  /\ (forall c,
        exists groups,
          PDF.drawn (PDF.export pageHeight getTextWidth c) = concat groups
          /\ Forall2 (lineDrawings pageHeight getTextWidth)
               (PDF.parseMarkdown c) groups)
  /\ (forall c,
        Forall (fun op => headingDraw op -> aboveBottomMargin pageHeight op)
          (PDF.drawn (PDF.export pageHeight getTextWidth c))).
Proof.
  intros Htall.
  split.
  { intros doc y H. split; [|reflexivity]. apply pageBreak_over. exact H. }
  split; [intros doc y H; apply pageBreak_within; exact H|].
  split; [intros st; apply pageBreak_cursor; exact Htall|].
  split.
  { intros st line. unfold PDF.exportLine.
    pose proof (pageBreak_drawn pageHeight st) as Hd.
    pose proof (pageBreak_cursor pageHeight Htall st) as Hc.
    destruct (PDF.pageBreak pageHeight st) as [d y]. cbn [fst snd] in *.
    destruct (renderLine_draws getTextWidth d y line) as [new (_ & E & Ha)].
    destruct (renderLine_rows getTextWidth d y line) as (new' & E' & Hr).
    rewrite E in E'. apply app_inv_head in E'. subst new'.
    exists new. rewrite E, Hd. split; [reflexivity|].
    split; [apply Forall_impl with (2 := Ha); intros op [H _]; exact H|].
    split; [exact Hr|].
    apply Forall_impl with (2 := unwrapped_cursor getTextWidth y line new Hr).
    intros op H. split; [exact H|].
    unfold aboveBottomMargin. rewrite H. exact Hc. }
  split.
  { intros c. unfold PDF.export.
    destruct (exportLines_rows pageHeight getTextWidth Htall
                (PDF.parseMarkdown c) (PDF.newDoc, 20%Q) (Qle_refl 20))
      as (groups & Hd & Hg).
    exists groups. split; [exact Hd|exact Hg]. }
  intros c. unfold PDF.export.
  apply export_headings; [exact Htall|]. constructor.
Qed.

Lemma page_break_per_line_witness :
  PDF.pages (PDF.export 297 twoPerChar twoPageDocument) = 2
  /\ (forall doc,
        PDF.pageBreak 297 (doc, 286%Q) = (PDF.addPage doc, 20%Q)
        /\ PDF.pages (PDF.addPage doc) = S (PDF.pages doc))
  /\ exists groups,
       PDF.drawn (PDF.export 297 twoPerChar twoPageDocument) = concat groups
       /\ Forall2 (lineDrawings 297 twoPerChar)
            (PDF.parseMarkdown twoPageDocument) groups.
Proof.
  assert (H : (40 <= 297)%Q) by (unfold Qle; simpl; lia).
  destruct (page_break_per_line 297 twoPerChar H) as (B & _ & _ & _ & G & _).
  split; [vm_compute; reflexivity|].
  split; [|exact (G twoPageDocument)].
  intros doc. apply B. unfold Qlt. simpl. lia.
Defined.

(** Against C2 as it was stated: eighteen headings bring the cursor to 272 on
    a page of height 297; the paragraph that follows starts there, its one
    word is wider than the line, and it is drawn one row further down, at
    279, beyond 297 - 20, on the same page. *)
Lemma page_break_wrapped_row_below_margin :
  PDF.pages (PDF.export 297 twoPerChar longWordAtPageEnd) = 1
  /\ exists op,
       In op (PDF.drawn (PDF.export 297 twoPerChar longWordAtPageEnd))
       /\ PDF.content op = repeat "W"%char 100
       /\ PDF.onPage op = 1
       /\ PDF.atY op = 279%Q
       /\ ~ aboveBottomMargin 297 op.
Proof.
  split; [vm_compute; reflexivity|].
  exists (PDF.mkTextOp 1 12 PDF.fontNormal (repeat "W"%char 100) 20 279).
  split.
  - apply (nth_error_In _ 18). vm_compute. reflexivity.
  - repeat split. unfold aboveBottomMargin. simpl.
    intros H. unfold Qle in H. simpl in H. lia.
Qed.
